(** * SoundGrid: a shallow embedding of the sequencer and the hue voice

    The development follows the three source files of the repository:
    [sound_synthesis.py] (the instrument factory), [camera_utils.py]
    (the camera manager with the hue oscillator and the pitch quantizer)
    and [app.py] (the grid, the step clock and the event handlers).

    Conventions of the embedding.
    - Python floats are modelled by exact rationals ([Q]); Python ints by [Z].
      A statement that would depend on rounding is made on a range where
      the doubles and the rationals order values alike.
    - The sound files are an input too: the class [Files] tells which paths
      [SfPlayer] can read, and opening another raises.  A statement that
      names no file system is about [all_readable], where every file asked
      for is there; statements about a sample that may be missing quantify
      over the file system.
    - A pyo object is a handle ([obj]); the audio server is a [World] that
      allocates handles and records, in order, every object built and every
      command sent to an object.  Methods that build objects, send commands
      or may raise live in the monad [M] over that world.
    - [self] is passed and returned explicitly; a method that mutates its
      object returns the updated record.
    - Widget calls (labels, colours, bitmaps, [Refresh]) are presentation
      only and are left out; the camera pipeline of OpenCV is an input: a
      frame is given by the areas of the contours found in it. *)

From Stdlib Require Import ZArith QArith Qabs Qround Sorted Lia Lqa.
From stdpp Require Import base list gmap strings.

Set Default Proof Using "Type".

(** ** The audio world *)

Definition obj := nat.

(** The pyo constructors the program calls, with the arguments it passes. *)
Inductive pyo : Type :=
  | Fader (fadein fadeout mul : Q)
  | Adsr (attack decay sustain release mul : Q)
  | Sine (freq mul : Q)
  | SuperSaw (freq : Q)
  | LFO (freq : Q) (type : Z)
  | SfPlayer (path : string) (speed : Q) (loop : bool)
  | Harmonizer (input : obj) (transpo : Q)
  | RCOsc (freq sharp : Q)
  | PinkNoise (mul : Q)
  | FM (carrier ratio index : Q)
  | Biquad (input : obj) (freq q : Q) (type : Z)
  | Mix (inputs : list obj) (voices : Z)
  | Compress (input : obj) (thresh ratio risetime falltime : Q)
  | Chorus (input : obj) (depth feedback bal : Q)
  | Freeverb (input : obj) (size bal : Q)
  | Add (a b : obj)
  | Mul (a b : obj).

(** What the program does to the server, in program order.  The last
    constructor is not a server command: it records a call of
    [create_instrument] with the two arguments that decide its dispatch, so
    that a run shows which instruments were asked for. *)
Inductive effect : Type :=
  | ENew (o : obj) (d : pyo)
  | EPlay (o : obj)
  | EOut (o : obj)
  | EStop (o : obj)
  | ESetMul (o : obj) (v : Q)
  | ESetFreq (o : obj) (f : Q)
  | ESetSize (o : obj) (v : Q)
  | ESetBal (o : obj) (v : Q)
  | ETimerStart (ms : Z)
  | ETimerStop
  | ECaptureRelease
  | ECreateInstrument (instrument : string) (freq : Q).

Record World : Type := mkWorld { next_obj : obj; log : list effect }.

Inductive exn : Type :=
  IndexError | KeyError | ZeroDivisionError | ValueError | PyoError.

Inductive outcome (A : Type) : Type :=
  | Return (a : A) (w : World)
  | Raise (e : exn).
Arguments Return {A} a w.
Arguments Raise {A} e.

Definition M (A : Type) : Type := World -> outcome A.

Definition ret {A} (a : A) : M A := fun w => Return a w.

Definition bind {A B} (m : M A) (k : A -> M B) : M B :=
  fun w => match m w with
           | Return a w' => k a w'
           | Raise e => Raise e
           end.

Definition raise {A} (e : exn) : M A := fun _ => Raise e.

Notation "'let!' x ':=' m 'in' k" := (bind m (fun x => k))
  (at level 10, x pattern, m at level 100, k at level 200).
Notation "m ';;' k" := (bind m (fun _ => k))
  (at level 100, k at level 200, right associativity).

Definition emit (e : effect) : M unit :=
  fun w => Return tt (mkWorld (next_obj w) (log w ++ [e])).

Definition new (d : pyo) : M obj :=
  fun w => Return (next_obj w)
             (mkWorld (S (next_obj w)) (log w ++ [ENew (next_obj w) d])).

Definition when (b : bool) (m : M unit) : M unit := if b then m else ret tt.

(** A [for] loop that threads the loop-carried state. *)
Fixpoint for_each {A S : Type} (l : list A) (body : A -> S -> M S) (s : S) : M S :=
  match l with
  | [] => ret s
  | a :: l' => let! s' := body a s in for_each l' body s'
  end.

(** [range(n)] *)
Definition range (n : nat) : list Z := map Z.of_nat (seq 0 n).

(** ** Python lists: indexing with an int, negative indices counted from
    the end, [IndexError] out of range. *)

Definition py_norm {A} (l : list A) (i : Z) : option nat :=
  let n := Z.of_nat (length l) in
  if ((0 <=? i) && (i <? n))%Z then Some (Z.to_nat i)
  else if ((- n <=? i) && (i <? 0))%Z then Some (Z.to_nat (n + i))
  else None.

Definition getitem {A} (l : list A) (i : Z) : M A :=
  match py_norm l i ≫= (fun k => l !! k) with
  | Some a => ret a
  | None => raise IndexError
  end.

Definition setitem {A} (l : list A) (i : Z) (v : A) : M (list A) :=
  match py_norm l i with
  | Some k => ret (<[k := v]> l)
  | None => raise IndexError
  end.

(** [grid[y][x]] and [grid[y][x] = v] on a list of rows. *)
Definition getitem2 {A} (g : list (list A)) (y x : Z) : M A :=
  let! row := getitem g y in getitem row x.

Definition setitem2 {A} (g : list (list A)) (y x : Z) (v : A) : M (list (list A)) :=
  let! row := getitem g y in
  let! row' := setitem row x v in
  setitem g y row'.

(** [a / b] on floats. *)
Definition truediv (a b : Q) : M Q :=
  if Qeq_bool b 0 then raise ZeroDivisionError else ret (a / b)%Q.

(** [a % m] on floats, for a positive modulus. *)
Definition Qfmod (a m : Q) : Q := (a - m * inject_Z (Qfloor (a / m)))%Q.

Definition Qltb (a b : Q) : bool := negb (Qle_bool b a).

(** [min(l, key=key)] and [max(l, key=key)]: the first element whose key is
    minimal (maximal); [None] stands for the [ValueError] on an empty list. *)
Section PyMinMax.
Context {A K : Type} (key : A -> K) (ltb : K -> K -> bool).

Fixpoint min_from (best : A) (l : list A) : A :=
  match l with
  | [] => best
  | x :: l' => if ltb (key x) (key best) then min_from x l' else min_from best l'
  end.

Definition py_min (l : list A) : option A :=
  match l with
  | [] => None
  | x :: l' => Some (min_from x l')
  end.

Fixpoint max_from (best : A) (l : list A) : A :=
  match l with
  | [] => best
  | x :: l' => if ltb (key best) (key x) then max_from x l' else max_from best l'
  end.

Definition py_max (l : list A) : option A :=
  match l with
  | [] => None
  | x :: l' => Some (max_from x l')
  end.
End PyMinMax.

(** ** sound_synthesis.py *)

Definition INSTRUMENT_NAMES : list string :=
  ["sine"; "saw"; "square"; "samples"; "mysynth"; "fm"; "drumkit"].

(** The frequency ranges of the [drumkit] case:
    [if freq < 100: ... elif freq < 200: ... else: ...]. *)
Inductive drum : Type := Kick | Snare | HiHat.

Definition drumkit_case (freq : Q) : drum :=
  if Qltb freq 100 then Kick
  else if Qltb freq 200 then Snare
  else HiHat.

(** The three bodies of the [drumkit] case. *)
Definition drumkit_kick (freq volume : Q) : M obj :=
  let! sine := new (Sine freq volume) in
  let! kick := new (Mix [sine] 2) in
  let! kick_env := new (Adsr 0.01 0.15 0 0.1 volume) in
  emit (EPlay kick_env) ;;
  new (Mul kick kick_env).

Definition drumkit_snare (volume : Q) : M obj :=
  let! noise := new (PinkNoise (volume * 0.5)) in
  let! snare_env := new (Adsr 0.01 0.2 0 0.1 volume) in
  emit (EPlay snare_env) ;;
  let! bp := new (Biquad noise 2000 0.8 1) in
  new (Mul bp snare_env).

Definition drumkit_hihat (volume : Q) : M obj :=
  let! noise := new (PinkNoise (volume * 0.3)) in
  let! hat_env := new (Adsr 0.01 0.05 0 0.02 volume) in
  emit (EPlay hat_env) ;;
  let! bp := new (Biquad noise 8000 1.0 1) in
  new (Mul bp hat_env).

(** The sound files the process can open: [readable path] tells whether
    [SfPlayer(path)] finds a file it can read; otherwise the constructor
    raises.  The handlers take the file system as they find it. *)
Class Files : Type := readable : string → bool.

(** The file system in which every file asked for is there.  A statement
    that names no file system is about this one: the samples are a given of
    the environment. *)
#[export] Instance all_readable : Files | 100 := fun _ => true.

Definition create_instrument {F : Files} (instrument : string) (freq volume : Q)
    (filter_enabled : bool) (filter_frequency : Q) (selected_sample : string)
    : M (obj * obj) :=
  emit (ECreateInstrument instrument freq) ;;
  let! fader := new (Fader 0.02 0.1 volume) in
  emit (EPlay fader) ;;
  let! osc :=
    if String.eqb instrument "sine" then new (Sine freq 1)
    else if String.eqb instrument "saw" then new (SuperSaw freq)
    else if String.eqb instrument "square" then new (LFO freq 2)
    else if String.eqb instrument "samples" then
      let! player :=
        if readable ("samples/" +:+ selected_sample)
        then new (SfPlayer ("samples/" +:+ selected_sample) 1 true)
        else raise PyoError in
      new (Harmonizer player 0.5)
    else if String.eqb instrument "mysynth" then
      let! base_osc := new (RCOsc freq 0.8) in
      let! mod_ := new (Sine (freq * 0.5) 0.2) in
      let! noise := new (PinkNoise 0.1) in
      let! sum1 := new (Add base_osc mod_) in
      let! sum2 := new (Add sum1 noise) in
      new (Biquad sum2 freq 1.2 1)
    else if String.eqb instrument "fm" then
      let ratio_val := (freq / 200.0)%Q in
      new (FM freq ratio_val 10)
    else if String.eqb instrument "drumkit" then
      match drumkit_case freq with
      | Kick => drumkit_kick freq volume
      | Snare => drumkit_snare volume
      | HiHat => drumkit_hihat volume
      end
    else new (Sine freq 1) in
  let! source := new (Mul osc fader) in
  let! source :=
    if filter_enabled then new (Biquad source filter_frequency 1 0)
    else ret source in
  ret (source, fader).

(** ** camera_utils.py *)

Record CameraManager : Type := mkCameraManager {
  hue_oscillator : option obj;
  hue_reverb_effect : option obj;
  current_freq : Q;
  frame_counter : Z
}.

(** [CameraManager.__init__] *)
Definition CameraManager_init : CameraManager :=
  mkCameraManager None None 220 0.

Definition release (self : CameraManager) : M CameraManager :=
  emit ECaptureRelease ;; ret self.

Definition stop_hue_oscillator (self : CameraManager) : M CameraManager :=
  match hue_oscillator self with
  | Some osc =>
      match hue_reverb_effect self with
      | Some rev => emit (EStop rev)
      | None => ret tt
      end ;;
      emit (EStop osc) ;;
      ret (mkCameraManager None None (current_freq self) (frame_counter self))
  | None => ret self
  end.

Definition create_hue_effects (oscillator : obj) (volume reverb : Q) : M obj :=
  let! chorus := new (Chorus oscillator 0.5 0.25 0.2) in
  let! compressed := new (Compress chorus (-10) 4.0 0.01 0.1) in
  let! reverb_effect := new (Freeverb compressed reverb reverb) in
  emit (EOut reverb_effect) ;;
  ret reverb_effect.

Definition update_hue_oscillator (self : CameraManager) (target_freq volume reverb : Q)
    : M CameraManager :=
  let cf := (current_freq self + (target_freq - current_freq self) * 0.1)%Q in
  match hue_oscillator self with
  | None =>
      let! osc := new (Sine cf volume) in
      let! rev := create_hue_effects osc volume reverb in
      ret (mkCameraManager (Some osc) (Some rev) cf (frame_counter self))
  | Some osc =>
      when (frame_counter self mod 5 =? 0)%Z (emit (ESetFreq osc cf)) ;;
      emit (ESetMul osc volume) ;;
      match hue_reverb_effect self with
      | Some rev => emit (ESetSize rev reverb) ;; emit (ESetBal rev reverb)
      | None => ret tt
      end ;;
      ret (mkCameraManager (Some osc) (hue_reverb_effect self) cf (frame_counter self))
  end.

Definition SCALE_FREQUENCIES : list Q :=
  [220.0; 246.94; 261.63; 293.66; 329.63; 392.0; 440.0; 493.88; 523.25; 587.33]%Q.

(** The table is a non-empty constant, so [min] never raises and the
    default below is never used. *)
Definition quantize_to_scale (freq : Q) : Q :=
  default freq (py_min (fun x => Qabs (x - freq)) Qltb SCALE_FREQUENCIES).

(** A frame as [process_frame] sees it: [None] when [capture.read()] fails,
    otherwise the areas of the contours of the hue mask, in the order
    [findContours] returns them. *)
Definition frame := option (list Q).

Definition process_frame (self : CameraManager) (fr : frame)
    (hue_detection_enabled : bool) (target_hue color_sensitivity : Z)
    (hue_volume hue_reverb : Q) : M CameraManager :=
  if negb hue_detection_enabled then stop_hue_oscillator self
  else
    match fr with
    | None => ret self
    | Some contours =>
        let self := mkCameraManager (hue_oscillator self) (hue_reverb_effect self)
                      (current_freq self) ((frame_counter self + 1) mod 5) in
        match py_max (fun a : Q => a) Qltb contours with
        | Some area =>
            let raw_freq := (220 + Qfmod area 300)%Q in
            let harmonic_freq := quantize_to_scale raw_freq in
            update_hue_oscillator self harmonic_freq hue_volume hue_reverb
        | None => stop_hue_oscillator self
        end
    end.

(** ** app.py *)

(** The attributes of [SoundGrid] that the engine reads or writes.  A cell of
    [oscillators] and a slot of [instrument_loops] hold the pair
    [[source, fader]] that [create_instrument] returns; a slot of
    [column_mixers] holds [[final_out, final_fader]]. *)
Record SoundGrid : Type := mkSoundGrid {
  playing : bool;
  volume : Q;
  hue_volume : Q;
  hue_reverb : Q;
  speed : Z;
  color_sensitivity : Z;
  target_hue : Z;
  hue_detection_enabled : bool;
  filter_enabled : bool;
  filter_frequency : Z;
  selected_sample : string;
  camera_mgr : CameraManager;
  oscillators : list (list (option (obj * obj)));
  current_instruments : list (list Z);
  instrument_loops : gmap string (option (obj * obj));
  column_mixers : list (option (obj * obj));
  v_line_pos : Z;
  prev_line_pos : Z
}.

(** Attribute assignment, one setter per attribute. *)

Definition set_playing (v : bool) (self : SoundGrid) : SoundGrid :=
  mkSoundGrid v (volume self) (hue_volume self) (hue_reverb self) (speed self)
    (color_sensitivity self) (target_hue self) (hue_detection_enabled self)
    (filter_enabled self) (filter_frequency self) (selected_sample self)
    (camera_mgr self) (oscillators self) (current_instruments self)
    (instrument_loops self) (column_mixers self) (v_line_pos self)
    (prev_line_pos self).

Definition set_volume (v : Q) (self : SoundGrid) : SoundGrid :=
  mkSoundGrid (playing self) v (hue_volume self) (hue_reverb self) (speed self)
    (color_sensitivity self) (target_hue self) (hue_detection_enabled self)
    (filter_enabled self) (filter_frequency self) (selected_sample self)
    (camera_mgr self) (oscillators self) (current_instruments self)
    (instrument_loops self) (column_mixers self) (v_line_pos self)
    (prev_line_pos self).

Definition set_hue_volume (v : Q) (self : SoundGrid) : SoundGrid :=
  mkSoundGrid (playing self) (volume self) v (hue_reverb self) (speed self)
    (color_sensitivity self) (target_hue self) (hue_detection_enabled self)
    (filter_enabled self) (filter_frequency self) (selected_sample self)
    (camera_mgr self) (oscillators self) (current_instruments self)
    (instrument_loops self) (column_mixers self) (v_line_pos self)
    (prev_line_pos self).

Definition set_hue_reverb (v : Q) (self : SoundGrid) : SoundGrid :=
  mkSoundGrid (playing self) (volume self) (hue_volume self) v (speed self)
    (color_sensitivity self) (target_hue self) (hue_detection_enabled self)
    (filter_enabled self) (filter_frequency self) (selected_sample self)
    (camera_mgr self) (oscillators self) (current_instruments self)
    (instrument_loops self) (column_mixers self) (v_line_pos self)
    (prev_line_pos self).

Definition set_speed (v : Z) (self : SoundGrid) : SoundGrid :=
  mkSoundGrid (playing self) (volume self) (hue_volume self) (hue_reverb self) v
    (color_sensitivity self) (target_hue self) (hue_detection_enabled self)
    (filter_enabled self) (filter_frequency self) (selected_sample self)
    (camera_mgr self) (oscillators self) (current_instruments self)
    (instrument_loops self) (column_mixers self) (v_line_pos self)
    (prev_line_pos self).

Definition set_color_sensitivity (v : Z) (self : SoundGrid) : SoundGrid :=
  mkSoundGrid (playing self) (volume self) (hue_volume self) (hue_reverb self)
    (speed self) v (target_hue self) (hue_detection_enabled self)
    (filter_enabled self) (filter_frequency self) (selected_sample self)
    (camera_mgr self) (oscillators self) (current_instruments self)
    (instrument_loops self) (column_mixers self) (v_line_pos self)
    (prev_line_pos self).

Definition set_target_hue (v : Z) (self : SoundGrid) : SoundGrid :=
  mkSoundGrid (playing self) (volume self) (hue_volume self) (hue_reverb self)
    (speed self) (color_sensitivity self) v (hue_detection_enabled self)
    (filter_enabled self) (filter_frequency self) (selected_sample self)
    (camera_mgr self) (oscillators self) (current_instruments self)
    (instrument_loops self) (column_mixers self) (v_line_pos self)
    (prev_line_pos self).

Definition set_hue_detection_enabled (v : bool) (self : SoundGrid) : SoundGrid :=
  mkSoundGrid (playing self) (volume self) (hue_volume self) (hue_reverb self)
    (speed self) (color_sensitivity self) (target_hue self) v
    (filter_enabled self) (filter_frequency self) (selected_sample self)
    (camera_mgr self) (oscillators self) (current_instruments self)
    (instrument_loops self) (column_mixers self) (v_line_pos self)
    (prev_line_pos self).

Definition set_filter_enabled (v : bool) (self : SoundGrid) : SoundGrid :=
  mkSoundGrid (playing self) (volume self) (hue_volume self) (hue_reverb self)
    (speed self) (color_sensitivity self) (target_hue self)
    (hue_detection_enabled self) v (filter_frequency self)
    (selected_sample self) (camera_mgr self) (oscillators self)
    (current_instruments self) (instrument_loops self) (column_mixers self)
    (v_line_pos self) (prev_line_pos self).

Definition set_filter_frequency (v : Z) (self : SoundGrid) : SoundGrid :=
  mkSoundGrid (playing self) (volume self) (hue_volume self) (hue_reverb self)
    (speed self) (color_sensitivity self) (target_hue self)
    (hue_detection_enabled self) (filter_enabled self) v (selected_sample self)
    (camera_mgr self) (oscillators self) (current_instruments self)
    (instrument_loops self) (column_mixers self) (v_line_pos self)
    (prev_line_pos self).

Definition set_selected_sample (v : string) (self : SoundGrid) : SoundGrid :=
  mkSoundGrid (playing self) (volume self) (hue_volume self) (hue_reverb self)
    (speed self) (color_sensitivity self) (target_hue self)
    (hue_detection_enabled self) (filter_enabled self) (filter_frequency self) v
    (camera_mgr self) (oscillators self) (current_instruments self)
    (instrument_loops self) (column_mixers self) (v_line_pos self)
    (prev_line_pos self).

Definition set_camera_mgr (v : CameraManager) (self : SoundGrid) : SoundGrid :=
  mkSoundGrid (playing self) (volume self) (hue_volume self) (hue_reverb self)
    (speed self) (color_sensitivity self) (target_hue self)
    (hue_detection_enabled self) (filter_enabled self) (filter_frequency self)
    (selected_sample self) v (oscillators self) (current_instruments self)
    (instrument_loops self) (column_mixers self) (v_line_pos self)
    (prev_line_pos self).

Definition set_oscillators (v : list (list (option (obj * obj)))) (self : SoundGrid) : SoundGrid :=
  mkSoundGrid (playing self) (volume self) (hue_volume self) (hue_reverb self)
    (speed self) (color_sensitivity self) (target_hue self)
    (hue_detection_enabled self) (filter_enabled self) (filter_frequency self)
    (selected_sample self) (camera_mgr self) v (current_instruments self)
    (instrument_loops self) (column_mixers self) (v_line_pos self)
    (prev_line_pos self).

Definition set_current_instruments (v : list (list Z)) (self : SoundGrid) : SoundGrid :=
  mkSoundGrid (playing self) (volume self) (hue_volume self) (hue_reverb self)
    (speed self) (color_sensitivity self) (target_hue self)
    (hue_detection_enabled self) (filter_enabled self) (filter_frequency self)
    (selected_sample self) (camera_mgr self) (oscillators self) v
    (instrument_loops self) (column_mixers self) (v_line_pos self)
    (prev_line_pos self).

Definition set_instrument_loops (v : gmap string (option (obj * obj))) (self : SoundGrid) : SoundGrid :=
  mkSoundGrid (playing self) (volume self) (hue_volume self) (hue_reverb self)
    (speed self) (color_sensitivity self) (target_hue self)
    (hue_detection_enabled self) (filter_enabled self) (filter_frequency self)
    (selected_sample self) (camera_mgr self) (oscillators self)
    (current_instruments self) v (column_mixers self) (v_line_pos self)
    (prev_line_pos self).

Definition set_column_mixers (v : list (option (obj * obj))) (self : SoundGrid) : SoundGrid :=
  mkSoundGrid (playing self) (volume self) (hue_volume self) (hue_reverb self)
    (speed self) (color_sensitivity self) (target_hue self)
    (hue_detection_enabled self) (filter_enabled self) (filter_frequency self)
    (selected_sample self) (camera_mgr self) (oscillators self)
    (current_instruments self) (instrument_loops self) v (v_line_pos self)
    (prev_line_pos self).

Definition set_v_line_pos (v : Z) (self : SoundGrid) : SoundGrid :=
  mkSoundGrid (playing self) (volume self) (hue_volume self) (hue_reverb self)
    (speed self) (color_sensitivity self) (target_hue self)
    (hue_detection_enabled self) (filter_enabled self) (filter_frequency self)
    (selected_sample self) (camera_mgr self) (oscillators self)
    (current_instruments self) (instrument_loops self) (column_mixers self) v
    (prev_line_pos self).

Definition set_prev_line_pos (v : Z) (self : SoundGrid) : SoundGrid :=
  mkSoundGrid (playing self) (volume self) (hue_volume self) (hue_reverb self)
    (speed self) (color_sensitivity self) (target_hue self)
    (hue_detection_enabled self) (filter_enabled self) (filter_frequency self)
    (selected_sample self) (camera_mgr self) (oscillators self)
    (current_instruments self) (instrument_loops self) (column_mixers self)
    (v_line_pos self) v.

Definition samples_list : list string :=
  ["bass_synth.wav"; "bass_synth2.wav"; "drums.wav"; "guitar.wav";
   "hiphop.wav"; "kick.wav"; "reverse_keys.wav"; "synth.wav"].

(** The 10-note scale of the rows. *)
Definition scale_frequencies : list Q :=
  [220.0; 261.63; 293.66; 329.63; 392.0; 440.0; 523.25; 587.33; 659.25; 784.0]%Q.

(** [SoundGrid.__init__], after the server has booted. *)
Definition SoundGrid_init : SoundGrid := {|
  playing := false;
  volume := 0.5;
  hue_volume := 0.5;
  hue_reverb := 0.5;
  speed := 100;
  color_sensitivity := 5;
  target_hue := 50;
  hue_detection_enabled := true;
  filter_enabled := false;
  filter_frequency := 1000;
  selected_sample := "bass_synth.wav";
  camera_mgr := CameraManager_init;
  oscillators := replicate 10 (replicate 10 None);
  current_instruments := replicate 10 (replicate 10 (-1)%Z);
  instrument_loops := list_to_map (map (fun name => (name, None)) INSTRUMENT_NAMES);
  column_mixers := replicate 10 None;
  v_line_pos := 0;
  prev_line_pos := -1
|}.

Definition World_init : World := mkWorld 0 [].

(** [create_instrument] as every caller in [app.py] invokes it: with the
    current volume, filter settings and sample. *)
Definition create_with_settings {F : Files} (self : SoundGrid) (instrument : string) (freq : Q)
    : M (obj * obj) :=
  create_instrument instrument freq (volume self) (filter_enabled self)
    (inject_Z (filter_frequency self)) (selected_sample self).

(** [inst[1].stop(); inst[0].stop()] when the slot is not empty. *)
Definition stop_pair (slot : option (obj * obj)) : M unit :=
  match slot with
  | Some (source, fader) => emit (EStop fader) ;; emit (EStop source)
  | None => ret tt
  end.

Definition on_instrument_button_down {F : Files} (instrument_label : string)
    (self : SoundGrid)
    : M SoundGrid :=
  match instrument_loops self !! instrument_label with
  | None => raise KeyError
  | Some (Some _) => ret self
  | Some None =>
      let! inst := create_with_settings self instrument_label 220 in
      emit (EOut (fst inst)) ;;
      ret (set_instrument_loops
             (<[instrument_label := Some inst]> (instrument_loops self)) self)
  end.

Definition on_instrument_button_up (instrument_label : string) (self : SoundGrid)
    : M SoundGrid :=
  match instrument_loops self !! instrument_label with
  | Some (Some (source, fader)) =>
      emit (EStop fader) ;;
      emit (EStop source) ;;
      ret (set_instrument_loops
             (<[instrument_label := None]> (instrument_loops self)) self)
  | _ => ret self
  end.

Definition on_toggle {F : Files} (y x : Z) (self : SoundGrid) : M SoundGrid :=
  let n := Z.of_nat (length INSTRUMENT_NAMES) in
  let! current := getitem2 (current_instruments self) y x in
  let next_instrument :=
    if (current =? -1)%Z then 0%Z else ((current + 1) mod (n + 1))%Z in
  if (next_instrument =? n)%Z then
    let! osc := getitem2 (oscillators self) y x in
    let! oscillators' :=
      match osc with
      | Some _ => stop_pair osc ;; setitem2 (oscillators self) y x None
      | None => ret (oscillators self)
      end in
    let! current' := setitem2 (current_instruments self) y x (-1)%Z in
    ret (set_current_instruments current' (set_oscillators oscillators' self))
  else
    let! name := getitem INSTRUMENT_NAMES next_instrument in
    let! osc := getitem2 (oscillators self) y x in
    stop_pair osc ;;
    let! freq := getitem scale_frequencies y in
    let! inst := create_with_settings self name freq in
    let! oscillators' := setitem2 (oscillators self) y x (Some inst) in
    let! current' := setitem2 (current_instruments self) y x next_instrument in
    ret (set_current_instruments current' (set_oscillators oscillators' self)).

(** The loop over the columns shared by pause and clear:
    [final_fader.stop(); final_out.stop(); column_mixers[col_index] = None]. *)
Definition stop_column (col_index : Z) (self : SoundGrid) : M SoundGrid :=
  let! slot := getitem (column_mixers self) col_index in
  match slot with
  | Some (final_out, final_fader) =>
      emit (EStop final_fader) ;;
      emit (EStop final_out) ;;
      let! mixers := setitem (column_mixers self) col_index None in
      ret (set_column_mixers mixers self)
  | None => ret self
  end.

(** [for row in self.oscillators: for osc in row: if osc: ... stop]; the
    cells are stopped and kept. *)
Definition stop_oscillators (self : SoundGrid) : M unit :=
  for_each (oscillators self)
    (fun row _ => for_each row (fun osc _ => stop_pair osc) tt) tt.

Definition on_play_pause (self : SoundGrid) : M SoundGrid :=
  if negb (playing self) then
    let self := set_playing true self in
    emit (ETimerStart (speed self)) ;;
    ret self
  else
    let self := set_playing false self in
    let! cam := stop_hue_oscillator (camera_mgr self) in
    let self := set_camera_mgr cam self in
    emit ETimerStop ;;
    let! self := for_each (range 10) stop_column self in
    stop_oscillators self ;;
    ret self.

(** The body of the double loop of [on_clear_all]. *)
Definition clear_cell (y x : Z) (self : SoundGrid) : M SoundGrid :=
  let! current' := setitem2 (current_instruments self) y x (-1)%Z in
  let self := set_current_instruments current' self in
  let! osc := getitem2 (oscillators self) y x in
  match osc with
  | Some _ =>
      stop_pair osc ;;
      let! oscillators' := setitem2 (oscillators self) y x None in
      ret (set_oscillators oscillators' self)
  | None => ret self
  end.

Definition on_clear_all (self : SoundGrid) : M SoundGrid :=
  let! self :=
    if playing self then
      let self := set_playing false self in
      let! cam := stop_hue_oscillator (camera_mgr self) in
      let self := set_camera_mgr cam self in
      let self := set_prev_line_pos (-1) self in
      let self := set_v_line_pos 0 self in
      emit ETimerStop ;;
      let! self := for_each (range 10) stop_column self in
      stop_oscillators self ;;
      ret self
    else ret self in
  for_each (range 10)
    (fun y self => for_each (range 10) (fun x self => clear_cell y x self) self) self.

(** [osc[1].setMul(volume)] and [inst[1].setMul(volume)] when present. *)
Definition set_pair_mul (v : Q) (slot : option (obj * obj)) : M unit :=
  match slot with
  | Some (_, fader) => emit (ESetMul fader v)
  | None => ret tt
  end.

(** The dictionary of hold loops is built from [INSTRUMENT_NAMES] and its
    keys never change, so [items()] enumerates it in that order. *)
Definition on_volume_change (value : Z) (self : SoundGrid) : M SoundGrid :=
  let self := set_volume (inject_Z value / 10.0)%Q self in
  for_each (oscillators self)
    (fun row _ => for_each row (fun osc _ => set_pair_mul (volume self) osc) tt) tt ;;
  for_each INSTRUMENT_NAMES
    (fun name _ =>
       match instrument_loops self !! name with
       | Some inst => set_pair_mul (volume self) inst
       | None => ret tt
       end) tt ;;
  ret self.

Definition on_speed_change (value : Z) (self : SoundGrid) : M SoundGrid :=
  let self := set_speed (50 + (10 - value) * 20)%Z self in
  when (playing self) (emit (ETimerStart (speed self))) ;;
  ret self.

Definition on_sample_choice (idx : Z) (self : SoundGrid) : M SoundGrid :=
  let! sample := getitem samples_list idx in
  ret (set_selected_sample sample self).

Definition on_toggle_filter (value : bool) (self : SoundGrid) : M SoundGrid :=
  ret (set_filter_enabled value self).

Definition on_filter_freq_change (value : Z) (self : SoundGrid) : M SoundGrid :=
  ret (set_filter_frequency value self).

Definition on_hue_change (value : Z) (self : SoundGrid) : M SoundGrid :=
  ret (set_target_hue value self).

Definition on_sensitivity_change (value : Z) (self : SoundGrid) : M SoundGrid :=
  ret (set_color_sensitivity value self).

Definition on_hue_volume_change (value : Z) (self : SoundGrid) : M SoundGrid :=
  ret (set_hue_volume (inject_Z value / 10.0)%Q self).

Definition on_hue_reverb_change (value : Z) (self : SoundGrid) : M SoundGrid :=
  ret (set_hue_reverb (inject_Z value / 10.0)%Q self).

Definition on_toggle_hue_detection (value : bool) (self : SoundGrid) : M SoundGrid :=
  ret (set_hue_detection_enabled value self).

(** "STOP PREVIOUS COLUMN": the fader of the previous column is stopped; the
    loop that follows reads the cells of that column to recolour them. *)
Definition stop_previous_column (self : SoundGrid) : M unit :=
  if (prev_line_pos self >=? 0)%Z then
    let! slot := getitem (column_mixers self) (prev_line_pos self) in
    match slot with
    | Some (_, final_fader) => emit (EStop final_fader)
    | None => ret tt
    end ;;
    for_each (range 10)
      (fun y _ =>
         let! _ := getitem2 (current_instruments self) y (prev_line_pos self) in
         ret tt) tt
  else ret tt.

(** The body of the loop that collects [active_sources]. *)
Definition play_row {F : Files} (self : SoundGrid) (y : Z) (active_sources : list obj)
    : M (list obj) :=
  let! inst_index := getitem2 (current_instruments self) y (v_line_pos self) in
  if negb (inst_index =? -1)%Z then
    let! freq := getitem scale_frequencies y in
    let! name := getitem INSTRUMENT_NAMES inst_index in
    let! inst := create_with_settings self name freq in
    ret (active_sources ++ [fst inst])
  else ret active_sources.

(** "PLAY CURRENT COLUMN" *)
Definition play_current_column {F : Files} (self : SoundGrid) : M SoundGrid :=
  let! active_sources := for_each (range 10) (play_row self) [] in
  match active_sources with
  | _ :: _ =>
      let! mixed := new (Mix active_sources 2) in
      let! gain := truediv 0.5 (inject_Z (Z.of_nat (length active_sources))) in
      emit (ESetMul mixed gain) ;;
      let! compressed := new (Compress mixed (-6) 20 0.01 0.1) in
      let! final_fader := new (Fader 0.05 0.2 1.0) in
      emit (EPlay final_fader) ;;
      let! final_out := new (Mul compressed final_fader) in
      emit (EOut final_out) ;;
      let! mixers :=
        setitem (column_mixers self) (v_line_pos self) (Some (final_out, final_fader)) in
      ret (set_column_mixers mixers self)
  | [] =>
      let! mixers := setitem (column_mixers self) (v_line_pos self) None in
      ret (set_column_mixers mixers self)
  end.

Definition on_timer {F : Files} (fr : frame) (self : SoundGrid) : M SoundGrid :=
  if negb (playing self) then ret self
  else
    let self := set_prev_line_pos (v_line_pos self) self in
    let self := set_v_line_pos ((v_line_pos self + 1) mod 10)%Z self in
    let! cam :=
      process_frame (camera_mgr self) fr (hue_detection_enabled self)
        (target_hue self) (color_sensitivity self)
        (hue_volume self) (hue_reverb self) in
    let self := set_camera_mgr cam self in
    stop_previous_column self ;;
    play_current_column self.

Definition on_close (self : SoundGrid) : M SoundGrid :=
  let! cam := release (camera_mgr self) in
  let! cam := stop_hue_oscillator cam in
  ret (set_camera_mgr cam self).

(** ** Program runs: the events the window delivers to the handlers. *)

Inductive event : Type :=
  | InstrumentButtonDown (instrument_label : string)
  | InstrumentButtonUp (instrument_label : string)
  | Toggle (y x : Z)
  | PlayPause
  | ClearAll
  | VolumeChange (value : Z)
  | SpeedChange (value : Z)
  | SampleChoice (idx : Z)
  | ToggleFilter (value : bool)
  | FilterFreqChange (value : Z)
  | HueChange (value : Z)
  | SensitivityChange (value : Z)
  | HueVolumeChange (value : Z)
  | HueReverbChange (value : Z)
  | ToggleHueDetection (value : bool)
  | Timer (fr : frame)
  | Close.

Definition handle {F : Files} (ev : event) (self : SoundGrid) : M SoundGrid :=
  match ev with
  | InstrumentButtonDown l => on_instrument_button_down l self
  | InstrumentButtonUp l => on_instrument_button_up l self
  | Toggle y x => on_toggle y x self
  | PlayPause => on_play_pause self
  | ClearAll => on_clear_all self
  | VolumeChange v => on_volume_change v self
  | SpeedChange v => on_speed_change v self
  | SampleChoice i => on_sample_choice i self
  | ToggleFilter b => on_toggle_filter b self
  | FilterFreqChange v => on_filter_freq_change v self
  | HueChange v => on_hue_change v self
  | SensitivityChange v => on_sensitivity_change v self
  | HueVolumeChange v => on_hue_volume_change v self
  | HueReverbChange v => on_hue_reverb_change v self
  | ToggleHueDetection b => on_toggle_hue_detection b self
  | Timer fr => on_timer fr self
  | Close => on_close self
  end.

Definition run {F : Files} (evs : list event) (self : SoundGrid) : M SoundGrid :=
  for_each evs handle self.

(** The events the widgets can deliver: a grid button lies in the 10x10
    grid, a hold button carries an instrument name, a slider stays within
    its range, the sample choice within its list. *)
Definition valid_event (ev : event) : Prop :=
  match ev with
  | InstrumentButtonDown l | InstrumentButtonUp l => l ∈ INSTRUMENT_NAMES
  | Toggle y x => (0 <= y < 10)%Z ∧ (0 <= x < 10)%Z
  | VolumeChange v | HueVolumeChange v | HueReverbChange v => (0 <= v <= 10)%Z
  | SpeedChange v | SensitivityChange v => (1 <= v <= 10)%Z
  | SampleChoice i => (0 <= i < 8)%Z
  | FilterFreqChange v => (100 <= v <= 3000)%Z
  | HueChange v => (0 <= v <= 179)%Z
  | _ => True
  end.

(** ** Vocabulary of the statements *)

(** [grid[y][x]] for indices known to be natural numbers. *)
Definition cell {A} (g : list (list A)) (y x : nat) : option A :=
  g !! y ≫= (fun row => row !! x).

Definition grid_shape {A} (g : list (list A)) : Prop :=
  length g = 10%nat ∧ Forall (fun row => length row = 10%nat) g.

(** The number of cells of column [x] that are not off. *)
Definition active_in_column (g : list (list Z)) (x : nat) : nat :=
  length (filter (fun row => row !! x ≠ Some (-1)%Z) g).

(** The hue voice has its reverb whenever it has its oscillator. *)
Definition hue_inv (cam : CameraManager) : Prop :=
  is_Some (hue_oscillator cam) → is_Some (hue_reverb_effect cam).

(** The states the handlers keep the window in. *)
Record wf (self : SoundGrid) : Prop := mk_wf {
  wf_oscillators : grid_shape (oscillators self);
  wf_current : grid_shape (current_instruments self);
  wf_cells : Forall (Forall (fun c => (-1 <= c < 7)%Z)) (current_instruments self);
  wf_columns : length (column_mixers self) = 10%nat;
  wf_line : (0 <= v_line_pos self < 10)%Z;
  wf_prev : (-1 <= prev_line_pos self < 10)%Z;
  wf_loops : ∀ name, name ∈ INSTRUMENT_NAMES → is_Some (instrument_loops self !! name);
  wf_idle : playing self = false →
            column_mixers self = replicate 10 None ∧
            hue_oscillator (camera_mgr self) = None;
  wf_hue : hue_inv (camera_mgr self)
}.

(** Effects that only build a graph: an object is made or an envelope is
    started. *)
Definition is_build (e : effect) : Prop :=
  match e with
  | ENew _ _ | EPlay _ => True
  | _ => False
  end.

(** A recorded call of [create_instrument] asks for at least 220 Hz. *)
Definition call_ok (e : effect) : Prop :=
  match e with
  | ECreateInstrument _ freq => (220 <= freq)%Q
  | _ => True
  end.

(** A voice [[source, fader]] is audible after a log when its source was
    routed to the output, its fader was started, and neither has been
    stopped since. *)
Definition switch (o : obj) (on : bool) (e : effect) : bool :=
  match e with
  | EOut o' | EPlay o' => if Nat.eqb o o' then true else on
  | EStop o' => if Nat.eqb o o' then false else on
  | _ => on
  end.

Definition running (l : list effect) (o : obj) : bool := fold_left (switch o) l false.

Definition audible (l : list effect) (voice : obj * obj) : bool :=
  running l (fst voice) && running l (snd voice).

(** The value of a cell after one toggle, as [on_toggle] computes it. *)
Definition toggle_next (current : Z) : Z :=
  let n := Z.of_nat (length INSTRUMENT_NAMES) in
  let next_instrument :=
    if (current =? -1)%Z then 0%Z else ((current + 1) mod (n + 1))%Z in
  if (next_instrument =? n)%Z then (-1)%Z else next_instrument.

(** What stopping a slot sends: the fader first, then the signal. *)
Definition stop_effects (slot : option (obj * obj)) : list effect :=
  match slot with
  | Some (source, fader) => [EStop fader; EStop source]
  | None => []
  end.

(** What tearing down the hue voice sends. *)
Definition hue_stop_effects (cam : CameraManager) : list effect :=
  match hue_oscillator cam with
  | Some osc =>
      match hue_reverb_effect cam with
      | Some rev => [EStop rev; EStop osc]
      | None => [EStop osc]
      end
  | None => []
  end.

(** Effects that build or drive the hue voice; none of them is a call of
    the instrument factory or builds a mixer. *)
Definition is_hue_effect (e : effect) : Prop :=
  match e with
  | ENew _ (Sine _ _) | ENew _ (Chorus _ _ _ _) | ENew _ (Compress _ _ _ _ _)
  | ENew _ (Freeverb _ _ _) => True
  | EOut _ | EStop _ | ESetMul _ _ | ESetFreq _ _ | ESetSize _ _ | ESetBal _ _ => True
  | _ => False
  end.

(** Effects of building the voices of a column: calls of the factory and
    what they build. *)
Definition is_voice_effect (e : effect) : Prop :=
  match e with
  | ECreateInstrument _ freq => (220 <= freq)%Q
  | ENew _ _ | EPlay _ => True
  | _ => False
  end.

(** What a tick sends to stop the previous column: the fader only. *)
Definition fader_stop (slot : option (option (obj * obj))) : list effect :=
  match slot with
  | Some (Some (_, final_fader)) => [EStop final_fader]
  | _ => []
  end.

(** The chain a tick builds on the voices [srcs] of the current column. *)
Definition mix_effects (srcs : list obj) (mixed compressed final_fader final_out : obj)
    : list effect :=
  [ENew mixed (Mix srcs 2);
   ESetMul mixed (0.5 / inject_Z (Z.of_nat (length srcs)))%Q;
   ENew compressed (Compress mixed (-6) 20 0.01 0.1);
   ENew final_fader (Fader 0.05 0.2 1.0);
   EPlay final_fader;
   ENew final_out (Mul compressed final_fader);
   EOut final_out].

Definition is_mix (e : effect) : Prop :=
  match e with
  | ENew _ (Mix _ _) => True
  | _ => False
  end.

(** [does m R]: from every world, [m] returns (it does not raise), it only
    appends to the log, and the result and the appended effects satisfy [R]. *)
Definition does {A} (m : M A) (R : A → list effect → Prop) : Prop :=
  ∀ w, ∃ a w' evs, m w = Return a w' ∧ log w' = log w ++ evs ∧ R a evs.

(** ** A session used as concrete input

    Cell A2 (row 0, column 1) is toggled to a sine, the "sine" hold button
    is pressed and kept down, play is pressed, and the timer ticks once on a
    frame with one contour of area 27.  [session_self] and [session_world]
    are the window and the server after these events. *)
Definition session_events : list event :=
  [Toggle 0 1; InstrumentButtonDown "sine"; PlayPause; Timer (Some [27%Q])].

Definition session_self : SoundGrid := {|
  playing := true;
  volume := 0.5;
  hue_volume := 0.5;
  hue_reverb := 0.5;
  speed := 100;
  color_sensitivity := 5;
  target_hue := 50;
  hue_detection_enabled := true;
  filter_enabled := false;
  filter_frequency := 1000;
  selected_sample := "bass_synth.wav";
  camera_mgr := mkCameraManager (Some 6%nat) (Some 9%nat) 222.694 1;
  oscillators := <[0%nat := <[1%nat := Some (2, 0)%nat]> (replicate 10 None)]>
                   (replicate 10 (replicate 10 None));
  current_instruments := <[0%nat := <[1%nat := 0%Z]> (replicate 10 (-1)%Z)]>
                           (replicate 10 (replicate 10 (-1)%Z));
  instrument_loops := <["sine" := Some (5, 3)%nat]> (instrument_loops SoundGrid_init);
  column_mixers := <[1%nat := Some (16, 15)%nat]> (replicate 10 None);
  v_line_pos := 1;
  prev_line_pos := 0
|}.

Definition session_world : World := {|
  next_obj := 17;
  log :=
    [ECreateInstrument "sine" 220.0; ENew 0 (Fader 0.02 0.1 0.5);
     EPlay 0; ENew 1 (Sine 220.0 1); ENew 2 (Mul 1 0);
     ECreateInstrument "sine" 220; ENew 3 (Fader 0.02 0.1 0.5);
     EPlay 3; ENew 4 (Sine 220 1); ENew 5 (Mul 4 3);
     EOut 5; ETimerStart 100; ENew 6 (Sine 222.694 0.5);
     ENew 7 (Chorus 6 0.5 0.25 0.2);
     ENew 8 (Compress 7 (-10) 4.0 0.01 0.1);
     ENew 9 (Freeverb 8 0.5 0.5); EOut 9;
     ECreateInstrument "sine" 220.0; ENew 10 (Fader 0.02 0.1 0.5);
     EPlay 10; ENew 11 (Sine 220.0 1); ENew 12 (Mul 11 10);
     ENew 13 (Mix [12%nat] 2); ESetMul 13 0.5;
     ENew 14 (Compress 13 (-6) 20 0.01 0.1);
     ENew 15 (Fader 0.05 0.2 1.0); EPlay 15;
     ENew 16 (Mul 14 15); EOut 16]
|}.

(** Effects that only stop something. *)
Definition is_stop (e : effect) : Prop :=
  match e with
  | EStop _ | ETimerStop => True
  | _ => False
  end.

(** ** Vocabulary of the further properties *)

(** [process_frame] on consecutive frames, the settings staying as they are. *)
Definition process_frames (frs : list frame) (hue_detection_enabled : bool)
    (target_hue color_sensitivity : Z) (hue_volume hue_reverb : Q)
    (self : CameraManager) : M CameraManager :=
  for_each frs
    (fun fr self =>
       process_frame self fr hue_detection_enabled target_hue color_sensitivity
         hue_volume hue_reverb) self.

(** [update_hue_oscillator] called [k] times with the same arguments. *)
Definition update_hue_oscillator_times (k : nat) (target_freq volume reverb : Q)
    (self : CameraManager) : M CameraManager :=
  for_each (replicate k tt)
    (fun _ self => update_hue_oscillator self target_freq volume reverb) self.

(** The number of effects of a kind in a list. *)
Fixpoint count_effects (p : effect → bool) (l : list effect) : nat :=
  match l with
  | [] => 0
  | e :: l' => (if p e then 1 else 0) + count_effects p l'
  end.

Definition is_set_freq (e : effect) : bool :=
  match e with ESetFreq _ _ => true | _ => false end.

Definition is_set_mul (e : effect) : bool :=
  match e with ESetMul _ _ => true | _ => false end.

Definition is_call (e : effect) : bool :=
  match e with ECreateInstrument _ _ => true | _ => false end.

(** A frame in which the hue mask has at least one contour. *)
Definition has_contour (fr : frame) : Prop :=
  ∃ a contours, fr = Some (a :: contours).

(** The camera manager after a teardown of the hue voice. *)
Definition torn_down (cam : CameraManager) : CameraManager :=
  match hue_oscillator cam with
  | Some _ => mkCameraManager None None (current_freq cam) (frame_counter cam)
  | None => cam
  end.

(** What a change of volume sends to a slot: [setMul] on its fader. *)
Definition set_mul_effects (v : Q) (slot : option (obj * obj)) : list effect :=
  match slot with
  | Some (_, fader) => [ESetMul fader v]
  | None => []
  end.

(** The slots of the hold loops, in the order of [INSTRUMENT_NAMES]. *)
Definition hold_slots (self : SoundGrid) : list (option (obj * obj)) :=
  map (fun name => default None (instrument_loops self !! name)) INSTRUMENT_NAMES.


(** The calls of [create_instrument] recorded in a list of effects, in
    order, with their name and frequency. *)
Definition calls (evs : list effect) : list (string * Q) :=
  omap (fun e => match e with
                 | ECreateInstrument name freq => Some (name, freq)
                 | _ => None
                 end) evs.



(** A cell holds a graph exactly when it is on. *)
Definition grid_inv (self : SoundGrid) : Prop :=
  ∀ y x, (y < 10)%nat → (x < 10)%nat →
    (cell (oscillators self) y x = Some None ↔
     cell (current_instruments self) y x = Some (-1)%Z).

(** [wx.Colour(r, g, b)] *)
Definition colour : Type := Z * Z * Z.

(** [get_instrument_color]: the colour table indexed as a Python list. *)
Definition get_instrument_color (instrument_index : Z) : M colour :=
  let colors : list colour :=
    [(0, 200, 0); (0, 0, 200); (200, 200, 0); (200, 0, 0);
     (128, 0, 128); (255, 0, 255); (255, 165, 0)]%Z in
  getitem colors instrument_index.

(** Frequencies of magnitude up to 10^15.  The source computes the ten
    distances [abs(x - freq)] in double precision; in this range they are
    ordered as the exact distances are, which is what the rationals of this
    development compute.  Far above it (from about 3e17) the ten distances
    round to the same double and [min] returns the first entry of the
    table. *)
Definition moderate (x : Q) : Prop := (Qabs x <= 1000000000000000)%Q.

(** The sample the window has selected can be read. *)
Definition sample_ok {F : Files} (self : SoundGrid) : Prop :=
  readable ("samples/" +:+ selected_sample self) = true.

(** Two file systems used as concrete inputs: one that holds the sample
    selected at start-up and nothing else, and an empty one. *)
Definition only_bass_synth : Files :=
  fun path => String.eqb path "samples/bass_synth.wav".

Definition no_files : Files := fun _ => false.

(** The file system that holds the eight samples of [samples_list] under
    [samples/] and nothing else. *)
Definition shipped_samples : Files :=
  fun path => existsb (String.eqb path) (map (String.append "samples/") samples_list).

(** The eight samples the window offers are there. *)
Definition samples_present {F : Files} : Prop :=
  Forall (fun sample => readable ("samples/" +:+ sample) = true) samples_list.

(** * Properties *)

(** ** Order facts on rationals, in boolean form *)

Lemma Qltb_lt (a b : Q) : Qltb a b = true ↔ (a < b)%Q.
Proof.
  unfold Qltb. rewrite negb_true_iff, <- not_true_iff_false, Qle_bool_iff.
  split; [apply Qnot_le_lt | apply Qlt_not_le].
Qed.

Lemma Qltb_ge (a b : Q) : Qltb a b = false ↔ (b <= a)%Q.
Proof. unfold Qltb. rewrite negb_false_iff. apply Qle_bool_iff. Qed.

Lemma Qltb_trans (a b c : Q) : Qltb a b = true → Qltb b c = true → Qltb a c = true.
Proof. rewrite !Qltb_lt. apply Qlt_trans. Qed.

Lemma Qltb_trans_lt_ge (a b c : Q) :
  Qltb a b = true → Qltb c b = false → Qltb a c = true.
Proof. rewrite !Qltb_lt, Qltb_ge. apply Qlt_le_trans. Qed.

(** ** [min] with a key returns the first element of minimal key *)

Section PyMinFacts.
Context {A K : Type} (key : A → K) (ltb : K → K → bool).
Hypothesis ltb_irrefl : ∀ a, ltb a a = false.
Hypothesis ltb_trans : ∀ a b c, ltb a b = true → ltb b c = true → ltb a c = true.
Hypothesis ltb_trans_lt_ge :
  ∀ a b c, ltb a b = true → ltb c b = false → ltb a c = true.

(** The list splits around the result: every element before it has a
    strictly larger key, no element after it has a smaller one. *)
Lemma min_from_split (best : A) (l : list A) :
  ∃ pre post,
    best :: l = pre ++ min_from key ltb best l :: post ∧
    Forall (fun x => ltb (key (min_from key ltb best l)) (key x) = true) pre ∧
    Forall (fun x => ltb (key x) (key (min_from key ltb best l)) = false) post.
Proof using ltb_trans ltb_trans_lt_ge.
  revert best. induction l as [|x l IH]; intros best; simpl.
  - exists [], []. auto.
  - destruct (ltb (key x) (key best)) eqn:Hx.
    + destruct (IH x) as (pre & post & Heq & Hpre & Hpost).
      remember (min_from key ltb x l) as r eqn:Hr. clear Hr IH.
      exists (best :: pre), post. split; [by rewrite Heq|]. split; [|done].
      constructor; [|done].
      destruct pre as [|p pre]; simpl in Heq; injection Heq as Hp Hl.
      * by rewrite <- Hp.
      * subst p. inversion Hpre; subst. eauto.
    + destruct (IH best) as (pre & post & Heq & Hpre & Hpost).
      remember (min_from key ltb best l) as r eqn:Hr. clear Hr IH.
      destruct pre as [|p pre]; simpl in Heq; injection Heq as Hp Hl.
      * exists [], (x :: post). subst. split; [done|]. split; [done|].
        by constructor.
      * subst p l. exists (best :: x :: pre), post.
        split; [done|]. split; [|done].
        inversion Hpre; subst. constructor; [done|]. constructor; [|done]. eauto.
Qed.

Lemma py_min_position (l : list A) (r : A) :
  py_min key ltb l = Some r →
  ∃ i, l !! i = Some r ∧
    (∀ j t, l !! j = Some t → ltb (key t) (key r) = false) ∧
    (∀ j t, (j < i)%nat → l !! j = Some t → ltb (key r) (key t) = true).
Proof using ltb_irrefl ltb_trans ltb_trans_lt_ge.
  destruct l as [|best l]; [done|]. intros [= <-].
  destruct (min_from_split best l) as (pre & post & Heq & Hpre & Hpost).
  set (r := min_from key ltb best l) in *. rewrite Heq.
  rewrite Forall_forall in Hpre, Hpost.
  exists (length pre). split; [by rewrite list_lookup_middle|]. split.
  - intros j t Hj. apply list_elem_of_lookup_2 in Hj.
    rewrite elem_of_app, elem_of_cons in Hj.
    destruct Hj as [Hj|[->|Hj]]; [|done|by apply Hpost].
    apply Hpre in Hj. destruct (ltb (key t) (key r)) eqn:E; [|done].
    pose proof (ltb_trans _ _ _ Hj E) as Hrr. by rewrite ltb_irrefl in Hrr.
  - intros j t Hlt Hj. rewrite lookup_app_l in Hj by done.
    apply Hpre. by eapply list_elem_of_lookup_2.
Qed.
End PyMinFacts.

(** ** The pitch quantizer *)

Lemma Qltb_irrefl (a : Q) : Qltb a a = false.
Proof. apply Qltb_ge, Qle_refl. Qed.

Lemma quantize_to_scale_py_min (freq : Q) :
  py_min (fun x => Qabs (x - freq)) Qltb SCALE_FREQUENCIES
  = Some (quantize_to_scale freq).
Proof. reflexivity. Qed.

Lemma quantize_to_scale_elem (freq : Q) : quantize_to_scale freq ∈ SCALE_FREQUENCIES.
Proof.
  destruct (py_min_position _ Qltb Qltb_irrefl Qltb_trans Qltb_trans_lt_ge
              _ _ (quantize_to_scale_py_min freq)) as (i & Hi & _).
  by eapply list_elem_of_lookup_2.
Qed.

Lemma SCALE_FREQUENCIES_sorted : StronglySorted Qlt SCALE_FREQUENCIES.
Proof. unfold SCALE_FREQUENCIES. repeat constructor. Qed.

(** X11: for an input of moderate size, [quantize_to_scale] returns the
    element of its own table [SCALE_FREQUENCIES] (ten frequencies in
    ascending order) whose distance to the input is least, and among several
    such the first in table order; every output is a member of that table. *)
Theorem quantize_to_scale_nearest (freq : Q) :
  moderate freq →
  length SCALE_FREQUENCIES = 10%nat ∧
  StronglySorted Qlt SCALE_FREQUENCIES ∧
  ∃ i : nat,
    SCALE_FREQUENCIES !! i = Some (quantize_to_scale freq) ∧
    (∀ (j : nat) (t : Q), SCALE_FREQUENCIES !! j = Some t →
       (Qabs (quantize_to_scale freq - freq) <= Qabs (t - freq))%Q) ∧
    (∀ (j : nat) (t : Q), (j < i)%nat → SCALE_FREQUENCIES !! j = Some t →
       (Qabs (quantize_to_scale freq - freq) < Qabs (t - freq))%Q).
Proof.
  intros _. split; [reflexivity|]. split; [apply SCALE_FREQUENCIES_sorted|].
  destruct (py_min_position _ Qltb Qltb_irrefl Qltb_trans Qltb_trans_lt_ge
              _ _ (quantize_to_scale_py_min freq)) as (i & Hi & Hmin & Hfirst).
  exists i. split; [done|]. split.
  - intros j t Hj. apply Qltb_ge. eauto.
  - intros j t Hlt Hj. apply Qltb_lt. eauto.
Qed.

Lemma quantize_to_scale_nearest_witness :
  length SCALE_FREQUENCIES = 10%nat ∧
  StronglySorted Qlt SCALE_FREQUENCIES ∧
  ∃ i : nat,
    SCALE_FREQUENCIES !! i = Some (quantize_to_scale 416) ∧
    (∀ (j : nat) (t : Q), SCALE_FREQUENCIES !! j = Some t →
       (Qabs (quantize_to_scale 416 - 416) <= Qabs (t - 416))%Q) ∧
    (∀ (j : nat) (t : Q), (j < i)%nat → SCALE_FREQUENCIES !! j = Some t →
       (Qabs (quantize_to_scale 416 - 416) < Qabs (t - 416))%Q).
Proof. apply (quantize_to_scale_nearest 416). by vm_compute. Defined.

(** C2, the code at the failing input: the quantizer's table is not the
    table of the rows.  Its comment calls it an A minor pentatonic scale, as
    the table of the rows is, but it holds 246.94 and 493.88 (B3 and B4),
    which are not notes of that scale, in place of 659.25 and 784.0.  A
    contour of area 27 gives the raw frequency 247, which is quantized to
    246.94; no row has that frequency, and the nearest frequency of the rows
    is 261.63. *)
Lemma quantize_to_scale_outside_row_scale :
  (220 + Qfmod 27 300 == 247)%Q ∧
  quantize_to_scale 247 = 246.94%Q ∧
  py_min (fun x : Q => Qabs (x - 247)) Qltb scale_frequencies = Some 261.63%Q ∧
  ¬ Exists (Qeq (quantize_to_scale 247)) scale_frequencies.
Proof.
  split; [reflexivity|]. split; [reflexivity|]. split; [reflexivity|].
  assert (quantize_to_scale 247 = 246.94%Q) as -> by reflexivity.
  rewrite Exists_exists. intros (t & Hin & Heq). unfold scale_frequencies in Hin.
  repeat (apply elem_of_cons in Hin as [-> | Hin]; [by vm_compute in Heq|]).
  by apply elem_of_nil in Hin.
Qed.

(** C9: quantizing twice is the same as quantizing once. *)
Theorem quantize_to_scale_idempotent (x : Q) :
  quantize_to_scale (quantize_to_scale x) = quantize_to_scale x.
Proof.
  pose proof (quantize_to_scale_elem x) as Hin.
  generalize dependent (quantize_to_scale x). intros t Hin.
  unfold SCALE_FREQUENCIES in Hin.
  repeat (apply elem_of_cons in Hin as [-> | Hin]; [reflexivity|]).
  by apply elem_of_nil in Hin.
Qed.

(** ** The tick interval *)

(** C1 (as amended): the speed slider at level [L] in [1,10] sets the tick
    interval to [50 + (10 - L) * 20] ms, which lies between 50 and 230 ms: 50
    at level 10, 230 at level 1 and 150 at level 5.  A running timer is
    restarted with the new interval, and nothing else is done. *)
Theorem on_speed_change_interval (value : Z) (self : SoundGrid) (w : World) :
  (1 <= value <= 10)%Z →
  ∃ self' w',
    on_speed_change value self w = Return self' w' ∧
    speed self' = (50 + (10 - value) * 20)%Z ∧
    (50 <= speed self' <= 230)%Z ∧
    (value = 10%Z → speed self' = 50%Z) ∧
    (value = 1%Z → speed self' = 230%Z) ∧
    (value = 5%Z → speed self' = 150%Z) ∧
    log w' = log w ++ (if playing self then [ETimerStart (speed self')] else []).
Proof.
  intros Hv. unfold on_speed_change, bind, when.
  destruct (playing self) eqn:Hp; simpl; rewrite Hp; simpl;
    eexists _, _; (split; [reflexivity|]); simpl;
    repeat split; try lia; try (intros ->; reflexivity);
    by rewrite ?app_nil_r.
Qed.

Lemma on_speed_change_interval_witness :
  ∃ self' w',
    on_speed_change 5 SoundGrid_init World_init = Return self' w' ∧
    speed self' = (50 + (10 - 5) * 20)%Z ∧
    (50 <= speed self' <= 230)%Z ∧
    (5%Z = 10%Z → speed self' = 50%Z) ∧
    (5%Z = 1%Z → speed self' = 230%Z) ∧
    (5%Z = 5%Z → speed self' = 150%Z) ∧
    log w' = log World_init ++
             (if playing SoundGrid_init then [ETimerStart (speed self')] else []).
Proof. apply (on_speed_change_interval 5 SoundGrid_init World_init). lia. Defined.

(** C1, the claim as stated fails: at level 10 the interval is 50 ms, not
    70 ms, and at level 1 it is 230 ms, not 250 ms. *)
Lemma on_speed_change_level_10_is_50 :
  ∃ s10 w10 s1 w1,
    on_speed_change 10 SoundGrid_init World_init = Return s10 w10 ∧
    on_speed_change 1 SoundGrid_init World_init = Return s1 w1 ∧
    speed s10 = 50%Z ∧ speed s10 ≠ 70%Z ∧
    speed s1 = 230%Z ∧ speed s1 ≠ 250%Z.
Proof. eexists _, _, _, _. repeat split; done. Qed.

(** ** The hue voice *)

(** C3 (as amended): a detection that arrives while the hue voice is
    inactive makes it active; the smoothing step is applied first, so
    [current_freq] becomes [current_freq + (target_freq - current_freq) * 0.1],
    and the oscillator is built at that smoothed frequency, followed by its
    chorus, compressor and reverb, the reverb being routed to the output.
    This is what [process_frame] does on a frame with a contour, the target
    being the quantized frequency of the largest contour. *)
Theorem update_hue_oscillator_start
    (self : CameraManager) (target_freq volume reverb : Q) (w : World) :
  hue_oscillator self = None →
  ∃ self' w' osc rev,
    update_hue_oscillator self target_freq volume reverb w = Return self' w' ∧
    hue_oscillator self' = Some osc ∧
    hue_reverb_effect self' = Some rev ∧
    current_freq self'
      = (current_freq self + (target_freq - current_freq self) * 0.1)%Q ∧
    log w' = log w ++
      [ENew osc (Sine (current_freq self') volume);
       ENew (S osc) (Chorus osc 0.5 0.25 0.2);
       ENew (S (S osc)) (Compress (S osc) (-10) 4.0 0.01 0.1);
       ENew rev (Freeverb (S (S osc)) reverb reverb);
       EOut rev] ∧
    ∀ (contours : list Q) (area : Q) (target_hue color_sensitivity : Z),
      py_max (fun a : Q => a) Qltb contours = Some area →
      target_freq = quantize_to_scale (220 + Qfmod area 300) →
      ∃ self1 w1,
        process_frame self (Some contours) true target_hue color_sensitivity
          volume reverb w = Return self1 w1 ∧
        hue_oscillator self1 = Some osc ∧
        current_freq self1 = current_freq self' ∧
        log w1 = log w'.
Proof.
  intros Hnone.
  assert (∀ c : CameraManager, hue_oscillator c = None →
          ∃ c' w' osc rev,
            update_hue_oscillator c target_freq volume reverb w = Return c' w' ∧
            hue_oscillator c' = Some osc ∧ hue_reverb_effect c' = Some rev ∧
            osc = next_obj w ∧
            current_freq c'
              = (current_freq c + (target_freq - current_freq c) * 0.1)%Q ∧
            log w' = log w ++
              [ENew osc (Sine (current_freq c') volume);
               ENew (S osc) (Chorus osc 0.5 0.25 0.2);
               ENew (S (S osc)) (Compress (S osc) (-10) 4.0 0.01 0.1);
               ENew rev (Freeverb (S (S osc)) reverb reverb);
               EOut rev]) as Hstart.
  { intros c Hc. unfold update_hue_oscillator. rewrite Hc.
    eexists _, _, _, _. split; [reflexivity|]. simpl.
    repeat split. by rewrite <- !app_assoc. }
  destruct (Hstart self Hnone) as (self' & w' & osc & rev & Hrun & Ho & Hr & Hosc & Hcf & Hlog).
  exists self', w', osc, rev. repeat (split; [done|]).
  intros contours area target_hue color_sensitivity Hmax ->.
  unfold process_frame. simpl negb. cbv iota. rewrite Hmax.
  destruct (Hstart (mkCameraManager (hue_oscillator self) (hue_reverb_effect self)
                      (current_freq self) ((frame_counter self + 1) mod 5)) Hnone)
    as (self1 & w1 & osc1 & rev1 & Hrun1 & Ho1 & Hr1 & Hosc1 & Hcf1 & Hlog1).
  exists self1, w1. split; [exact Hrun1|]. subst osc osc1.
  split; [done|]. split; [by rewrite Hcf1, Hcf|].
  rewrite Hlog1, Hlog, Hcf1, Hcf. simpl.
  unfold update_hue_oscillator in Hrun, Hrun1. simpl in Hrun1.
  rewrite Hnone in Hrun, Hrun1. simpl in Hrun, Hrun1.
  injection Hrun as <- <-. injection Hrun1 as <- <-. simpl in *. congruence.
Qed.

Lemma update_hue_oscillator_start_witness :
  ∃ self' w' osc rev,
    update_hue_oscillator CameraManager_init 440 0.5 0.5 World_init = Return self' w' ∧
    hue_oscillator self' = Some osc ∧
    hue_reverb_effect self' = Some rev ∧
    current_freq self'
      = (current_freq CameraManager_init + (440 - current_freq CameraManager_init) * 0.1)%Q ∧
    log w' = log World_init ++
      [ENew osc (Sine (current_freq self') 0.5);
       ENew (S osc) (Chorus osc 0.5 0.25 0.2);
       ENew (S (S osc)) (Compress (S osc) (-10) 4.0 0.01 0.1);
       ENew rev (Freeverb (S (S osc)) 0.5 0.5);
       EOut rev] ∧
    ∀ (contours : list Q) (area : Q) (target_hue color_sensitivity : Z),
      py_max (fun a : Q => a) Qltb contours = Some area →
      440%Q = quantize_to_scale (220 + Qfmod area 300) →
      ∃ self1 w1,
        process_frame CameraManager_init (Some contours) true target_hue color_sensitivity
          0.5 0.5 World_init = Return self1 w1 ∧
        hue_oscillator self1 = Some osc ∧
        current_freq self1 = current_freq self' ∧
        log w1 = log w'.
Proof.
  apply (update_hue_oscillator_start CameraManager_init 440 0.5 0.5 World_init).
  reflexivity.
Defined.

(** C3, the claim as stated fails: from the initial state ([current_freq]
    220, inactive) a frame whose largest contour has area 220 is quantized to
    the target 440 Hz; it leaves [current_freq] at 242 Hz, and the oscillator
    is built at 242 Hz, not at the target. *)
Lemma update_hue_oscillator_start_not_target :
  ∃ self' w' evs,
    quantize_to_scale (220 + Qfmod 220 300) = 440.0%Q ∧
    process_frame CameraManager_init (Some [220%Q]) true 50 5 0.5 0.5 World_init
      = Return self' w' ∧
    update_hue_oscillator CameraManager_init 440.0 0.5 0.5 World_init
      = Return (mkCameraManager (hue_oscillator self') (hue_reverb_effect self')
                  (current_freq self') 0) w' ∧
    hue_oscillator self' = Some 0%nat ∧
    (current_freq self' == 242)%Q ∧
    ¬ (current_freq self' == 440)%Q ∧
    log w' = ENew 0 (Sine (current_freq self') 0.5) :: evs.
Proof.
  eexists _, _, _. split; [vm_compute; reflexivity|].
  split; [vm_compute; reflexivity|]. split; [vm_compute; reflexivity|].
  split; [reflexivity|]. split; [reflexivity|]. split; [|reflexivity].
  intros H. vm_compute in H. discriminate.
Qed.

Lemma stop_hue_oscillator_inactive (self : CameraManager) (w : World) :
  hue_oscillator self = None → stop_hue_oscillator self w = Return self w.
Proof. intros H. unfold stop_hue_oscillator. by rewrite H. Qed.

Lemma stop_hue_oscillator_result (self : CameraManager) (w : World) :
  ∃ self' w',
    stop_hue_oscillator self w = Return self' w' ∧ hue_oscillator self' = None ∧
    (hue_reverb_effect self = None → hue_reverb_effect self' = None).
Proof.
  unfold stop_hue_oscillator.
  destruct (hue_oscillator self) eqn:Ho; [|by eexists _, _].
  destruct (hue_reverb_effect self); by eexists _, _.
Qed.

(** C8: when the hue voice is active and the frame brings no detection (no
    contour in the hue band) or hue detection is disabled, [process_frame]
    issues exactly the two commands reverb-stop, oscillator-stop, in that
    order, and leaves the voice inactive; a further teardown is then a no-op,
    and from any state a second teardown changes nothing after the first. *)
Theorem hue_teardown_once
    (self : CameraManager) (osc rev : obj) (fr : frame) (enabled : bool)
    (target_hue color_sensitivity : Z) (hue_volume hue_reverb : Q) (w : World) :
  hue_oscillator self = Some osc →
  hue_reverb_effect self = Some rev →
  enabled = false ∨ fr = Some [] →
  ∃ self' w',
    process_frame self fr enabled target_hue color_sensitivity
      hue_volume hue_reverb w = Return self' w' ∧
    log w' = log w ++ [EStop rev; EStop osc] ∧
    next_obj w' = next_obj w ∧
    hue_oscillator self' = None ∧
    hue_reverb_effect self' = None ∧
    stop_hue_oscillator self' w' = Return self' w' ∧
    ∀ (c : CameraManager) (w0 : World),
      (let! c1 := stop_hue_oscillator c in stop_hue_oscillator c1) w0
      = stop_hue_oscillator c w0.
Proof.
  intros Ho Hr Hlost.
  assert (∀ (c : CameraManager) (w0 : World),
      (let! c1 := stop_hue_oscillator c in stop_hue_oscillator c1) w0
      = stop_hue_oscillator c w0) as Hidem.
  { intros c w0. unfold bind.
    destruct (stop_hue_oscillator_result c w0) as (c' & w0' & -> & Hnone & _).
    by apply stop_hue_oscillator_inactive. }
  unfold process_frame.
  destruct Hlost as [-> | ->]; [|destruct enabled]; simpl;
    unfold stop_hue_oscillator; simpl; rewrite Ho, Hr; simpl;
    eexists _, _; (split; [reflexivity|]); simpl;
    rewrite <- app_assoc; done.
Qed.

Lemma hue_teardown_once_witness :
  ∃ self' w',
    process_frame (mkCameraManager (Some 0%nat) (Some 3%nat) 242 1) (Some []) true
      50 5 0.5 0.5 (mkWorld 4 []) = Return self' w' ∧
    log w' = [] ++ [EStop 3%nat; EStop 0%nat] ∧
    next_obj w' = 4%nat ∧
    hue_oscillator self' = None ∧
    hue_reverb_effect self' = None ∧
    stop_hue_oscillator self' w' = Return self' w' ∧
    ∀ (c : CameraManager) (w0 : World),
      (let! c1 := stop_hue_oscillator c in stop_hue_oscillator c1) w0
      = stop_hue_oscillator c w0.
Proof.
  apply (hue_teardown_once (mkCameraManager (Some 0%nat) (Some 3%nat) 242 1)
           0%nat 3%nat (Some []) true 50 5 0.5 0.5 (mkWorld 4 []));
    [reflexivity | reflexivity | right; reflexivity].
Defined.

(** ** Reasoning about computations in [M] *)

Section DoesRules.
Context {A B : Type}.

Lemma does_ret (a : A) (R : A → list effect → Prop) : R a [] → does (ret a) R.
Proof. intros HR w. exists a, w, []. by rewrite app_nil_r. Qed.

Lemma does_bind (m : M A) (k : A → M B) (R1 : A → list effect → Prop)
    (R : B → list effect → Prop) :
  does m R1 →
  (∀ a evs1, R1 a evs1 → does (k a) (fun b evs2 => R b (evs1 ++ evs2))) →
  does (bind m k) R.
Proof.
  intros Hm Hk w. destruct (Hm w) as (a & w1 & evs1 & Em & El & HR1).
  destruct (Hk a evs1 HR1 w1) as (b & w2 & evs2 & Ek & El2 & HR).
  exists b, w2, (evs1 ++ evs2). unfold bind. rewrite Em.
  split; [done|]. split; [|done]. by rewrite El2, El, app_assoc.
Qed.

Lemma does_weaken (m : M A) (R R' : A → list effect → Prop) :
  does m R → (∀ a evs, R a evs → R' a evs) → does m R'.
Proof.
  intros Hm Himp w. destruct (Hm w) as (a & w1 & evs & ? & ? & ?).
  exists a, w1, evs. auto.
Qed.
End DoesRules.

Lemma does_emit (e : effect) (R : unit → list effect → Prop) :
  R tt [e] → does (emit e) R.
Proof. intros HR w. by eexists tt, _, [e]. Qed.

Lemma does_new (d : pyo) (R : obj → list effect → Prop) :
  (∀ o, R o [ENew o d]) → does (new d) R.
Proof. intros HR w. by eexists _, _, [ENew (next_obj w) d]. Qed.

Lemma does_emit_then {B} (e : effect) (k : unit → M B)
    (R : B → list effect → Prop) :
  does (k tt) (fun b evs => R b (e :: evs)) → does (bind (emit e) k) R.
Proof.
  intros Hk. eapply does_bind with (R1 := fun _ evs => evs = [e]).
  - by apply does_emit.
  - by intros [] ? ->.
Qed.

Lemma does_new_then {B} (d : pyo) (k : obj → M B) (R : B → list effect → Prop) :
  (∀ o, does (k o) (fun b evs => R b (ENew o d :: evs))) → does (bind (new d) k) R.
Proof.
  intros Hk. eapply does_bind with (R1 := fun o evs => evs = [ENew o d]).
  - by apply does_new.
  - intros o ? ->. apply Hk.
Qed.

Lemma does_when (b : bool) (m : M unit) (R : unit → list effect → Prop) :
  (b = true → does m R) → (b = false → R tt []) → does (when b m) R.
Proof. destruct b; simpl; intros Ht Hf; [auto | apply does_ret; auto]. Qed.

(** The loop rule: [I i s evs] holds before the [i]-th iteration, [evs]
    being what the loop has emitted so far. *)
Lemma does_for_each_from {A St} (body : A → St → M St)
    (I : nat → St → list effect → Prop) (l : list A) :
  ∀ (k : nat) (s : St) (evs0 : list effect),
    I k s evs0 →
    (∀ i a s evs, l !! i = Some a → I (k + i)%nat s evs →
       does (body a s) (fun s' evs' => I (S (k + i)) s' (evs ++ evs'))) →
    does (for_each l body s) (fun s' evs => I (k + length l)%nat s' (evs0 ++ evs)).
Proof.
  induction l as [|a l IH]; intros k s evs0 H0 Hbody; simpl.
  - apply does_ret. by rewrite Nat.add_0_r, app_nil_r.
  - eapply does_bind.
    + apply (Hbody 0%nat a s evs0); [done|]. by rewrite Nat.add_0_r.
    + intros s1 evs1 H1. simpl in H1. rewrite Nat.add_0_r in H1.
      eapply does_weaken.
      * apply (IH (S k) s1 (evs0 ++ evs1) H1).
        intros i a' s' evs' Hi HI. replace (S k + i)%nat with (k + S i)%nat in * by lia.
        apply (Hbody (S i)); done.
      * intros s' evs' HI. simpl in HI.
        replace (k + S (length l))%nat with (S k + length l)%nat by lia.
        by rewrite app_assoc.
Qed.

Lemma does_for_each {A St} (body : A → St → M St)
    (I : nat → St → list effect → Prop) (l : list A) (s : St) :
  I 0%nat s [] →
  (∀ i a s evs, l !! i = Some a → I i s evs →
     does (body a s) (fun s' evs' => I (S i) s' (evs ++ evs'))) →
  does (for_each l body s) (fun s' evs => I (length l) s' evs).
Proof.
  intros H0 Hbody.
  apply (does_for_each_from body I l 0%nat s [] H0). intros. by apply Hbody.
Qed.

(** ** Indexing within range *)

Lemma py_norm_in_range {A} (l : list A) (i : nat) :
  (i < length l)%nat → py_norm l (Z.of_nat i) = Some i.
Proof.
  intros Hi. unfold py_norm.
  replace ((0 <=? Z.of_nat i)%Z && (Z.of_nat i <? Z.of_nat (length l))%Z) with true.
  - by rewrite Nat2Z.id.
  - symmetry. apply andb_true_iff. split; [apply Z.leb_le | apply Z.ltb_lt]; lia.
Qed.

Lemma getitem_in_range {A} (l : list A) (i : nat) (a : A) (w : World) :
  l !! i = Some a → getitem l (Z.of_nat i) w = Return a w.
Proof.
  intros Hi. unfold getitem.
  rewrite py_norm_in_range by (by eapply lookup_lt_Some). simpl. by rewrite Hi.
Qed.

Lemma setitem_in_range {A} (l : list A) (i : nat) (v : A) (w : World) :
  (i < length l)%nat → setitem l (Z.of_nat i) v w = Return (<[i := v]> l) w.
Proof. intros Hi. unfold setitem. by rewrite py_norm_in_range. Qed.

Lemma getitem2_in_range {A} (g : list (list A)) (y x : nat) (row : list A) (a : A)
    (w : World) :
  g !! y = Some row → row !! x = Some a →
  getitem2 g (Z.of_nat y) (Z.of_nat x) w = Return a w.
Proof.
  intros Hy Hx. unfold getitem2, bind.
  by rewrite (getitem_in_range _ _ _ _ Hy), (getitem_in_range _ _ _ _ Hx).
Qed.

Lemma setitem2_in_range {A} (g : list (list A)) (y x : nat) (row : list A) (v : A)
    (w : World) :
  g !! y = Some row → (x < length row)%nat →
  setitem2 g (Z.of_nat y) (Z.of_nat x) v w = Return (<[y := <[x := v]> row]> g) w.
Proof.
  intros Hy Hx. unfold setitem2, bind.
  rewrite (getitem_in_range _ _ _ _ Hy), setitem_in_range by done.
  rewrite setitem_in_range; [done|]. by eapply lookup_lt_Some.
Qed.

Lemma range_lookup (n i : nat) (a : Z) : range n !! i = Some a → a = Z.of_nat i ∧ (i < n)%nat.
Proof.
  unfold range. rewrite list_lookup_fmap. intros H.
  destruct (seq 0 n !! i) as [j|] eqn:E; [|done]. simpl in H. injection H as <-.
  apply lookup_seq in E as [-> ?]. done.
Qed.

(** ** The instrument factory *)

Ltac run_straight :=
  intros w; eexists _, _, _;
  split; [reflexivity|];
  split; [simpl; rewrite <- ?app_assoc;
          first [reflexivity | symmetry; apply app_nil_r]|].

Lemma drumkit_case_high (freq : Q) : (200 <= freq)%Q → drumkit_case freq = HiHat.
Proof.
  intros H. unfold drumkit_case.
  assert (Qltb freq 200 = false) as -> by by apply Qltb_ge.
  assert (Qltb freq 100 = false) as ->; [|done].
  apply Qltb_ge. eapply Qle_trans; [|exact H]. done.
Qed.

Lemma does_build_straight {A} (m : M A) :
  (∀ w, ∃ a w' evs, m w = Return a w' ∧ log w' = log w ++ evs ∧ Forall is_build evs) →
  does m (fun _ evs => Forall is_build evs).
Proof. intros H w. destruct (H w) as (a & w' & evs & ? & ? & ?). by exists a, w', evs. Qed.

Ltac build_straight :=
  apply does_build_straight; run_straight; repeat constructor.

(** Every call records itself first, and then only builds. *)
Lemma create_instrument_does {F : Files} (instrument : string) (freq volume : Q)
    (filter_enabled : bool) (filter_frequency : Q) (selected_sample : string) :
  (instrument = "samples" → readable ("samples/" +:+ selected_sample) = true) →
  does (create_instrument instrument freq volume filter_enabled filter_frequency
          selected_sample)
    (fun _ evs => ∃ evs', evs = ECreateInstrument instrument freq :: evs' ∧
                          Forall is_build evs').
Proof.
  intros Hok. unfold create_instrument.
  eapply does_bind with (R1 := fun _ evs => evs = [ECreateInstrument instrument freq]);
    [by apply does_emit|]. intros ? ? ->.
  eapply does_weaken with (R := fun _ evs => Forall is_build evs).
  2:{ intros ? evs H. by exists evs. }
  eapply does_bind; [build_straight|]. intros fader evs1 H1.
  eapply does_bind; [build_straight|]. intros ? evs2 H2.
  eapply does_bind with (R1 := fun _ evs => Forall is_build evs).
  { destruct (String.eqb_spec instrument "samples") as [-> | _].
    { cbn [String.eqb Ascii.eqb Bool.eqb]. rewrite Hok by done. build_straight. }
    repeat (match goal with
            | |- context [String.eqb ?a ?b] =>
                destruct (String.eqb a b); [build_straight|]
            end).
    destruct (String.eqb instrument "drumkit"); [|build_straight].
    destruct (drumkit_case freq); build_straight. }
  intros osc evs3 H3.
  eapply does_bind; [build_straight|]. intros source evs4 H4.
  eapply does_bind with (R1 := fun _ evs => Forall is_build evs).
  { destruct filter_enabled; [build_straight|]. by apply does_ret. }
  intros source' evs5 H5. apply does_ret.
  rewrite app_nil_r. repeat (apply Forall_app; split); done.
Qed.

Lemma create_with_settings_does {F : Files} (self : SoundGrid) (instrument : string)
    (freq : Q) :
  sample_ok self →
  does (create_with_settings self instrument freq)
    (fun _ evs => ∃ evs', evs = ECreateInstrument instrument freq :: evs' ∧
                          Forall is_build evs').
Proof. intros Hok. apply create_instrument_does. by intros _. Qed.

(** ** Facts on grids *)

Lemma grid_shape_row {A} (g : list (list A)) (y : nat) :
  grid_shape g → (y < 10)%nat → ∃ row, g !! y = Some row ∧ length row = 10%nat.
Proof.
  intros [Hlen Hrows] Hy.
  destruct (lookup_lt_is_Some_2 g y) as [row Hrow]; [lia|].
  exists row. split; [done|]. by eapply (Forall_lookup_1 _ _ _ _ Hrows).
Qed.

Lemma grid_shape_cell {A} (g : list (list A)) (y x : nat) :
  grid_shape g → (y < 10)%nat → (x < 10)%nat →
  ∃ row a, g !! y = Some row ∧ length row = 10%nat ∧ row !! x = Some a.
Proof.
  intros Hg Hy Hx. destruct (grid_shape_row g y Hg Hy) as (row & Hrow & Hlen).
  destruct (lookup_lt_is_Some_2 row x) as [a Ha]; [lia|]. by exists row, a.
Qed.

Lemma grid_shape_insert {A} (g : list (list A)) (y x : nat) (row : list A) (v : A) :
  grid_shape g → g !! y = Some row → grid_shape (<[y := <[x := v]> row]> g).
Proof.
  intros [Hlen Hrows] Hrow. split; [by rewrite length_insert|].
  apply Forall_insert; [done|]. rewrite length_insert.
  by eapply (Forall_lookup_1 _ _ _ _ Hrows).
Qed.

Lemma grid_Forall_insert {A} (P : A → Prop) (g : list (list A)) (y x : nat)
    (row : list A) (v : A) :
  Forall (Forall P) g → g !! y = Some row → P v →
  Forall (Forall P) (<[y := <[x := v]> row]> g).
Proof.
  intros Hg Hrow Hv. apply Forall_insert; [done|]. apply Forall_insert; [|done].
  by eapply (Forall_lookup_1 _ _ _ _ Hg).
Qed.

Lemma cell_insert {A} (g : list (list A)) (y x : nat) (row : list A) (v : A) :
  g !! y = Some row → (x < length row)%nat →
  cell (<[y := <[x := v]> row]> g) y x = Some v.
Proof.
  intros Hrow Hx. unfold cell.
  rewrite list_lookup_insert_eq by (by eapply lookup_lt_Some). simpl.
  by rewrite list_lookup_insert_eq.
Qed.

Lemma getitem_Z_in_range {A} (l : list A) (i : Z) :
  (0 <= i < Z.of_nat (length l))%Z →
  ∃ a, l !! Z.to_nat i = Some a ∧ ∀ w, getitem l i w = Return a w.
Proof.
  intros Hi. destruct (lookup_lt_is_Some_2 l (Z.to_nat i)) as [a Ha]; [lia|].
  exists a. split; [done|]. intros w.
  rewrite <- (Z2Nat.id i) by lia. by apply getitem_in_range.
Qed.

Lemma scale_frequencies_low : Forall (fun f => (220 <= f)%Q) scale_frequencies.
Proof. unfold scale_frequencies. repeat constructor; by vm_compute. Qed.

Lemma is_build_call_ok (evs : list effect) : Forall is_build evs → Forall call_ok evs.
Proof. intros H. eapply Forall_impl; [exact H|]. by intros []. Qed.

Lemma toggle_next_range (c : Z) : (-1 <= c < 7)%Z → (-1 <= toggle_next c < 7)%Z.
Proof.
  intros Hc. unfold toggle_next. change (Z.of_nat (length INSTRUMENT_NAMES)) with 7%Z.
  destruct (c =? -1)%Z eqn:E1; [simpl; lia|].
  destruct ((c + 1) mod (7 + 1) =? 7)%Z eqn:E2; [lia|].
  apply Z.eqb_neq in E1, E2. pose proof (Z.mod_pos_bound (c + 1) (7 + 1)). lia.
Qed.

(** ** Toggling a cell *)

Lemma does_pure {A} (m : M A) (a : A) (R : A → list effect → Prop) :
  (∀ w, m w = Return a w) → R a [] → does m R.
Proof. intros Hm HR w. exists a, w, []. by rewrite Hm, app_nil_r. Qed.

Lemma stop_pair_does (slot : option (obj * obj)) :
  does (stop_pair slot)
    (fun _ evs => evs = match slot with
                        | Some (source, fader) => [EStop fader; EStop source]
                        | None => []
                        end).
Proof. destruct slot as [[source fader]|]; run_straight; done. Qed.

Lemma stop_pair_call_ok (slot : option (obj * obj)) :
  does (stop_pair slot) (fun _ evs => Forall call_ok evs).
Proof.
  eapply does_weaken; [apply stop_pair_does|]. intros ? evs ->.
  destruct slot as [[??]|]; repeat constructor.
Qed.

(** A step that does not touch the world and returns [a]. *)
Ltac step_pure a lem :=
  eapply does_bind;
  [ apply (does_pure _ a (fun r evs => r = a ∧ evs = []));
    [ intros; lem | split; reflexivity ]
  | intros ? ? [-> ->]; simpl ].

Lemma on_toggle_does {F : Files} (self : SoundGrid) (y x : nat)
    (row : list Z) (orow : list (option (obj * obj))) (c : Z) :
  sample_ok self →
  current_instruments self !! y = Some row → row !! x = Some c →
  oscillators self !! y = Some orow → length orow = 10%nat →
  (y < 10)%nat → (x < 10)%nat → (-1 <= c < 7)%Z →
  does (on_toggle (Z.of_nat y) (Z.of_nat x) self)
    (fun self' evs => ∃ osc',
       self' = set_current_instruments
                 (<[y := <[x := toggle_next c]> row]> (current_instruments self))
                 (set_oscillators
                    (<[y := <[x := osc']> orow]> (oscillators self)) self) ∧
       Forall call_ok evs).
Proof.
  intros Hfile Hrow Hc Horow Holen Hy Hx Hcr.
  destruct (lookup_lt_is_Some_2 orow x) as [o Ho]; [lia|].
  pose proof (lookup_lt_Some _ _ _ Hc) as Hxrow.
  unfold on_toggle, toggle_next. change (Z.of_nat (length INSTRUMENT_NAMES)) with 7%Z.
  step_pure c ltac:(by eapply getitem2_in_range).
  set (next := if (c =? -1)%Z then 0%Z else ((c + 1) mod (7 + 1))%Z).
  assert (-1 <= toggle_next c < 7)%Z as Hnext by by apply toggle_next_range.
  unfold toggle_next in Hnext.
  change (Z.of_nat (length INSTRUMENT_NAMES)) with 7%Z in Hnext. fold next in Hnext.
  destruct (next =? 7)%Z eqn:E.
  - step_pure o ltac:(by eapply getitem2_in_range).
    eapply does_bind with
      (R1 := fun r evs => r = <[y := <[x := None]> orow]> (oscillators self) ∧
                          Forall call_ok evs).
    { destruct o as [p|].
      - eapply does_bind; [apply stop_pair_call_ok|]. intros ? evs0 Hevs0.
        apply (does_pure _ (<[y := <[x := None]> orow]> (oscillators self))).
        + intros. apply setitem2_in_range; [done|lia].
        + split; [done|]. by rewrite app_nil_r.
      - apply does_ret. split; [|done].
        by rewrite (list_insert_id orow), list_insert_id. }
    intros oscs evs [-> Hevs]. simpl.
    step_pure (<[y := <[x := (-1)%Z]> row]> (current_instruments self))
      ltac:(by apply setitem2_in_range).
    apply does_ret. exists None. by rewrite !app_nil_r.
  - apply Z.eqb_neq in E.
    assert (0 <= next < 7)%Z as Hn.
    { subst next. destruct (c =? -1)%Z; [lia|].
      pose proof (Z.mod_pos_bound (c + 1) (7 + 1)). lia. }
    destruct (getitem_Z_in_range INSTRUMENT_NAMES next) as (name & _ & Hname);
      [simpl; lia|].
    step_pure name ltac:(apply Hname).
    step_pure o ltac:(by eapply getitem2_in_range).
    eapply does_bind; [apply stop_pair_call_ok|]. intros ? evs1 Hevs1.
    destruct (lookup_lt_is_Some_2 scale_frequencies y) as [freq Hfreq]; [simpl; lia|].
    step_pure freq ltac:(by apply getitem_in_range).
    eapply does_bind; [by apply create_with_settings_does|].
    intros inst evs2 (evs2' & -> & Hbuild).
    step_pure (<[y := <[x := Some inst]> orow]> (oscillators self))
      ltac:(apply setitem2_in_range; [done|lia]).
    step_pure (<[y := <[x := next]> row]> (current_instruments self))
      ltac:(by apply setitem2_in_range).
    apply does_ret. exists (Some inst). split; [done|].
    rewrite !app_nil_r. apply Forall_app. split; [done|].
    constructor; [|by apply is_build_call_ok].
    simpl. by eapply (Forall_lookup_1 _ _ _ _ scale_frequencies_low).
Qed.

Lemma wf_update_grids (self : SoundGrid) (current' : list (list Z))
    (oscillators' : list (list (option (obj * obj)))) :
  wf self → grid_shape current' → grid_shape oscillators' →
  Forall (Forall (fun c => (-1 <= c < 7)%Z)) current' →
  wf (set_current_instruments current' (set_oscillators oscillators' self)).
Proof. intros [] ???. by constructor. Qed.

Lemma SoundGrid_init_wf : wf SoundGrid_init.
Proof.
  constructor; simpl; try done; try lia.
  - split; [done|]. repeat constructor.
  - split; [done|]. repeat constructor.
  - repeat constructor; lia.
  - intros name Hin. unfold INSTRUMENT_NAMES in Hin.
    repeat (apply elem_of_cons in Hin as [-> | Hin]; [by eexists|]).
    by apply elem_of_nil in Hin.
  - unfold hue_inv. simpl. by intros [? [=]].
Qed.

Lemma run_cons {F : Files} (ev : event) (evs : list event) (self : SoundGrid) :
  run (ev :: evs) self = (let! self' := handle ev self in run evs self').
Proof. reflexivity. Qed.

(** One toggle of a cell of a well-formed window. *)
Lemma on_toggle_cell {F : Files} (self : SoundGrid) (w : World) (y x : nat) (c : Z) :
  wf self → sample_ok self → (y < 10)%nat → (x < 10)%nat →
  cell (current_instruments self) y x = Some c →
  ∃ self' w' evs,
    on_toggle (Z.of_nat y) (Z.of_nat x) self w = Return self' w' ∧
    log w' = log w ++ evs ∧ Forall call_ok evs ∧
    wf self' ∧ selected_sample self' = selected_sample self ∧
    cell (current_instruments self') y x = Some (toggle_next c).
Proof.
  intros Hwf Hfile Hy Hx Hc.
  destruct (grid_shape_row _ y (wf_current _ Hwf) Hy) as (row & Hrow & Hrlen).
  destruct (grid_shape_row _ y (wf_oscillators _ Hwf) Hy) as (orow & Horow & Holen).
  unfold cell in Hc. rewrite Hrow in Hc. simpl in Hc.
  assert (-1 <= c < 7)%Z as Hcr.
  { pose proof (Forall_lookup_1 _ _ _ _ (wf_cells _ Hwf) Hrow) as Hr.
    by apply (Forall_lookup_1 _ _ _ _ Hr Hc). }
  destruct (on_toggle_does self y x row orow c Hfile Hrow Hc Horow Holen Hy Hx Hcr w)
    as (self' & w' & evs & Hrun & Hlog & osc' & -> & Hok).
  eexists _, w', evs. split; [exact Hrun|]. split; [done|]. split; [done|]. split.
  - apply wf_update_grids; [done| | |].
    + apply grid_shape_insert; [apply Hwf | done].
    + apply grid_shape_insert; [apply Hwf | done].
    + apply grid_Forall_insert; [apply Hwf | done |]. by apply toggle_next_range.
  - split; [done|]. simpl. apply cell_insert; [done|lia].
Qed.

Lemma toggles_iter {F : Files} (k : nat) (y x : nat) :
  ∀ (self : SoundGrid) (w : World) (c : Z),
    wf self → sample_ok self → (y < 10)%nat → (x < 10)%nat →
    cell (current_instruments self) y x = Some c →
    ∃ self' w',
      run (replicate k (Toggle (Z.of_nat y) (Z.of_nat x))) self w = Return self' w' ∧
      wf self' ∧
      cell (current_instruments self') y x = Some (Nat.iter k toggle_next c).
Proof.
  induction k as [|k IH]; intros self w c Hwf Hfile Hy Hx Hc.
  - by exists self, w.
  - destruct (on_toggle_cell self w y x c Hwf Hfile Hy Hx Hc)
      as (self1 & w1 & evs & Hrun & _ & _ & Hwf1 & Hsel1 & Hc1).
    assert (sample_ok self1) as Hfile1 by (unfold sample_ok; by rewrite Hsel1).
    destruct (IH self1 w1 (toggle_next c) Hwf1 Hfile1 Hy Hx Hc1)
      as (self' & w' & Hrun' & ? & ?).
    exists self', w'. simpl replicate. rewrite run_cons. unfold bind. simpl handle.
    rewrite Hrun. split; [done|]. split; [done|]. by rewrite Nat.iter_succ_r.
Qed.

Lemma toggle_iter_from_off (k : nat) :
  Nat.iter k toggle_next (-1)%Z =
  if (Z.of_nat k mod 8 =? 0)%Z then (-1)%Z else ((Z.of_nat k - 1) mod 8)%Z.
Proof.
  induction k as [|k IH]; [reflexivity|].
  simpl Nat.iter. rewrite IH. clear IH. unfold toggle_next.
  change (Z.of_nat (length INSTRUMENT_NAMES)) with 7%Z.
  replace (Z.of_nat (S k)) with (Z.of_nat k + 1)%Z by lia.
  generalize (Z.of_nat k) (Nat2Z.is_nonneg k). intros n Hn.
  change (7 + 1)%Z with 8%Z.
  destruct (Z.eqb_spec (n mod 8) 0) as [E|E].
  - simpl. destruct (Z.eqb_spec ((n + 1) mod 8) 0); Z.div_mod_to_equations; lia.
  - destruct (Z.eqb_spec ((n - 1) mod 8) (-1)) as [E1|E1];
      [Z.div_mod_to_equations; lia|].
    destruct (Z.eqb_spec (((n - 1) mod 8 + 1) mod 8) 7);
      destruct (Z.eqb_spec ((n + 1) mod 8) 0); Z.div_mod_to_equations; lia.
Qed.

(** The toggle that reaches ["samples"] opens the selected file: when it
    cannot be read the handler raises, before the cell is assigned. *)
Lemma on_toggle_unreadable_sample {F : Files} (self : SoundGrid) (w : World)
    (y x : nat) :
  wf self → (y < 10)%nat → (x < 10)%nat →
  cell (current_instruments self) y x = Some 2%Z →
  readable ("samples/" +:+ selected_sample self) = false →
  on_toggle (Z.of_nat y) (Z.of_nat x) self w = Raise PyoError.
Proof.
  intros Hwf Hy Hx Hc Hfile.
  destruct (grid_shape_row _ y (wf_current _ Hwf) Hy) as (row & Hrow & Hrlen).
  destruct (grid_shape_cell _ y x (wf_oscillators _ Hwf) Hy Hx)
    as (orow & o & Horow & Holen & Ho).
  unfold cell in Hc. rewrite Hrow in Hc. simpl in Hc.
  destruct (lookup_lt_is_Some_2 scale_frequencies y) as [freq Hfreq]; [simpl; lia|].
  unfold on_toggle, bind.
  rewrite (getitem2_in_range _ _ _ _ _ _ Hrow Hc). simpl.
  rewrite (getitem2_in_range _ _ _ _ _ _ Horow Ho).
  assert (∀ w0, ∃ w1, stop_pair o w0 = Return tt w1) as Hstop.
  { intros w0. destruct o as [[??]|]; by eexists. }
  destruct (Hstop w) as [w1 ->].
  rewrite (getitem_in_range _ _ _ _ Hfreq).
  unfold create_with_settings, create_instrument, bind. simpl. by rewrite Hfile.
Qed.

(** C6: there are [N = 7] instruments.  Provided the selected sample file
    can be read (the toggle that reaches ["samples"] opens it), one toggle
    takes a cell holding [current] to [next = 0] when it is off and to
    [(current + 1) mod (N + 1)] otherwise, [next = N] meaning off ([-1]).
    Hence [k] toggles of an off cell leave it off when [k mod (N + 1) = 0]
    and at instrument [(k - 1) mod (N + 1)] otherwise; in particular one
    toggle gives instrument 0 and [N + 1] toggles give off again. *)
Theorem toggle_cycle {F : Files} (self : SoundGrid) (w : World) (y x k : nat) :
  wf self → sample_ok self → (y < 10)%nat → (x < 10)%nat →
  cell (current_instruments self) y x = Some (-1)%Z →
  length INSTRUMENT_NAMES = 7%nat ∧
  (∀ (self0 : SoundGrid) (w0 : World) (current : Z),
     wf self0 → sample_ok self0 →
     cell (current_instruments self0) y x = Some current →
     ∃ self1 w1,
       on_toggle (Z.of_nat y) (Z.of_nat x) self0 w0 = Return self1 w1 ∧
       cell (current_instruments self1) y x =
         Some (let next := if (current =? -1)%Z then 0%Z
                           else ((current + 1) mod (7 + 1))%Z in
               if (next =? 7)%Z then (-1)%Z else next)) ∧
  (∃ self' w',
     run (replicate k (Toggle (Z.of_nat y) (Z.of_nat x))) self w = Return self' w' ∧
     cell (current_instruments self') y x =
       Some (if (Z.of_nat k mod (7 + 1) =? 0)%Z then (-1)%Z
             else ((Z.of_nat k - 1) mod (7 + 1))%Z)) ∧
  (∃ self' w',
     run (replicate 1 (Toggle (Z.of_nat y) (Z.of_nat x))) self w = Return self' w' ∧
     cell (current_instruments self') y x = Some 0%Z) ∧
  (∃ self' w',
     run (replicate (7 + 1) (Toggle (Z.of_nat y) (Z.of_nat x))) self w
       = Return self' w' ∧
     cell (current_instruments self') y x = Some (-1)%Z).
Proof.
  intros Hwf Hfile Hy Hx Hoff. split; [reflexivity|]. split; [|split; [|split]].
  - intros self0 w0 current Hwf0 Hfile0 Hc.
    destruct (on_toggle_cell self0 w0 y x current Hwf0 Hfile0 Hy Hx Hc)
      as (self1 & w1 & _ & Hrun & _ & _ & _ & _ & Hc1).
    by exists self1, w1.
  - destruct (toggles_iter k y x self w _ Hwf Hfile Hy Hx Hoff)
      as (self' & w' & Hrun & _ & Hc).
    exists self', w'. split; [done|]. by rewrite Hc, toggle_iter_from_off.
  - destruct (toggles_iter 1 y x self w _ Hwf Hfile Hy Hx Hoff)
      as (self' & w' & Hrun & _ & Hc).
    by exists self', w'.
  - destruct (toggles_iter 8 y x self w _ Hwf Hfile Hy Hx Hoff)
      as (self' & w' & Hrun & _ & Hc).
    by exists self', w'.
Qed.

Lemma toggle_cycle_witness :
  length INSTRUMENT_NAMES = 7%nat ∧
  (∀ (self0 : SoundGrid) (w0 : World) (current : Z),
     wf self0 → @sample_ok only_bass_synth self0 →
     cell (current_instruments self0) 2 3 = Some current →
     ∃ self1 w1,
       @on_toggle only_bass_synth (Z.of_nat 2) (Z.of_nat 3) self0 w0
         = Return self1 w1 ∧
       cell (current_instruments self1) 2 3 =
         Some (let next := if (current =? -1)%Z then 0%Z
                           else ((current + 1) mod (7 + 1))%Z in
               if (next =? 7)%Z then (-1)%Z else next)) ∧
  (∃ self' w',
     @run only_bass_synth (replicate 11 (Toggle (Z.of_nat 2) (Z.of_nat 3)))
       SoundGrid_init World_init = Return self' w' ∧
     cell (current_instruments self') 2 3 =
       Some (if (Z.of_nat 11 mod (7 + 1) =? 0)%Z then (-1)%Z
             else ((Z.of_nat 11 - 1) mod (7 + 1))%Z)) ∧
  (∃ self' w',
     @run only_bass_synth (replicate 1 (Toggle (Z.of_nat 2) (Z.of_nat 3)))
       SoundGrid_init World_init = Return self' w' ∧
     cell (current_instruments self') 2 3 = Some 0%Z) ∧
  (∃ self' w',
     @run only_bass_synth (replicate (7 + 1) (Toggle (Z.of_nat 2) (Z.of_nat 3)))
       SoundGrid_init World_init = Return self' w' ∧
     cell (current_instruments self') 2 3 = Some (-1)%Z).
Proof.
  apply (@toggle_cycle only_bass_synth SoundGrid_init World_init 2 3 11);
    [apply SoundGrid_init_wf | reflexivity | lia | lia | reflexivity].
Defined.

(** ** Loops that stop and clear *)

Lemma insert_replicate_drop {A} (l : list A) (i : nat) (v : A) :
  (i < length l)%nat →
  <[i := v]> (replicate i v ++ drop i l) = replicate (S i) v ++ drop (S i) l.
Proof.
  intros Hi. destruct (lookup_lt_is_Some_2 l i Hi) as [a Ha].
  rewrite (drop_S l a i Ha).
  rewrite insert_app_r_alt by (rewrite length_replicate; lia).
  rewrite length_replicate, Nat.sub_diag. simpl.
  by rewrite cons_middle, app_assoc, <- replicate_S_end.
Qed.

Lemma lookup_replicate_drop {A} (l : list A) (i : nat) (v : A) :
  (replicate i v ++ drop i l) !! i = l !! i.
Proof.
  rewrite lookup_app_r by (rewrite length_replicate; lia).
  rewrite length_replicate, Nat.sub_diag, lookup_drop. f_equal. lia.
Qed.

Lemma replicate_drop_id {A} (l : list A) (i : nat) (v : A) :
  l !! i = Some v →
  replicate i v ++ drop i l = replicate (S i) v ++ drop (S i) l.
Proof.
  intros Hi. rewrite <- (insert_replicate_drop l i v) by (by eapply lookup_lt_Some).
  rewrite list_insert_id; [done|]. by rewrite lookup_replicate_drop.
Qed.

(** A loop that only sends what each element asks for. *)
Lemma does_for_each_emit {A} (body : A → M unit) (g : A → list effect) (l : list A) :
  (∀ a, a ∈ l → does (body a) (fun _ evs => evs = g a)) →
  does (for_each l (fun a _ => body a) tt) (fun _ evs => evs = concat (map g l)).
Proof.
  intros Hbody.
  eapply does_weaken.
  - apply (does_for_each (fun a (_ : unit) => body a)
             (fun i _ evs => evs = concat (map g (take i l))) l tt); [done|].
    intros i a [] evs Hi ->. eapply does_weaken.
    + apply Hbody. by eapply list_elem_of_lookup_2.
    + intros _ evs' ->. rewrite (take_S_r _ _ _ Hi), map_app, concat_app. simpl.
      by rewrite app_nil_r.
  - intros _ evs ->. by rewrite firstn_all.
Qed.

Lemma stop_oscillators_does (self : SoundGrid) :
  does (stop_oscillators self)
    (fun _ evs => evs = concat (map stop_effects (concat (oscillators self)))).
Proof.
  unfold stop_oscillators. eapply does_weaken.
  - apply (does_for_each_emit
             (fun row => for_each row (fun osc _ => stop_pair osc) tt)
             (fun row => concat (map stop_effects row))).
    intros row _. apply (does_for_each_emit stop_pair stop_effects).
    intros osc _. apply stop_pair_does.
  - intros _ evs ->. induction (oscillators self) as [|row g IH]; [done|].
    simpl. by rewrite map_app, concat_app, IH.
Qed.

Lemma stop_columns_does (self : SoundGrid) :
  length (column_mixers self) = 10%nat →
  does (for_each (range 10) stop_column self)
    (fun self' evs =>
       self' = set_column_mixers (replicate 10 None) self ∧
       evs = concat (map stop_effects (column_mixers self))).
Proof.
  intros Hlen. set (cols := column_mixers self) in *.
  eapply does_weaken.
  - apply (does_for_each stop_column
             (fun i s evs =>
                s = set_column_mixers (replicate i None ++ drop i cols) self ∧
                evs = concat (map stop_effects (take i cols)))).
    + split; [|done]. simpl. by destruct self.
    + intros i a s evs Hi [-> ->]. apply range_lookup in Hi as [-> Hi].
      destruct (lookup_lt_is_Some_2 cols i) as [slot Hslot]; [lia|].
      unfold stop_column. simpl.
      step_pure slot ltac:(apply getitem_in_range; by rewrite lookup_replicate_drop).
      rewrite (take_S_r _ _ _ Hslot), map_app, concat_app. simpl.
      destruct slot as [[final_out final_fader]|].
      * apply does_emit_then, does_emit_then.
        step_pure (replicate (S i) (@None (obj * obj)) ++ drop (S i) cols)
          ltac:(rewrite setitem_in_range, insert_replicate_drop;
                  [done | lia | rewrite length_app, length_replicate, length_drop; lia]).
        by apply does_ret.
      * apply does_ret. rewrite ?app_nil_r. split; [|done].
        by rewrite (replicate_drop_id _ _ _ Hslot).
  - intros self' evs [-> ->]. replace (length (range 10)) with 10%nat by done.
    by rewrite drop_ge, firstn_all2, app_nil_r by lia.
Qed.

Lemma insert_insert_replicate_drop {A} (g : list (list A)) (y x : nat)
    (row : list A) (v : A) :
  (y < length g)%nat → (x < length row)%nat →
  <[y := <[x := v]> (replicate x v ++ drop x row)]>
    (<[y := replicate x v ++ drop x row]> g)
  = <[y := replicate (S x) v ++ drop (S x) row]> g.
Proof. intros Hy Hx. by rewrite list_insert_insert_eq, insert_replicate_drop. Qed.

Lemma clear_row_does (s0 : SoundGrid) (y : nat)
    (row : list Z) (orow : list (option (obj * obj))) :
  current_instruments s0 !! y = Some row → length row = 10%nat →
  oscillators s0 !! y = Some orow → length orow = 10%nat →
  does (for_each (range 10) (fun x self => clear_cell (Z.of_nat y) x self) s0)
    (fun s' evs =>
       s' = set_oscillators (<[y := replicate 10 None]> (oscillators s0))
              (set_current_instruments
                 (<[y := replicate 10 (-1)%Z]> (current_instruments s0)) s0) ∧
       evs = concat (map stop_effects orow)).
Proof.
  intros Hrow Hrlen Horow Holen.
  pose proof (lookup_lt_Some _ _ _ Hrow) as Hy.
  pose proof (lookup_lt_Some _ _ _ Horow) as Hyo.
  eapply does_weaken.
  - apply (does_for_each (fun x self => clear_cell (Z.of_nat y) x self)
             (fun x s evs =>
                s = set_oscillators
                      (<[y := replicate x None ++ drop x orow]> (oscillators s0))
                      (set_current_instruments
                         (<[y := replicate x (-1)%Z ++ drop x row]>
                            (current_instruments s0)) s0) ∧
                evs = concat (map stop_effects (take x orow)))).
    + split; [|done]. simpl. rewrite !drop_0, !list_insert_id by done. by destruct s0.
    + intros x a s evs Hx [-> ->]. apply range_lookup in Hx as [-> Hx].
      destruct (lookup_lt_is_Some_2 orow x) as [o Ho]; [lia|].
      unfold clear_cell.
      cbn [current_instruments oscillators set_current_instruments set_oscillators].
      step_pure (<[y := replicate (S x) (-1)%Z ++ drop (S x) row]>
                   (current_instruments s0))
        ltac:(erewrite setitem2_in_range;
                [ by rewrite insert_insert_replicate_drop by lia
                | by apply list_lookup_insert_eq
                | rewrite length_app, length_replicate, length_drop; lia ]).
      step_pure o
        ltac:(eapply getitem2_in_range;
                [ by apply list_lookup_insert_eq
                | by rewrite lookup_replicate_drop ]).
      rewrite (take_S_r _ _ _ Ho), map_app, concat_app.
      destruct o as [[source fader]|].
      * unfold stop_pair. eapply does_bind with (R1 := fun _ evs => evs = [EStop fader; EStop source]).
        { apply does_emit_then. by apply does_emit. }
        intros ? ? ->.
        step_pure (<[y := replicate (S x) None ++ drop (S x) orow]> (oscillators s0))
          ltac:(erewrite setitem2_in_range;
                  [ by rewrite insert_insert_replicate_drop by lia
                  | by apply list_lookup_insert_eq
                  | rewrite length_app, length_replicate, length_drop; lia ]).
        by apply does_ret.
      * apply does_ret. simpl. rewrite ?app_nil_r. split; [|done].
        by rewrite (replicate_drop_id orow x None Ho).
  - intros s' evs [-> ->]. replace (length (range 10)) with 10%nat by done.
    by rewrite !drop_ge, firstn_all2, !app_nil_r by lia.
Qed.

Lemma clear_grid_does (self : SoundGrid) :
  grid_shape (current_instruments self) → grid_shape (oscillators self) →
  does (for_each (range 10)
          (fun y self => for_each (range 10) (fun x self => clear_cell y x self) self)
          self)
    (fun s' evs =>
       s' = set_oscillators (replicate 10 (replicate 10 None))
              (set_current_instruments (replicate 10 (replicate 10 (-1)%Z)) self) ∧
       evs = concat (map stop_effects (concat (oscillators self)))).
Proof.
  intros Hci Hosc.
  set (ci := current_instruments self) in *. set (oscs := oscillators self) in *.
  eapply does_weaken.
  - apply (does_for_each
             (fun y self =>
                for_each (range 10) (fun x self => clear_cell y x self) self)
             (fun y s evs =>
                s = set_oscillators (replicate y (replicate 10 None) ++ drop y oscs)
                      (set_current_instruments
                         (replicate y (replicate 10 (-1)%Z) ++ drop y ci) self) ∧
                evs = concat (map stop_effects (concat (take y oscs))))).
    + split; [|done]. simpl. rewrite !drop_0. by destruct self.
    + intros y a s evs Hy [-> ->]. apply range_lookup in Hy as [-> Hy].
      destruct (grid_shape_row ci y Hci Hy) as (row & Hrow & Hrlen).
      destruct (grid_shape_row oscs y Hosc Hy) as (orow & Horow & Holen).
      destruct Hci as [Hcilen _], Hosc as [Hosclen _].
      eapply does_weaken.
      * apply (clear_row_does _ y row orow); [|done| |done];
          cbn [current_instruments oscillators set_current_instruments set_oscillators];
          by rewrite lookup_replicate_drop.
      * cbn [current_instruments oscillators set_current_instruments set_oscillators].
        intros s' evs' [-> ->].
        rewrite !insert_replicate_drop by lia.
        rewrite (take_S_r _ _ _ Horow), concat_app, map_app, concat_app. simpl.
        by rewrite !app_nil_r.
  - intros s' evs [-> ->]. replace (length (range 10)) with 10%nat by done.
    destruct Hci as [Hcilen _], Hosc as [Hosclen _].
    by rewrite !drop_ge, firstn_all2, !app_nil_r by lia.
Qed.

(** ** The hue voice inside a tick *)

Lemma stop_hue_oscillator_does (cam : CameraManager) :
  does (stop_hue_oscillator cam)
    (fun cam' evs =>
       hue_oscillator cam' = None ∧ hue_inv cam' ∧ evs = hue_stop_effects cam).
Proof.
  unfold stop_hue_oscillator, hue_stop_effects, hue_inv.
  destruct (hue_oscillator cam) as [osc|] eqn:Ho.
  - destruct (hue_reverb_effect cam) as [rev|]; run_straight;
      (split; [done|]); (split; [|done]); by intros [? [=]].
  - apply does_ret. rewrite Ho. split; [done|]. split; [|done]. by intros [? [=]].
Qed.

Lemma update_hue_oscillator_does (cam : CameraManager) (target_freq volume reverb : Q) :
  hue_inv cam →
  does (update_hue_oscillator cam target_freq volume reverb)
    (fun cam' evs => hue_inv cam' ∧ Forall is_hue_effect evs).
Proof.
  intros Hinv. unfold update_hue_oscillator, hue_inv in *.
  destruct (hue_oscillator cam) as [osc|] eqn:Ho.
  - destruct Hinv as [rev Hrev]; [done|]. rewrite Hrev.
    destruct (frame_counter cam mod 5 =? 0)%Z; run_straight;
      (split; [by eexists|]); repeat constructor.
  - run_straight. split; [by eexists|]. repeat constructor.
Qed.

Lemma process_frame_does (cam : CameraManager) (fr : frame) (enabled : bool)
    (target_hue color_sensitivity : Z) (hue_volume hue_reverb : Q) :
  hue_inv cam →
  does (process_frame cam fr enabled target_hue color_sensitivity hue_volume hue_reverb)
    (fun cam' evs => hue_inv cam' ∧ Forall is_hue_effect evs).
Proof.
  intros Hinv.
  assert (∀ c, does (stop_hue_oscillator c)
                 (fun cam' evs => hue_inv cam' ∧ Forall is_hue_effect evs)) as Hstop.
  { intros c. eapply does_weaken; [apply stop_hue_oscillator_does|].
    intros cam' evs (_ & ? & ->). split; [done|]. unfold hue_stop_effects.
    destruct (hue_oscillator c); [destruct (hue_reverb_effect c)|]; repeat constructor. }
  unfold process_frame. destruct enabled; simpl; [|apply Hstop].
  destruct fr as [contours|]; [|by apply does_ret].
  destruct (py_max _ _ contours); [|apply Hstop].
  by apply update_hue_oscillator_does.
Qed.

(** Two facts on the same computation hold together. *)
Lemma does_and {A} (m : M A) (R1 R2 : A → list effect → Prop) :
  does m R1 → does m R2 → does m (fun a evs => R1 a evs ∧ R2 a evs).
Proof.
  intros H1 H2 w.
  destruct (H1 w) as (a & w1 & evs1 & Hrun1 & Hlog1 & HR1).
  destruct (H2 w) as (a2 & w2 & evs2 & Hrun2 & Hlog2 & HR2).
  rewrite Hrun1 in Hrun2. injection Hrun2 as <- <-.
  rewrite Hlog1 in Hlog2. apply app_inv_head in Hlog2 as <-.
  by exists a, w1, evs1.
Qed.

Lemma update_hue_oscillator_no_stop (cam : CameraManager)
    (target_freq volume reverb : Q) :
  does (update_hue_oscillator cam target_freq volume reverb)
    (fun _ evs => ∀ o, EStop o ∉ evs).
Proof.
  unfold update_hue_oscillator.
  destruct (hue_oscillator cam) as [osc|];
    [destruct (hue_reverb_effect cam) as [rev|];
     destruct (frame_counter cam mod 5 =? 0)%Z|];
    run_straight; intros o Hin;
    repeat (apply elem_of_cons in Hin as [Hin | Hin]; [done|]);
    by apply elem_of_nil in Hin.
Qed.

(** What a tick stops of the hue voice is the voice the window holds: its
    reverb and its oscillator, and only on a teardown. *)
Lemma process_frame_stops (cam : CameraManager) (fr : frame) (enabled : bool)
    (target_hue color_sensitivity : Z) (hue_volume hue_reverb : Q) :
  does (process_frame cam fr enabled target_hue color_sensitivity hue_volume hue_reverb)
    (fun _ evs => ∀ o, EStop o ∈ evs → EStop o ∈ hue_stop_effects cam).
Proof.
  assert (∀ c, hue_stop_effects c = hue_stop_effects cam →
               does (stop_hue_oscillator c)
                 (fun _ evs => ∀ o, EStop o ∈ evs → EStop o ∈ hue_stop_effects cam))
    as Hstop.
  { intros c Hc. eapply does_weaken; [apply stop_hue_oscillator_does|].
    intros cam' evs (_ & _ & ->). by rewrite Hc. }
  unfold process_frame. destruct enabled; simpl; [|by apply Hstop].
  destruct fr as [contours|]; [|apply does_ret; intros o Hin; by apply elem_of_nil in Hin].
  destruct (py_max _ _ contours); [|by apply Hstop].
  eapply does_weaken; [apply update_hue_oscillator_no_stop|].
  intros ? evs Hno o Hin. by destruct (Hno o).
Qed.

(** ** Clear all *)

Lemma grid_shape_replicate {A} (v : A) : grid_shape (replicate 10 (replicate 10 v)).
Proof. split; [done|]. repeat constructor. Qed.

Lemma on_clear_all_does (self : SoundGrid) :
  wf self →
  does (on_clear_all self)
    (fun self' evs =>
       wf self' ∧
       current_instruments self' = replicate 10 (replicate 10 (-1)%Z) ∧
       oscillators self' = replicate 10 (replicate 10 None) ∧
       column_mixers self' = replicate 10 None ∧
       hue_oscillator (camera_mgr self') = None ∧
       playing self' = false ∧
       instrument_loops self' = instrument_loops self ∧
       evs = (if playing self then
                hue_stop_effects (camera_mgr self) ++ [ETimerStop] ++
                concat (map stop_effects (column_mixers self)) ++
                concat (map stop_effects (concat (oscillators self)))
              else []) ++
             concat (map stop_effects (concat (oscillators self)))).
Proof.
  intros Hwf. unfold on_clear_all.
  eapply does_bind with
    (R1 := fun s evs =>
       wf s ∧ playing s = false ∧ oscillators s = oscillators self ∧
       instrument_loops s = instrument_loops self ∧
       evs = if playing self then
               hue_stop_effects (camera_mgr self) ++ [ETimerStop] ++
               concat (map stop_effects (column_mixers self)) ++
               concat (map stop_effects (concat (oscillators self)))
             else []).
  - destruct (playing self) eqn:Hp.
    + eapply does_bind; [apply stop_hue_oscillator_does|].
      intros cam evs1 (Hnone & Hinv & ->).
      apply does_emit_then.
      eapply does_bind; [apply stop_columns_does; apply Hwf|].
      intros s evs2 [-> ->].
      eapply does_bind; [apply stop_oscillators_does|].
      intros [] evs3 ->. apply does_ret.
      split; [|by rewrite app_nil_r].
      destruct Hwf. constructor; simpl; try done.
    + apply does_ret. by rewrite Hp.
  - intros s evs1 (Hwfs & Hps & Hos & Hls & ->).
    eapply does_weaken;
      [apply clear_grid_does; [apply (wf_current _ Hwfs) | apply (wf_oscillators _ Hwfs)]|].
    intros s' evs2 [-> ->]. rewrite Hos.
    destruct (wf_idle _ Hwfs Hps) as [Hcols Hhue].
    split; [|done].
    apply (wf_update_grids s (replicate 10 (replicate 10 (-1)%Z))
             (replicate 10 (replicate 10 None)) Hwfs);
      [apply grid_shape_replicate | apply grid_shape_replicate |].
    repeat constructor; lia.
Qed.

Lemma stop_effects_elem (slots : list (option (obj * obj))) (source fader : obj) :
  Some (source, fader) ∈ slots →
  EStop fader ∈ concat (map stop_effects slots) ∧
  EStop source ∈ concat (map stop_effects slots).
Proof.
  induction slots as [|slot slots IH]; intros Hin; [by apply elem_of_nil in Hin|].
  cbn [map concat]. rewrite !elem_of_app.
  apply elem_of_cons in Hin as [<- | Hin].
  - cbn [stop_effects]. rewrite !elem_of_cons. auto.
  - destruct (IH Hin). auto.
Qed.

Lemma cell_elem_concat {A} (g : list (list A)) (y x : nat) (a : A) :
  cell g y x = Some a → a ∈ concat g.
Proof.
  unfold cell. destruct (g !! y) as [row|] eqn:Hrow; [|done]. simpl. intros Hx.
  apply list_elem_of_In, in_concat. exists row.
  split; apply list_elem_of_In; by eapply list_elem_of_lookup_2.
Qed.

(** ** The session of the examples *)

Lemma session_run :
  run session_events SoundGrid_init World_init = Return session_self session_world.
Proof. vm_compute. reflexivity. Qed.

Lemma session_self_wf : wf session_self.
Proof.
  constructor; simpl; try done; try lia.
  - split; [done|]. repeat constructor.
  - split; [done|]. repeat constructor.
  - repeat constructor; lia.
  - intros name Hin. unfold INSTRUMENT_NAMES in Hin.
    repeat (apply elem_of_cons in Hin as [-> | Hin]; [by eexists|]).
    by apply elem_of_nil in Hin.
  - unfold hue_inv. simpl. by eexists.
Qed.

Lemma running_app (l evs : list effect) (o : obj) :
  running (l ++ evs) o = fold_left (switch o) evs (running l o).
Proof. unfold running. by rewrite fold_left_app. Qed.

Lemma switch_stops_off (evs : list effect) (o : obj) :
  Forall is_stop evs → fold_left (switch o) evs false = false.
Proof.
  induction 1 as [|e evs He _ IH]; [done|]. simpl.
  destruct e; try done; simpl; by destruct (Nat.eqb o _).
Qed.

(** After a sequence of stops that contains the stop of [o], [o] is off. *)
Lemma running_stopped (l evs : list effect) (o : obj) :
  Forall is_stop evs → EStop o ∈ evs → running (l ++ evs) o = false.
Proof.
  rewrite running_app. generalize (running l o).
  induction evs as [|e evs IH]; intros b Hstops Hin; [by apply elem_of_nil in Hin|].
  inversion Hstops as [|? ? He Hrest]; subst. simpl.
  apply elem_of_cons in Hin as [<- | Hin].
  - simpl. rewrite Nat.eqb_refl. by apply switch_stops_off.
  - by apply IH.
Qed.

Lemma stop_effects_is_stop (slots : list (option (obj * obj))) :
  Forall is_stop (concat (map stop_effects slots)).
Proof.
  induction slots as [|[[??]|] slots IH]; simpl; [done| |done].
  by repeat constructor.
Qed.

Lemma hue_stop_effects_is_stop (cam : CameraManager) :
  Forall is_stop (hue_stop_effects cam).
Proof.
  unfold hue_stop_effects.
  destruct (hue_oscillator cam); [destruct (hue_reverb_effect cam)|];
    by repeat constructor.
Qed.

(** C4 (as amended): clear-all sets every grid cell to -1, stops and
    releases every per-cell graph, stops and releases every column voice and
    tears down the hue voice, and leaves the sequencer paused; none of these
    voices is audible afterwards.  It sends nothing but those stops (and the
    stop of the timer), and it does not touch the hold loops: every slot of
    [instrument_loops] is as before. *)
Theorem on_clear_all_clears (self : SoundGrid) (w : World) :
  wf self →
  ∃ self' w' evs,
    on_clear_all self w = Return self' w' ∧
    log w' = log w ++ evs ∧
    current_instruments self' = replicate 10 (replicate 10 (-1)%Z) ∧
    oscillators self' = replicate 10 (replicate 10 None) ∧
    column_mixers self' = replicate 10 None ∧
    hue_oscillator (camera_mgr self') = None ∧
    playing self' = false ∧
    instrument_loops self' = instrument_loops self ∧
    evs = (if playing self then
             hue_stop_effects (camera_mgr self) ++ [ETimerStop] ++
             concat (map stop_effects (column_mixers self)) ++
             concat (map stop_effects (concat (oscillators self)))
           else []) ++
          concat (map stop_effects (concat (oscillators self))) ∧
    (∀ y x voice,
       cell (oscillators self) y x = Some (Some voice) →
       EStop (snd voice) ∈ evs ∧ EStop (fst voice) ∈ evs ∧
       audible (log w') voice = false) ∧
    (∀ col voice,
       column_mixers self !! col = Some (Some voice) →
       EStop (snd voice) ∈ evs ∧ EStop (fst voice) ∈ evs ∧
       audible (log w') voice = false) ∧
    (∀ osc rev,
       hue_oscillator (camera_mgr self) = Some osc →
       hue_reverb_effect (camera_mgr self) = Some rev →
       EStop rev ∈ evs ∧ EStop osc ∈ evs ∧ running (log w') rev = false).
Proof.
  intros Hwf.
  destruct (on_clear_all_does self Hwf w)
    as (self' & w' & evs & Hrun & Hlog & _ & Hci & Hosc & Hcols & Hhue & Hp & Hl & Hevs).
  assert (Forall is_stop evs) as Hstops.
  { rewrite Hevs. apply Forall_app. split; [|apply stop_effects_is_stop].
    destruct (playing self); [|done].
    apply Forall_app. split; [apply hue_stop_effects_is_stop|].
    constructor; [done|]. apply Forall_app. split; apply stop_effects_is_stop. }
  assert (∀ voice : obj * obj,
            EStop (snd voice) ∈ evs ∧ EStop (fst voice) ∈ evs →
            EStop (snd voice) ∈ evs ∧ EStop (fst voice) ∈ evs ∧
            audible (log w') voice = false) as Hquiet.
  { intros voice [Hfd Hsrc]. split; [done|]. split; [done|].
    unfold audible. rewrite Hlog, (running_stopped _ _ _ Hstops Hsrc). done. }
  exists self', w', evs. repeat (split; [done|]). split; [|split].
  - intros y x [source fader] Hc. apply Hquiet.
    apply cell_elem_concat, stop_effects_elem in Hc.
    destruct Hc. rewrite Hevs, !elem_of_app. auto.
  - intros col [final_out final_fader] Hcol. apply Hquiet.
    destruct (playing self) eqn:Hplay.
    + apply list_elem_of_lookup_2, stop_effects_elem in Hcol.
      destruct Hcol. rewrite Hevs, !elem_of_app. auto 6.
    + destruct (wf_idle _ Hwf Hplay) as [Hnone _]. rewrite Hnone in Hcol.
      apply lookup_replicate in Hcol as [[=] _].
  - intros osc rev Ho Hr. destruct (playing self) eqn:Hplay.
    + assert (EStop rev ∈ evs ∧ EStop osc ∈ evs) as [Hrev Hosc'].
      { rewrite Hevs, !elem_of_app. unfold hue_stop_effects. rewrite Ho, Hr.
        rewrite !elem_of_cons. auto 6. }
      split; [done|]. split; [done|].
      rewrite Hlog. by apply running_stopped.
    + destruct (wf_idle _ Hwf Hplay) as [_ Hnone]. congruence.
Qed.

Lemma on_clear_all_clears_witness :
  ∃ self' w' evs,
    on_clear_all session_self session_world = Return self' w' ∧
    log w' = log session_world ++ evs ∧
    current_instruments self' = replicate 10 (replicate 10 (-1)%Z) ∧
    oscillators self' = replicate 10 (replicate 10 None) ∧
    column_mixers self' = replicate 10 None ∧
    hue_oscillator (camera_mgr self') = None ∧
    playing self' = false ∧
    instrument_loops self' = instrument_loops session_self ∧
    evs = (if playing session_self then
             hue_stop_effects (camera_mgr session_self) ++ [ETimerStop] ++
             concat (map stop_effects (column_mixers session_self)) ++
             concat (map stop_effects (concat (oscillators session_self)))
           else []) ++
          concat (map stop_effects (concat (oscillators session_self))) ∧
    (∀ y x voice,
       cell (oscillators session_self) y x = Some (Some voice) →
       EStop (snd voice) ∈ evs ∧ EStop (fst voice) ∈ evs ∧
       audible (log w') voice = false) ∧
    (∀ col voice,
       column_mixers session_self !! col = Some (Some voice) →
       EStop (snd voice) ∈ evs ∧ EStop (fst voice) ∈ evs ∧
       audible (log w') voice = false) ∧
    (∀ osc rev,
       hue_oscillator (camera_mgr session_self) = Some osc →
       hue_reverb_effect (camera_mgr session_self) = Some rev →
       EStop rev ∈ evs ∧ EStop osc ∈ evs ∧ running (log w') rev = false).
Proof. apply (on_clear_all_clears session_self session_world session_self_wf). Defined.

(** C4, the claim as stated fails: in the session above the "sine" hold
    voice (signal 5, fader 3) is live; clear-all leaves it in its slot and
    sends it no stop, so it is still audible afterwards. *)
Lemma on_clear_all_keeps_hold_loop :
  ∃ self' w',
    run session_events SoundGrid_init World_init = Return session_self session_world ∧
    on_clear_all session_self session_world = Return self' w' ∧
    instrument_loops self' !! "sine" = Some (Some (5, 3)%nat) ∧
    audible (log w') (5, 3)%nat = true.
Proof.
  eexists _, _. split; [apply session_run|].
  split; [vm_compute; reflexivity|]. split; reflexivity.
Qed.

(** ** A tick of the timer *)

Lemma length_range (n : nat) : length (range n) = n.
Proof. unfold range. by rewrite length_map, length_seq. Qed.

(** The loops over [range(10)] are reasoned about by the loop rule, not by
    unrolling. *)
Opaque range.

Lemma stop_previous_column_does (self : SoundGrid) (prev : nat) :
  prev_line_pos self = Z.of_nat prev → (prev < 10)%nat →
  length (column_mixers self) = 10%nat → grid_shape (current_instruments self) →
  does (stop_previous_column self)
    (fun _ evs => evs = fader_stop (column_mixers self !! prev)).
Proof.
  intros Hprev Hlt Hlen Hci. unfold stop_previous_column. rewrite Hprev.
  replace (Z.of_nat prev >=? 0)%Z with true by (symmetry; apply Z.geb_le; lia).
  destruct (lookup_lt_is_Some_2 (column_mixers self) prev) as [slot Hslot]; [lia|].
  step_pure slot ltac:(by apply getitem_in_range).
  rewrite Hslot.
  eapply does_bind with (R1 := fun _ evs => evs = fader_stop (Some slot)).
  { destruct slot as [[final_out final_fader]|]; [by apply does_emit | by apply does_ret]. }
  intros ? ? ->.
  eapply does_weaken.
  - apply (does_for_each_emit
             (fun y => let! _ := getitem2 (current_instruments self) y (Z.of_nat prev) in
                       ret tt)
             (fun _ => [])).
    intros y Hy. apply list_elem_of_lookup_1 in Hy as [i Hi].
    apply range_lookup in Hi as [-> Hi].
    destruct (grid_shape_cell _ i prev Hci Hi Hlt) as (row & c & Hrow & _ & Hc).
    step_pure c ltac:(by eapply getitem2_in_range). by apply does_ret.
  - intros ? ? ->. apply app_nil_r.
Qed.

Lemma play_rows_does {F : Files} (self : SoundGrid) (x : nat) :
  sample_ok self →
  v_line_pos self = Z.of_nat x → (x < 10)%nat →
  grid_shape (current_instruments self) →
  Forall (Forall (fun c => (-1 <= c < 7)%Z)) (current_instruments self) →
  does (for_each (range 10) (play_row self) [])
    (fun srcs evs =>
       length srcs = active_in_column (current_instruments self) x ∧
       Forall is_voice_effect evs ∧
       (srcs = [] → evs = [])).
Proof.
  intros Hfile Hx Hlt Hci Hcells. unfold active_in_column.
  set (ci := current_instruments self) in *.
  set (P := fun row : list Z => row !! x ≠ Some (-1)%Z).
  eapply does_weaken.
  - apply (does_for_each (play_row self)
             (fun y srcs evs =>
                length srcs = length (filter P (take y ci)) ∧
                Forall is_voice_effect evs ∧
                (srcs = [] → evs = []))); [done|].
    intros y a srcs evs Hy (Hlen & Hevs & Hnil). apply range_lookup in Hy as [-> Hy].
    destruct (grid_shape_cell ci y x Hci Hy Hlt) as (row & c & Hrow & _ & Hc).
    assert (-1 <= c < 7)%Z as Hcr.
    { pose proof (Forall_lookup_1 _ _ _ _ Hcells Hrow) as Hr.
      by apply (Forall_lookup_1 _ _ _ _ Hr Hc). }
    rewrite (take_S_r _ _ _ Hrow), filter_app, length_app.
    unfold play_row. rewrite Hx. fold ci.
    step_pure c ltac:(by eapply getitem2_in_range).
    destruct (Z.eqb_spec c (-1)) as [-> | Hne]; simpl.
    + apply does_ret. rewrite app_nil_r.
      rewrite filter_cons_False, filter_nil by (unfold P; rewrite Hc; by intros H).
      simpl. split; [lia|]. done.
    + destruct (lookup_lt_is_Some_2 scale_frequencies y) as [freq Hfreq]; [simpl; lia|].
      step_pure freq ltac:(by apply getitem_in_range).
      destruct (getitem_Z_in_range INSTRUMENT_NAMES c) as (name & _ & Hname);
        [simpl; lia|].
      step_pure name ltac:(apply Hname).
      eapply does_bind; [by apply create_with_settings_does|].
      intros inst evs1 (evs1' & -> & Hbuild). apply does_ret.
      rewrite filter_cons_True, filter_nil by (unfold P; rewrite Hc; congruence).
      rewrite length_app. simpl. split; [lia|]. split.
      * rewrite app_nil_r. apply Forall_app. split; [done|].
        constructor.
        -- simpl. by eapply (Forall_lookup_1 _ _ _ _ scale_frequencies_low).
        -- eapply Forall_impl; [exact Hbuild|]. by intros [].
      * intros Heq. by apply app_eq_nil in Heq as [_ [=]].
  - intros srcs evs (Hlen & ? & ?). rewrite length_range in Hlen.
    destruct Hci as [Hcilen _]. by rewrite firstn_all2 in Hlen by lia.
Qed.

Lemma truediv_length {A} (a : Q) (x : A) (l : list A) (w : World) :
  truediv a (inject_Z (Z.of_nat (length (x :: l)))) w
  = Return (a / inject_Z (Z.of_nat (length (x :: l))))%Q w.
Proof. reflexivity. Qed.

Lemma play_current_column_does {F : Files} (self : SoundGrid) (x : nat) :
  sample_ok self →
  v_line_pos self = Z.of_nat x → (x < 10)%nat →
  grid_shape (current_instruments self) →
  Forall (Forall (fun c => (-1 <= c < 7)%Z)) (current_instruments self) →
  length (column_mixers self) = 10%nat →
  does (play_current_column self)
    (fun self' evs =>
       ∃ srcs evs_voices evs_mix slot,
         evs = evs_voices ++ evs_mix ∧
         self' = set_column_mixers (<[x := slot]> (column_mixers self)) self ∧
         length srcs = active_in_column (current_instruments self) x ∧
         Forall is_voice_effect evs_voices ∧
         match srcs with
         | [] => evs_voices = [] ∧ evs_mix = [] ∧ slot = None
         | _ :: _ =>
             ∃ mixed compressed final_fader final_out,
               evs_mix = mix_effects srcs mixed compressed final_fader final_out ∧
               slot = Some (final_out, final_fader)
         end).
Proof.
  intros Hfile Hx Hlt Hci Hcells Hcols. unfold play_current_column.
  eapply does_bind; [by apply (play_rows_does self x)|].
  intros srcs evs_voices (Hlen & Hvoices & Hnil). rewrite Hx.
  destruct srcs as [|src srcs].
  - step_pure (<[x := None]> (column_mixers self))
      ltac:(apply setitem_in_range; lia).
    apply does_ret. exists [], evs_voices, [], None. rewrite Hnil by done. done.
  - apply does_new_then. intros mixed.
    step_pure (0.5 / inject_Z (Z.of_nat (length (src :: srcs))))%Q
      ltac:(apply truediv_length).
    apply does_emit_then, does_new_then. intros compressed.
    apply does_new_then. intros final_fader.
    apply does_emit_then, does_new_then. intros final_out.
    apply does_emit_then.
    step_pure (<[x := Some (final_out, final_fader)]> (column_mixers self))
      ltac:(apply setitem_in_range; lia).
    apply does_ret.
    exists (src :: srcs), evs_voices,
      (mix_effects (src :: srcs) mixed compressed final_fader final_out),
      (Some (final_out, final_fader)).
    split; [done|]. split; [done|]. split; [done|]. split; [done|].
    by exists mixed, compressed, final_fader, final_out.
Qed.

Lemma on_timer_does {F : Files} (fr : frame) (self : SoundGrid) :
  sample_ok self →
  wf self → playing self = true →
  does (on_timer fr self)
    (fun self' evs =>
       ∃ cam' evs_hue srcs evs_voices evs_mix slot,
         evs = evs_hue ++
               fader_stop (column_mixers self !! Z.to_nat (v_line_pos self)) ++
               evs_voices ++ evs_mix ∧
         self' = set_column_mixers
                   (<[Z.to_nat ((v_line_pos self + 1) mod 10) := slot]>
                      (column_mixers self))
                   (set_camera_mgr cam'
                      (set_v_line_pos ((v_line_pos self + 1) mod 10)%Z
                         (set_prev_line_pos (v_line_pos self) self))) ∧
         hue_inv cam' ∧
         Forall is_hue_effect evs_hue ∧
         (∀ o, EStop o ∈ evs_hue → EStop o ∈ hue_stop_effects (camera_mgr self)) ∧
         length srcs = active_in_column (current_instruments self)
                         (Z.to_nat ((v_line_pos self + 1) mod 10)) ∧
         Forall is_voice_effect evs_voices ∧
         match srcs with
         | [] => evs_voices = [] ∧ evs_mix = [] ∧ slot = None
         | _ :: _ =>
             ∃ mixed compressed final_fader final_out,
               evs_mix = mix_effects srcs mixed compressed final_fader final_out ∧
               slot = Some (final_out, final_fader)
         end).
Proof.
  intros Hfile Hwf Hplay. unfold on_timer. rewrite Hplay. simpl negb. cbv iota.
  pose proof (wf_line _ Hwf) as Hline.
  pose proof (Z.mod_pos_bound (v_line_pos self + 1) 10 eq_refl) as Hcur.
  eapply does_bind.
  { apply does_and; [apply process_frame_does; exact (wf_hue _ Hwf)|].
    apply process_frame_stops. }
  intros cam' evs_hue [[Hinv Hhue] Hstops].
  eapply does_bind.
  { apply (stop_previous_column_does _ (Z.to_nat (v_line_pos self))); simpl;
      [lia | lia | apply Hwf | apply Hwf]. }
  intros [] ? ->. simpl.
  eapply does_weaken.
  { apply (play_current_column_does _ (Z.to_nat ((v_line_pos self + 1) mod 10)));
      simpl; [exact Hfile | lia | lia | apply Hwf | apply Hwf | apply Hwf]. }
  simpl. intros self' evs (srcs & evs_voices & evs_mix & slot & -> & -> & Hn & Hv & Hm).
  by exists cam', evs_hue, srcs, evs_voices, evs_mix, slot.
Qed.

Lemma on_timer_paused {F : Files} (fr : frame) (self : SoundGrid) (w : World) :
  playing self = false → on_timer fr self w = Return self w.
Proof. intros Hp. unfold on_timer. by rewrite Hp. Qed.

Lemma is_hue_effect_not_mix (e : effect) : is_hue_effect e → ¬ is_mix e.
Proof. destruct e as [o d| | | | | | | | | | |]; simpl; try tauto. destruct d; tauto. Qed.

Lemma is_voice_effect_not_stop (e : effect) : is_voice_effect e → ∀ o, e ≠ EStop o.
Proof. by destruct e. Qed.

Lemma fader_stop_not_mix (slot : option (option (obj * obj))) :
  Forall (fun e => ¬ is_mix e) (fader_stop slot).
Proof. destruct slot as [[[??]|]|]; repeat constructor; tauto. Qed.

(** C7: a tick of the playing sequencer never raises.  With [n] the number
    of cells of the new current column that are not off: if [n >= 1] the
    tick builds one mixer over [n] voices, sets its gain to [0.5 / n] and
    only then builds the compressor and the fader on it, and stores the
    result as the column's voice; if [n = 0] it builds no mixer at all and
    sets the column's voice to [None], so [0.5 / n] is not evaluated. *)
Theorem on_timer_column_gain (fr : frame) (self : SoundGrid) (w : World) :
  wf self → playing self = true →
  ∃ self' w' evs,
    on_timer fr self w = Return self' w' ∧
    log w' = log w ++ evs ∧
    let cur := Z.to_nat ((v_line_pos self + 1) mod 10) in
    let n := active_in_column (current_instruments self) cur in
    v_line_pos self' = Z.of_nat cur ∧
    ((1 <= n)%nat →
       ∃ srcs mixed compressed final_fader final_out evs0,
         length srcs = n ∧
         evs = evs0 ++
               [ENew mixed (Mix srcs 2);
                ESetMul mixed (0.5 / inject_Z (Z.of_nat n))%Q;
                ENew compressed (Compress mixed (-6) 20 0.01 0.1);
                ENew final_fader (Fader 0.05 0.2 1.0);
                EPlay final_fader;
                ENew final_out (Mul compressed final_fader);
                EOut final_out] ∧
         column_mixers self' !! cur = Some (Some (final_out, final_fader))) ∧
    (n = 0%nat →
       column_mixers self' !! cur = Some None ∧
       Forall (fun e => ¬ is_mix e) evs).
Proof.
  intros Hwf Hplay.
  destruct (on_timer_does fr self eq_refl Hwf Hplay w)
    as (self' & w' & evs & Hrun & Hlog & cam' & evs_hue & srcs & evs_voices & evs_mix
        & slot & -> & -> & Hinv & Hhue & Hstops & Hn & Hv & Hm).
  pose proof (Z.mod_pos_bound (v_line_pos self + 1) 10 eq_refl) as Hcur.
  eexists _, w', _. split; [exact Hrun|]. split; [exact Hlog|]. cbv zeta.
  split; [simpl; lia|]. split.
  - intros Hpos. destruct srcs as [|src srcs]; [simpl in Hn; lia|].
    destruct Hm as (mixed & compressed & final_fader & final_out & -> & ->).
    exists (src :: srcs), mixed, compressed, final_fader, final_out,
      (evs_hue ++ fader_stop (column_mixers self !! Z.to_nat (v_line_pos self))
       ++ evs_voices).
    split; [done|]. split.
    + unfold mix_effects. rewrite Hn. by rewrite <- !app_assoc.
    + simpl. apply list_lookup_insert_eq. rewrite (wf_columns _ Hwf). lia.
  - intros Hzero. rewrite Hzero in Hn. destruct srcs; [|done].
    destruct Hm as (-> & -> & ->). split.
    + simpl. apply list_lookup_insert_eq. rewrite (wf_columns _ Hwf). lia.
    + rewrite !app_nil_r. apply Forall_app. split; [|apply fader_stop_not_mix].
      eapply Forall_impl; [exact Hhue|]. apply is_hue_effect_not_mix.
Qed.

Lemma on_timer_column_gain_witness :
  ∃ self' w' evs,
    on_timer (Some [27%Q]) session_self session_world = Return self' w' ∧
    log w' = log session_world ++ evs ∧
    let cur := Z.to_nat ((v_line_pos session_self + 1) mod 10) in
    let n := active_in_column (current_instruments session_self) cur in
    v_line_pos self' = Z.of_nat cur ∧
    ((1 <= n)%nat →
       ∃ srcs mixed compressed final_fader final_out evs0,
         length srcs = n ∧
         evs = evs0 ++
               [ENew mixed (Mix srcs 2);
                ESetMul mixed (0.5 / inject_Z (Z.of_nat n))%Q;
                ENew compressed (Compress mixed (-6) 20 0.01 0.1);
                ENew final_fader (Fader 0.05 0.2 1.0);
                EPlay final_fader;
                ENew final_out (Mul compressed final_fader);
                EOut final_out] ∧
         column_mixers self' !! cur = Some (Some (final_out, final_fader))) ∧
    (n = 0%nat →
       column_mixers self' !! cur = Some None ∧
       Forall (fun e => ¬ is_mix e) evs).
Proof.
  apply (on_timer_column_gain (Some [27%Q]) session_self session_world);
    [exact session_self_wf | reflexivity].
Defined.

(** C5 (as amended): on a tick that moves the step from [prev] to [cur], if
    column [prev] holds a voice, its fader is stopped (which starts its
    fade-out) and nothing else of that voice is: every stop the tick sends
    is either that one or a stop of the hue voice the window holds (its
    reverb or its oscillator).  The stored voice of column [prev] is kept as
    it is, until that column next becomes the current step and its slot is
    overwritten.  The only slot of [column_mixers] that the tick changes is
    that of [cur], which differs from [prev]. *)
Theorem on_timer_previous_column (fr : frame) (self : SoundGrid) (w : World) :
  wf self → playing self = true →
  ∃ self' w' evs slot evs_hue evs_new,
    on_timer fr self w = Return self' w' ∧
    log w' = log w ++ evs ∧
    let prev := Z.to_nat (v_line_pos self) in
    let cur := Z.to_nat ((v_line_pos self + 1) mod 10) in
    prev_line_pos self' = Z.of_nat prev ∧
    v_line_pos self' = Z.of_nat cur ∧
    prev ≠ cur ∧
    column_mixers self' = <[cur := slot]> (column_mixers self) ∧
    (∀ col, col ≠ cur → column_mixers self' !! col = column_mixers self !! col) ∧
    evs = evs_hue ++ fader_stop (column_mixers self !! prev) ++ evs_new ∧
    Forall is_hue_effect evs_hue ∧
    Forall (fun e => ∀ o, e ≠ EStop o) evs_new ∧
    (∀ o, EStop o ∈ evs →
       EStop o ∈ hue_stop_effects (camera_mgr self) ∨
       EStop o ∈ fader_stop (column_mixers self !! prev)) ∧
    (∀ final_out final_fader,
       column_mixers self !! prev = Some (Some (final_out, final_fader)) →
       EStop final_fader ∈ evs ∧
       column_mixers self' !! prev = Some (Some (final_out, final_fader))).
Proof.
  intros Hwf Hplay.
  destruct (on_timer_does fr self eq_refl Hwf Hplay w)
    as (self' & w' & evs & Hrun & Hlog & cam' & evs_hue & srcs & evs_voices & evs_mix
        & slot & -> & -> & Hinv & Hhue & Hstops & Hn & Hv & Hm).
  pose proof (Z.mod_pos_bound (v_line_pos self + 1) 10 eq_refl) as Hcur.
  pose proof (wf_line _ Hwf) as Hline.
  assert (Z.to_nat (v_line_pos self) ≠ Z.to_nat ((v_line_pos self + 1) mod 10)) as Hne.
  { intros Heq. apply Z2Nat.inj in Heq; [|lia|lia].
    revert Heq. Z.div_mod_to_equations. lia. }
  eexists _, w', _, slot, evs_hue, (evs_voices ++ evs_mix).
  split; [exact Hrun|]. split; [exact Hlog|]. cbv zeta. simpl.
  split; [lia|]. split; [lia|]. split; [done|]. split; [done|]. split.
  { intros col Hcol. by rewrite list_lookup_insert_ne. }
  assert (Forall (fun e => ∀ o, e ≠ EStop o) (evs_voices ++ evs_mix)) as Hnew.
  { apply Forall_app. split.
    - eapply Forall_impl; [exact Hv|]. apply is_voice_effect_not_stop.
    - destruct srcs as [|src srcs].
      + destruct Hm as (_ & -> & _). constructor.
      + destruct Hm as (? & ? & ? & ? & -> & _). by repeat constructor. }
  split; [done|]. split; [done|]. split; [exact Hnew|]. split.
  { intros o Hin. rewrite !elem_of_app in Hin.
    destruct Hin as [Hin | [Hin | Hin]]; [left; by apply Hstops | by right |].
    rewrite <- elem_of_app in Hin.
    by destruct (proj1 (Forall_forall _ _) Hnew _ Hin o). }
  intros final_out final_fader Hprev. split.
  - rewrite Hprev, !elem_of_app. right. left. simpl. by left.
  - by rewrite list_lookup_insert_ne.
Qed.

Lemma on_timer_previous_column_witness :
  ∃ self' w' evs slot evs_hue evs_new,
    on_timer (Some [27%Q]) session_self session_world = Return self' w' ∧
    log w' = log session_world ++ evs ∧
    let prev := Z.to_nat (v_line_pos session_self) in
    let cur := Z.to_nat ((v_line_pos session_self + 1) mod 10) in
    prev_line_pos self' = Z.of_nat prev ∧
    v_line_pos self' = Z.of_nat cur ∧
    prev ≠ cur ∧
    column_mixers self' = <[cur := slot]> (column_mixers session_self) ∧
    (∀ col, col ≠ cur →
       column_mixers self' !! col = column_mixers session_self !! col) ∧
    evs = evs_hue ++ fader_stop (column_mixers session_self !! prev) ++ evs_new ∧
    Forall is_hue_effect evs_hue ∧
    Forall (fun e => ∀ o, e ≠ EStop o) evs_new ∧
    (∀ o, EStop o ∈ evs →
       EStop o ∈ hue_stop_effects (camera_mgr session_self) ∨
       EStop o ∈ fader_stop (column_mixers session_self !! prev)) ∧
    (∀ final_out final_fader,
       column_mixers session_self !! prev = Some (Some (final_out, final_fader)) →
       EStop final_fader ∈ evs ∧
       column_mixers self' !! prev = Some (Some (final_out, final_fader))).
Proof.
  apply (on_timer_previous_column (Some [27%Q]) session_self session_world);
    [exact session_self_wf | reflexivity].
Defined.

(** C5, the claim as stated fails: in the session above the step is at
    column 1, which holds the voice (16, 15).  The next tick moves the step
    to column 2 and stops fader 15, but column 1 still holds (16, 15)
    afterwards: its stored reference is not released. *)
Lemma on_timer_keeps_previous_reference :
  ∃ self' w',
    on_timer (Some [27%Q]) session_self session_world = Return self' w' ∧
    v_line_pos session_self = 1%Z ∧
    v_line_pos self' = 2%Z ∧
    column_mixers session_self !! 1%nat = Some (Some (16, 15)%nat) ∧
    EStop 15%nat ∈ drop (length (log session_world)) (log w') ∧
    column_mixers self' !! 1%nat = Some (Some (16, 15)%nat) ∧
    column_mixers self' !! 1%nat ≠ Some None.
Proof.
  eexists _, _. split; [vm_compute; reflexivity|].
  repeat split; try reflexivity; try done.
  simpl. rewrite !elem_of_cons. auto 10.
Qed.

(** ** Every handler keeps the window well-formed *)

Lemma does_for_each_quiet {A} (P : effect → Prop) (body : A → M unit) (l : list A) :
  (∀ a, does (body a) (fun _ evs => Forall P evs)) →
  does (for_each l (fun a _ => body a) tt) (fun _ evs => Forall P evs).
Proof.
  intros Hbody. eapply does_weaken.
  - apply (does_for_each (fun a (_ : unit) => body a) (fun _ _ evs => Forall P evs));
      [done|].
    intros i a [] evs _ Hevs. eapply does_weaken; [apply Hbody|].
    intros ? evs' Hevs'. by apply Forall_app.
  - by intros ? evs Hevs.
Qed.

Lemma wf_set_instrument_loops (self : SoundGrid)
    (loops : gmap string (option (obj * obj))) :
  wf self →
  (∀ name, is_Some (instrument_loops self !! name) → is_Some (loops !! name)) →
  wf (set_instrument_loops loops self).
Proof. intros [] Hl. constructor; simpl; auto. Qed.

Lemma on_instrument_button_down_does {F : Files} (l : string) (self : SoundGrid) :
  sample_ok self →
  wf self → l ∈ INSTRUMENT_NAMES →
  does (on_instrument_button_down l self)
    (fun self' evs => wf self' ∧ Forall call_ok evs).
Proof.
  intros Hfile Hwf Hl. unfold on_instrument_button_down.
  destruct (wf_loops _ Hwf l Hl) as [[inst|] Hslot]; rewrite Hslot.
  - by apply does_ret.
  - eapply does_bind; [by apply create_with_settings_does|].
    intros inst evs (evs' & -> & Hbuild). apply does_emit_then, does_ret. split.
    + apply wf_set_instrument_loops; [done|]. intros name Hname.
      destruct (decide (name = l)) as [->|Hne].
      * rewrite lookup_insert_eq. by eexists.
      * by rewrite lookup_insert_ne.
    + apply Forall_app. split; [|by repeat constructor].
      constructor; [simpl; apply Qle_refl | by apply is_build_call_ok].
Qed.

Lemma on_instrument_button_up_does (l : string) (self : SoundGrid) :
  wf self →
  does (on_instrument_button_up l self)
    (fun self' evs => wf self' ∧ Forall call_ok evs).
Proof.
  intros Hwf. unfold on_instrument_button_up.
  destruct (instrument_loops self !! l) as [[[source fader]|]|] eqn:Hslot;
    try by apply does_ret.
  apply does_emit_then, does_emit_then, does_ret. split; [|by repeat constructor].
  apply wf_set_instrument_loops; [done|]. intros name Hname.
  destruct (decide (name = l)) as [->|Hne].
  - rewrite lookup_insert_eq. by eexists.
  - by rewrite lookup_insert_ne.
Qed.

Lemma stop_effects_call_ok (slots : list (option (obj * obj))) :
  Forall call_ok (concat (map stop_effects slots)).
Proof.
  induction slots as [|[[??]|] slots IH]; simpl; [done| |done].
  by repeat constructor.
Qed.

Lemma hue_stop_effects_call_ok (cam : CameraManager) :
  Forall call_ok (hue_stop_effects cam).
Proof.
  unfold hue_stop_effects.
  destruct (hue_oscillator cam); [destruct (hue_reverb_effect cam)|];
    by repeat constructor.
Qed.

Lemma on_play_pause_does (self : SoundGrid) :
  wf self →
  does (on_play_pause self) (fun self' evs => wf self' ∧ Forall call_ok evs).
Proof.
  intros Hwf. unfold on_play_pause. destruct (playing self) eqn:Hp; simpl.
  - eapply does_bind; [apply stop_hue_oscillator_does|].
    intros cam evs1 (Hnone & Hinv & ->).
    apply does_emit_then.
    eapply does_bind; [apply stop_columns_does; apply Hwf|].
    intros s evs2 [-> ->].
    eapply does_bind; [apply stop_oscillators_does|].
    intros [] evs3 ->. apply does_ret. split.
    + destruct Hwf. by constructor.
    + rewrite app_nil_r. apply Forall_app. split; [apply hue_stop_effects_call_ok|].
      constructor; [done|].
      apply Forall_app. split; apply stop_effects_call_ok.
  - apply does_emit_then, does_ret. split; [|by repeat constructor].
    destruct Hwf. by constructor.
Qed.

Lemma set_pair_mul_does (v : Q) (slot : option (obj * obj)) :
  does (set_pair_mul v slot) (fun _ evs => Forall call_ok evs).
Proof.
  destruct slot as [[source fader]|]; [|by apply does_ret].
  apply does_emit. by repeat constructor.
Qed.

Lemma on_volume_change_does (value : Z) (self : SoundGrid) :
  wf self →
  does (on_volume_change value self) (fun self' evs => wf self' ∧ Forall call_ok evs).
Proof.
  intros Hwf. unfold on_volume_change.
  eapply does_bind.
  { apply (does_for_each_quiet call_ok
             (fun row => for_each row
                (fun osc _ => set_pair_mul (volume (set_volume _ self)) osc) tt)).
    intros row. apply (does_for_each_quiet call_ok). apply set_pair_mul_does. }
  intros [] evs1 Hevs1.
  eapply does_bind.
  { apply (does_for_each_quiet call_ok
             (fun name => match instrument_loops (set_volume _ self) !! name with
                          | Some inst => set_pair_mul (volume (set_volume _ self)) inst
                          | None => ret tt
                          end)).
    intros name. destruct (_ !! name); [apply set_pair_mul_does | by apply does_ret]. }
  intros [] evs2 Hevs2. apply does_ret. split.
  - destruct Hwf. by constructor.
  - rewrite app_nil_r. by apply Forall_app.
Qed.

Lemma on_close_does (self : SoundGrid) :
  wf self →
  does (on_close self) (fun self' evs => wf self' ∧ Forall call_ok evs).
Proof.
  intros Hwf. unfold on_close, release.
  eapply does_bind with (R1 := fun cam evs => cam = camera_mgr self ∧ Forall call_ok evs).
  { apply does_emit_then, does_ret. by repeat constructor. }
  intros ? evs1 [-> Hevs1].
  eapply does_bind; [apply stop_hue_oscillator_does|].
  intros cam evs2 (Hnone & Hinv & ->). apply does_ret. split.
  - destruct Hwf as [? ? ? ? ? ? ? Hidle ?]. constructor; simpl; try done.
    intros Hp. by destruct (Hidle Hp).
  - rewrite app_nil_r. apply Forall_app. split; [done|apply hue_stop_effects_call_ok].
Qed.

Lemma on_toggle_wf {F : Files} (y x : Z) (self : SoundGrid) :
  sample_ok self →
  wf self → (0 <= y < 10)%Z → (0 <= x < 10)%Z →
  does (on_toggle y x self) (fun self' evs => wf self' ∧ Forall call_ok evs).
Proof.
  intros Hfile Hwf Hy Hx w.
  destruct (grid_shape_cell _ (Z.to_nat y) (Z.to_nat x) (wf_current _ Hwf))
    as (row & c & Hrow & _ & Hc); [lia|lia|].
  destruct (on_toggle_cell self w (Z.to_nat y) (Z.to_nat x) c Hwf Hfile)
    as (self' & w' & evs & Hrun & Hlog & Hok & Hwf' & _); [lia | lia | |].
  { unfold cell. by rewrite Hrow. }
  rewrite !Z2Nat.id in Hrun by lia. by exists self', w', evs.
Qed.

Lemma on_timer_wf {F : Files} (fr : frame) (self : SoundGrid) :
  sample_ok self →
  wf self →
  does (on_timer fr self) (fun self' evs => wf self' ∧ Forall call_ok evs).
Proof.
  intros Hfile Hwf. destruct (playing self) eqn:Hplay.
  - eapply does_weaken; [by apply on_timer_does|].
    intros self' evs (cam' & evs_hue & srcs & evs_voices & evs_mix & slot
                      & -> & -> & Hinv & Hhue & Hstops & Hn & Hv & Hm).
    pose proof (Z.mod_pos_bound (v_line_pos self + 1) 10 eq_refl) as Hcur.
    pose proof (wf_line _ Hwf) as Hline.
    split.
    + destruct Hwf. constructor; simpl; try done; try lia.
      * by rewrite length_insert.
      * by rewrite Hplay.
    + apply Forall_app. split.
      { eapply Forall_impl; [exact Hhue|]. intros [o []| | | | | | | | | | |]; done. }
      apply Forall_app. split.
      { destruct (column_mixers self !! _) as [[[??]|]|]; by repeat constructor. }
      apply Forall_app. split.
      { eapply Forall_impl; [exact Hv|]. by intros []. }
      destruct srcs as [|src srcs].
      * destruct Hm as (_ & -> & _). constructor.
      * destruct Hm as (? & ? & ? & ? & -> & _). by repeat constructor.
  - intros w. exists self, w, []. rewrite on_timer_paused by done.
    by rewrite app_nil_r.
Qed.

Lemma sample_ok_present {F : Files} (self : SoundGrid) :
  samples_present → selected_sample self ∈ samples_list → sample_ok self.
Proof. intros Hall Hsel. by apply (proj1 (Forall_forall _ _) Hall). Qed.

Lemma all_readable_samples_present : @samples_present all_readable.
Proof. unfold samples_present, samples_list. by repeat constructor. Qed.

Lemma SoundGrid_init_sample : selected_sample SoundGrid_init ∈ samples_list.
Proof. by apply (list_elem_of_lookup_2 _ 0%nat). Qed.

Lemma handle_does {F : Files} (ev : event) (self : SoundGrid) :
  sample_ok self →
  wf self → valid_event ev →
  does (handle ev self) (fun self' evs => wf self' ∧ Forall call_ok evs).
Proof.
  intros Hfile Hwf Hev. destruct ev; simpl in *.
  - by apply on_instrument_button_down_does.
  - by apply on_instrument_button_up_does.
  - destruct Hev. by apply on_toggle_wf.
  - by apply on_play_pause_does.
  - eapply does_weaken; [by apply on_clear_all_does|].
    intros self' evs (Hwf' & _ & _ & _ & _ & _ & _ & ->). split; [done|].
    apply Forall_app. split; [|apply stop_effects_call_ok].
    destruct (playing self); [|done].
    apply Forall_app. split; [apply hue_stop_effects_call_ok|].
    constructor; [done|]. apply Forall_app. split; apply stop_effects_call_ok.
  - by apply on_volume_change_does.
  - unfold on_speed_change.
    eapply does_bind with (R1 := fun _ evs => Forall call_ok evs).
    { apply does_when; [|done]. intros _. apply does_emit. by repeat constructor. }
    intros [] evs Hevs. apply does_ret. rewrite app_nil_r. split; [|done].
    destruct Hwf. by constructor.
  - unfold on_sample_choice.
    destruct (getitem_Z_in_range samples_list idx) as (sample & _ & Hsample);
      [simpl; lia|].
    step_pure sample ltac:(apply Hsample).
    apply does_ret. split; [|done]. destruct Hwf. by constructor.
  - apply does_ret. split; [|done]. destruct Hwf. by constructor.
  - apply does_ret. split; [|done]. destruct Hwf. by constructor.
  - apply does_ret. split; [|done]. destruct Hwf. by constructor.
  - apply does_ret. split; [|done]. destruct Hwf. by constructor.
  - apply does_ret. split; [|done]. destruct Hwf. by constructor.
  - apply does_ret. split; [|done]. destruct Hwf. by constructor.
  - apply does_ret. split; [|done]. destruct Hwf. by constructor.
  - by apply on_timer_wf.
  - by apply on_close_does.
Qed.

(** The two grids and the selected sample after [on_clear_all]. *)
Lemma on_clear_all_sample (self : SoundGrid) :
  wf self →
  does (on_clear_all self)
    (fun self' _ => selected_sample self' = selected_sample self).
Proof.
  intros Hwf. unfold on_clear_all.
  eapply does_bind with
    (R1 := fun s _ => selected_sample s = selected_sample self ∧
                      current_instruments s = current_instruments self ∧
                      oscillators s = oscillators self).
  - destruct (playing self); [|by apply does_ret].
    eapply does_bind; [apply stop_hue_oscillator_does|].
    intros cam evs1 _. apply does_emit_then.
    eapply does_bind; [apply stop_columns_does; apply Hwf|].
    intros s evs2 [-> _].
    eapply does_bind; [apply stop_oscillators_does|].
    intros [] evs3 _. by apply does_ret.
  - intros s evs1 (Hsel & Hci & Hosc). eapply does_weaken.
    + apply clear_grid_does; [rewrite Hci | rewrite Hosc]; apply Hwf.
    + by intros s' evs [-> _].
Qed.

(** The selected sample stays one of the eight the window offers. *)
Lemma handle_sample {F : Files} (ev : event) (self : SoundGrid) :
  sample_ok self → wf self → valid_event ev →
  selected_sample self ∈ samples_list →
  does (handle ev self) (fun self' _ => selected_sample self' ∈ samples_list).
Proof.
  intros Hfile Hwf Hev Hsel. destruct ev; simpl in *.
  - unfold on_instrument_button_down.
    destruct (wf_loops _ Hwf _ Hev) as [[inst|] Hslot]; rewrite Hslot.
    + by apply does_ret.
    + eapply does_bind; [by apply create_with_settings_does|].
      intros inst evs _. apply does_emit_then, does_ret. exact Hsel.
  - unfold on_instrument_button_up.
    destruct (instrument_loops self !! instrument_label) as [[[source fader]|]|];
      try by apply does_ret.
    apply does_emit_then, does_emit_then, does_ret. exact Hsel.
  - destruct Hev as [Hy Hx]. intros w.
    destruct (grid_shape_cell _ (Z.to_nat y) (Z.to_nat x) (wf_current _ Hwf))
      as (row & c & Hrow & _ & Hc); [lia|lia|].
    destruct (on_toggle_cell self w (Z.to_nat y) (Z.to_nat x) c Hwf Hfile)
      as (self' & w' & evs & Hrun & Hlog & _ & _ & Hsel' & _); [lia | lia | |].
    { unfold cell. by rewrite Hrow. }
    rewrite !Z2Nat.id in Hrun by lia. exists self', w', evs. by rewrite Hsel'.
  - unfold on_play_pause. destruct (playing self); simpl.
    + eapply does_bind; [apply stop_hue_oscillator_does|].
      intros cam evs1 _. apply does_emit_then.
      eapply does_bind; [apply stop_columns_does; apply Hwf|].
      intros s evs2 [-> _].
      eapply does_bind; [apply stop_oscillators_does|].
      intros [] evs3 _. apply does_ret. exact Hsel.
    + apply does_emit_then, does_ret. exact Hsel.
  - eapply does_weaken; [by apply on_clear_all_sample|].
    intros self' evs Heq. by rewrite Heq.
  - unfold on_volume_change.
    eapply does_bind.
    { apply (does_for_each_quiet call_ok
               (fun row => for_each row
                  (fun osc _ => set_pair_mul (volume (set_volume _ self)) osc) tt)).
      intros row. apply (does_for_each_quiet call_ok). apply set_pair_mul_does. }
    intros [] evs1 _.
    eapply does_bind.
    { apply (does_for_each_quiet call_ok
               (fun name => match instrument_loops (set_volume _ self) !! name with
                            | Some inst => set_pair_mul (volume (set_volume _ self)) inst
                            | None => ret tt
                            end)).
      intros name. destruct (_ !! name); [apply set_pair_mul_does | by apply does_ret]. }
    intros [] evs2 _. apply does_ret. exact Hsel.
  - unfold on_speed_change.
    eapply does_bind with (R1 := fun _ _ => True).
    { apply does_when; [|done]. intros _. by apply does_emit. }
    intros [] evs _. apply does_ret. exact Hsel.
  - unfold on_sample_choice.
    destruct (getitem_Z_in_range samples_list idx) as (sample & Hin & Hsample);
      [simpl; lia|].
    step_pure sample ltac:(apply Hsample).
    apply does_ret. simpl. by eapply list_elem_of_lookup_2.
  - apply does_ret. exact Hsel.
  - apply does_ret. exact Hsel.
  - apply does_ret. exact Hsel.
  - apply does_ret. exact Hsel.
  - apply does_ret. exact Hsel.
  - apply does_ret. exact Hsel.
  - apply does_ret. exact Hsel.
  - destruct (playing self) eqn:Hplay.
    + eapply does_weaken; [by apply on_timer_does|].
      intros self' evs (cam' & evs_hue & srcs & evs_voices & evs_mix & slot
                        & _ & -> & _). exact Hsel.
    + intros w. exists self, w, []. rewrite on_timer_paused by done.
      by rewrite app_nil_r.
  - unfold on_close, release.
    eapply does_bind with (R1 := fun _ _ => True).
    { by apply does_emit_then, does_ret. }
    intros ? evs1 _.
    eapply does_bind; [apply stop_hue_oscillator_does|].
    intros cam evs2 _. apply does_ret. exact Hsel.
Qed.

Lemma run_does {F : Files} (evs : list event) (self : SoundGrid) :
  samples_present → selected_sample self ∈ samples_list →
  wf self → Forall valid_event evs →
  does (run evs self) (fun self' effs => wf self' ∧ Forall call_ok effs).
Proof.
  intros Hall Hsel Hwf Hevs. unfold run. eapply does_weaken.
  - apply (does_for_each handle
             (fun _ s effs => wf s ∧ Forall call_ok effs ∧
                              selected_sample s ∈ samples_list));
      [done|].
    intros i ev s effs Hi (Hwfs & Heffs & Hsels).
    pose proof (sample_ok_present s Hall Hsels) as Hfile.
    pose proof (Forall_lookup_1 _ _ _ _ Hevs Hi) as Hev.
    eapply does_weaken.
    + apply does_and; [by apply handle_does | by apply handle_sample].
    + intros s' effs' [[? ?] ?]. split; [done|]. split; [|done]. by apply Forall_app.
  - by intros s effs (? & ? & ?).
Qed.

(** Every window the program can reach is well-formed, and no run raises. *)
Lemma reachable_wf (evs : list event) :
  Forall valid_event evs →
  ∃ self w, run evs SoundGrid_init World_init = Return self w ∧ wf self.
Proof.
  intros Hevs.
  destruct (run_does evs SoundGrid_init all_readable_samples_present
              SoundGrid_init_sample SoundGrid_init_wf Hevs World_init)
    as (self & w & _ & Hrun & _ & Hwf & _).
  by exists self, w.
Qed.

(** ** The drum kit *)

(** C10: in every run of the program, from the initial window and over any
    events the widgets can deliver, no handler raises and every call of
    [create_instrument] is made with a frequency of at least 220 Hz, the
    least frequency of the row table and the frequency of the hold voices;
    so the [drumkit] case always takes its hi-hat branch and never the kick
    or the snare branch. *)
Theorem drumkit_always_hihat (evs : list event) :
  Forall valid_event evs →
  Forall (fun f => (220 <= f)%Q) scale_frequencies ∧
  ∃ self w,
    run evs SoundGrid_init World_init = Return self w ∧
    ∀ instrument freq,
      ECreateInstrument instrument freq ∈ log w →
      (220 <= freq)%Q ∧
      drumkit_case freq = HiHat ∧
      ∀ volume filter_enabled filter_frequency selected_sample,
        create_instrument "drumkit" freq volume filter_enabled filter_frequency
          selected_sample
        = (emit (ECreateInstrument "drumkit" freq) ;;
           let! fader := new (Fader 0.02 0.1 volume) in
           emit (EPlay fader) ;;
           let! osc := drumkit_hihat volume in
           let! source := new (Mul osc fader) in
           let! source :=
             if filter_enabled then new (Biquad source filter_frequency 1 0)
             else ret source in
           ret (source, fader)).
Proof.
  intros Hevs. split; [apply scale_frequencies_low|].
  destruct (run_does evs SoundGrid_init all_readable_samples_present
              SoundGrid_init_sample SoundGrid_init_wf Hevs World_init)
    as (self & w & effs & Hrun & Hlog & _ & Hok).
  exists self, w. split; [done|]. intros instrument freq Hin.
  rewrite Hlog in Hin. simpl in Hin.
  rewrite Forall_forall in Hok. specialize (Hok _ Hin). simpl in Hok.
  assert (drumkit_case freq = HiHat) as Hcase.
  { apply drumkit_case_high. eapply Qle_trans; [|exact Hok]. done. }
  split; [done|]. split; [done|]. intros volume fe ff ss.
  unfold create_instrument. simpl String.eqb. cbv iota. by rewrite Hcase.
Qed.

Lemma session_events_valid : Forall valid_event session_events.
Proof.
  unfold session_events. repeat constructor; simpl; lia.
Qed.

Lemma drumkit_always_hihat_witness :
  Forall (fun f => (220 <= f)%Q) scale_frequencies ∧
  ∃ self w,
    run session_events SoundGrid_init World_init = Return self w ∧
    ∀ instrument freq,
      ECreateInstrument instrument freq ∈ log w →
      (220 <= freq)%Q ∧
      drumkit_case freq = HiHat ∧
      ∀ volume filter_enabled filter_frequency selected_sample,
        create_instrument "drumkit" freq volume filter_enabled filter_frequency
          selected_sample
        = (emit (ECreateInstrument "drumkit" freq) ;;
           let! fader := new (Fader 0.02 0.1 volume) in
           emit (EPlay fader) ;;
           let! osc := drumkit_hihat volume in
           let! source := new (Mul osc fader) in
           let! source :=
             if filter_enabled then new (Biquad source filter_frequency 1 0)
             else ret source in
           ret (source, fader)).
Proof. apply (drumkit_always_hihat session_events session_events_valid). Defined.

(** * Further properties *)

(** ** More on the pitch quantizer *)

Lemma quantize_to_scale_position (freq : Q) :
  ∃ i : nat,
    SCALE_FREQUENCIES !! i = Some (quantize_to_scale freq) ∧
    (∀ (j : nat) (t : Q), SCALE_FREQUENCIES !! j = Some t →
       (Qabs (quantize_to_scale freq - freq) <= Qabs (t - freq))%Q) ∧
    (∀ (j : nat) (t : Q), (j < i)%nat → SCALE_FREQUENCIES !! j = Some t →
       (Qabs (quantize_to_scale freq - freq) < Qabs (t - freq))%Q).
Proof.
  destruct (py_min_position _ Qltb Qltb_irrefl Qltb_trans Qltb_trans_lt_ge
              _ _ (quantize_to_scale_py_min freq)) as (i & Hi & Hmin & Hfirst).
  exists i. split; [done|]. split.
  - intros j t Hj. apply Qltb_ge. eauto.
  - intros j t Hlt Hj. apply Qltb_lt. eauto.
Qed.

(** In a strictly ascending list, a later position holds a larger value. *)
Lemma StronglySorted_Qlt_lookup (l : list Q) (i j : nat) (a b : Q) :
  StronglySorted Qlt l → (i < j)%nat → l !! i = Some a → l !! j = Some b →
  (a < b)%Q.
Proof.
  intros Hs. revert i j. induction Hs as [|x l Hs IH Hx]; intros i j Hij Hi Hj; [done|].
  destruct j as [|j]; [lia|]. simpl in Hj. destruct i as [|i]; simpl in Hi.
  - injection Hi as <-. rewrite Forall_forall in Hx. apply Hx.
    by eapply list_elem_of_lookup_2.
  - apply (IH i j); [lia|done|done].
Qed.

(** Distances to two table values [a < b]: a point that is strictly nearer
    to [b] lies to the right of every point that is at least as near to [a]. *)
Lemma nearer_right_of_nearer_left (a b x y : Q) :
  (a < b)%Q → (Qabs (b - x) < Qabs (a - x))%Q → (Qabs (a - y) <= Qabs (b - y))%Q →
  (y < x)%Q.
Proof.
  intros Hab. revert x y.
  intros x y. apply (Qabs_case (b - x)); apply (Qabs_case (a - x));
    apply (Qabs_case (a - y)); apply (Qabs_case (b - y)); intros; lra.
Qed.

(** X1: on inputs of moderate size the quantizer is monotone: a higher
    input is never quantized to a lower table frequency. *)
Theorem quantize_to_scale_monotone (x y : Q) :
  moderate x → moderate y →
  (x <= y)%Q → (quantize_to_scale x <= quantize_to_scale y)%Q.
Proof.
  intros _ _ Hxy.
  destruct (quantize_to_scale_position x) as (i & Hi & _ & Hfirst).
  destruct (quantize_to_scale_position y) as (j & Hj & Hmin & _).
  destruct (Qlt_le_dec (quantize_to_scale y) (quantize_to_scale x)) as [Hlt|]; [|done].
  exfalso.
  assert (j < i)%nat as Hji.
  { destruct (Nat.lt_trichotomy j i) as [?|[->|Hij]]; [done| |].
    - rewrite Hi in Hj. injection Hj as Heq. rewrite Heq in Hlt.
      by apply Qlt_irrefl in Hlt.
    - pose proof (StronglySorted_Qlt_lookup _ _ _ _ _ SCALE_FREQUENCIES_sorted Hij Hi Hj).
      lra. }
  pose proof (Hfirst j _ Hji Hj) as Hx. pose proof (Hmin i _ Hi) as Hy.
  pose proof (nearer_right_of_nearer_left _ _ _ _ Hlt Hx Hy). lra.
Qed.

Lemma quantize_to_scale_monotone_witness :
  (quantize_to_scale 247 <= quantize_to_scale 300)%Q.
Proof. apply (quantize_to_scale_monotone 247 300); by vm_compute. Defined.

Lemma SCALE_FREQUENCIES_bounds :
  Forall (fun t => (220 <= t <= 587.33)%Q) SCALE_FREQUENCIES.
Proof. unfold SCALE_FREQUENCIES. repeat constructor; by vm_compute. Qed.

(** Two entries of the table with the same value are the same entry. *)
Lemma SCALE_FREQUENCIES_Qeq (a b : Q) :
  a ∈ SCALE_FREQUENCIES → b ∈ SCALE_FREQUENCIES → (a == b)%Q → a = b.
Proof.
  unfold SCALE_FREQUENCIES. intros Ha Hb.
  repeat (apply elem_of_cons in Ha as [-> | Ha]);
    try (by apply elem_of_nil in Ha);
    repeat (apply elem_of_cons in Hb as [-> | Hb]);
    try (by apply elem_of_nil in Hb);
    intros Heq; first [reflexivity | by vm_compute in Heq].
Qed.

Lemma quantize_to_scale_bounds (x : Q) :
  (220 <= quantize_to_scale x <= 587.33)%Q.
Proof.
  pose proof (quantize_to_scale_elem x) as Hin.
  pose proof SCALE_FREQUENCIES_bounds as Hb. rewrite Forall_forall in Hb. auto.
Qed.

(** X2: on inputs of moderate size the quantizer clamps: an input at or
    below the lowest table frequency gives the lowest one, an input at or
    above the highest gives the highest. *)
Theorem quantize_to_scale_clamps (x : Q) :
  moderate x →
  ((x <= 220)%Q → quantize_to_scale x = 220.0%Q) ∧
  ((587.33 <= x)%Q → quantize_to_scale x = 587.33%Q).
Proof.
  intros _.
  destruct (quantize_to_scale_position x) as (i & Hi & Hmin & _).
  pose proof (quantize_to_scale_bounds x) as [Hlo Hhi].
  pose proof (quantize_to_scale_elem x) as Hin.
  split; intros Hx.
  - apply SCALE_FREQUENCIES_Qeq;
      [done | by apply (list_elem_of_lookup_2 _ 0%nat) |].
    pose proof (Hmin 0%nat 220.0%Q eq_refl) as H. revert H.
    apply (Qabs_case (quantize_to_scale x - x)); apply (Qabs_case (220.0 - x));
      intros; lra.
  - apply SCALE_FREQUENCIES_Qeq;
      [done | by apply (list_elem_of_lookup_2 _ 9%nat) |].
    pose proof (Hmin 9%nat 587.33%Q eq_refl) as H. revert H.
    apply (Qabs_case (quantize_to_scale x - x)); apply (Qabs_case (587.33 - x));
      intros; lra.
Qed.

Lemma quantize_to_scale_clamps_witness :
  quantize_to_scale 100 = 220.0%Q ∧ quantize_to_scale 1000 = 587.33%Q.
Proof.
  split.
  - apply (proj1 (quantize_to_scale_clamps 100 ltac:(by vm_compute))). done.
  - apply (proj2 (quantize_to_scale_clamps 1000 ltac:(by vm_compute))). done.
Defined.

(** X3: the fixed points of the quantizer are exactly the table
    frequencies: an input is returned unchanged (as a number) if and only
    if it equals an entry of the table. *)
Theorem quantize_to_scale_fixed_points (x : Q) :
  (quantize_to_scale x == x)%Q ↔ Exists (Qeq x) SCALE_FREQUENCIES.
Proof.
  rewrite Exists_exists. split.
  - intros Heq. exists (quantize_to_scale x).
    split; [apply quantize_to_scale_elem | by symmetry].
  - intros (t & Hin & Heq).
    destruct (quantize_to_scale_position x) as (i & Hi & Hmin & _).
    apply list_elem_of_lookup_1 in Hin as [j Hj].
    pose proof (Hmin j t Hj) as H. revert H.
    apply (Qabs_case (quantize_to_scale x - x)); apply (Qabs_case (t - x));
      intros; lra.
Qed.

Lemma Qfmod_bounds (a m : Q) : (0 < m)%Q → (0 <= Qfmod a m < m)%Q.
Proof.
  intros Hm. unfold Qfmod.
  pose proof (Qfloor_le (a / m)) as Hle. pose proof (Qlt_floor (a / m)) as Hlt.
  rewrite inject_Z_plus in Hlt. change (inject_Z 1) with 1%Q in Hlt.
  set (f := inject_Z (Qfloor (a / m))) in *.
  assert (a == m * (a / m))%Q as Ha by (field; lra).
  split.
  - assert (m * f <= m * (a / m))%Q by (apply Qmult_le_l; lra). lra.
  - assert (m * (a / m) < m * (f + 1))%Q by (apply Qmult_lt_l; lra). lra.
Qed.

(** X4: whatever the area of the tracked contour, the raw frequency
    [220 + area % 300] lies in [220, 520) and the target of the hue voice,
    its quantization, lies between 220 and 523.25 Hz: the highest entry of
    the quantizer's table is never a target. *)
Theorem hue_target_range (area : Q) :
  (220 <= 220 + Qfmod area 300 < 520)%Q ∧
  (220 <= quantize_to_scale (220 + Qfmod area 300) <= 523.25)%Q ∧
  quantize_to_scale (220 + Qfmod area 300) ≠ 587.33%Q.
Proof.
  pose proof (Qfmod_bounds area 300 eq_refl) as Hmod.
  set (x := (220 + Qfmod area 300)%Q) in *.
  assert (220 <= x < 520)%Q as Hx by (unfold x; lra).
  split; [done|].
  destruct (quantize_to_scale_position x) as (i & Hi & Hmin & _).
  assert (quantize_to_scale x ≠ 587.33%Q) as Hne.
  { intros Heq. pose proof (Hmin 8%nat 523.25%Q eq_refl) as H. rewrite Heq in H.
    revert H. apply (Qabs_case (587.33 - x)); apply (Qabs_case (523.25 - x));
      intros; lra. }
  split; [|done]. split; [apply quantize_to_scale_bounds|].
  pose proof (quantize_to_scale_elem x) as Hin. unfold SCALE_FREQUENCIES in Hin.
  repeat (apply elem_of_cons in Hin as [Hin | Hin];
          [first [done | rewrite Hin; by vm_compute]|]).
  by apply elem_of_nil in Hin.
Qed.

(** ** More on the hue voice *)

Lemma update_hue_oscillator_step (cam : CameraManager) (target_freq volume reverb : Q)
    (w : World) :
  ∃ cam' w' evs,
    update_hue_oscillator cam target_freq volume reverb w = Return cam' w' ∧
    log w' = log w ++ evs ∧
    current_freq cam'
      = (current_freq cam + (target_freq - current_freq cam) * 0.1)%Q ∧
    frame_counter cam' = frame_counter cam ∧
    is_Some (hue_oscillator cam') ∧
    (∀ osc, hue_oscillator cam = Some osc →
       hue_oscillator cam' = Some osc ∧
       hue_reverb_effect cam' = hue_reverb_effect cam ∧
       count_effects is_set_freq evs
         = (if (frame_counter cam mod 5 =? 0)%Z then 1 else 0)%nat ∧
       count_effects is_set_mul evs = 1%nat).
Proof.
  unfold update_hue_oscillator.
  destruct (hue_oscillator cam) as [osc|] eqn:Ho.
  - destruct (hue_reverb_effect cam) as [rev|] eqn:Hr;
      destruct (frame_counter cam mod 5 =? 0)%Z eqn:Hc;
      eexists _, _, _; (split; [reflexivity|]); simpl;
      (split; [rewrite <- ?app_assoc; reflexivity|]);
      (split; [done|]); (split; [done|]); (split; [by eexists|]);
      intros ? [= <-]; by rewrite ?Hr.
  - eexists _, _, _. split; [reflexivity|]. simpl.
    split; [rewrite <- ?app_assoc; reflexivity|].
    split; [done|]. split; [done|]. split; [by eexists|]. by intros ? [=].
Qed.

(** X5: the smoothing never overshoots.  With the smoothed frequency and
    the target both within the range of the quantizer's table (220 to
    587.33 Hz, where every target and the initial 220 lie), any number of
    calls of [update_hue_oscillator] with the same target leaves
    [current_freq] between its initial value and the target: it never passes
    the target and never moves away from it, and so stays within the range
    of the table.  After at least one call the voice is active. *)
Theorem update_hue_oscillator_bounded
    (k : nat) (cam : CameraManager) (target_freq volume reverb : Q) (w : World) :
  (220 <= current_freq cam <= 587.33)%Q →
  (220 <= target_freq <= 587.33)%Q →
  ∃ cam' w',
    update_hue_oscillator_times k target_freq volume reverb cam w = Return cam' w' ∧
    ((current_freq cam <= target_freq)%Q →
     (current_freq cam <= current_freq cam' <= target_freq)%Q) ∧
    ((target_freq <= current_freq cam)%Q →
     (target_freq <= current_freq cam' <= current_freq cam)%Q) ∧
    (220 <= current_freq cam' <= 587.33)%Q ∧
    (k ≠ 0%nat → is_Some (hue_oscillator cam')).
Proof.
  intros Hcam Htarget.
  assert (∃ cam' w',
            update_hue_oscillator_times k target_freq volume reverb cam w
              = Return cam' w' ∧
            ((current_freq cam <= target_freq)%Q →
             (current_freq cam <= current_freq cam' <= target_freq)%Q) ∧
            ((target_freq <= current_freq cam)%Q →
             (target_freq <= current_freq cam' <= current_freq cam)%Q) ∧
            (k ≠ 0%nat → is_Some (hue_oscillator cam')))
    as (cam' & w' & Hrun & Hup & Hdown & Hact).
  { clear Hcam. unfold update_hue_oscillator_times. revert cam w.
    induction k as [|k IH]; intros cam w.
    - exists cam, w. split; [done|]. split; [intros; lra|]. split; [intros; lra|done].
    - destruct (update_hue_oscillator_step cam target_freq volume reverb w)
        as (cam1 & w1 & evs & Hrun & _ & Hcf & _ & Hact & _).
      destruct (IH cam1 w1) as (cam' & w' & Hrun' & Hup' & Hdown' & Hact').
      exists cam', w'. split.
      { cbn [replicate for_each]. unfold bind. by rewrite Hrun. }
      rewrite Hcf in Hup', Hdown'. split; [|split].
      + intros Hle. assert (current_freq cam
                            + (target_freq - current_freq cam) * 0.1
                            <= target_freq)%Q as H1 by lra.
        specialize (Hup' H1). lra.
      + intros Hge. assert (target_freq
                            <= current_freq cam
                               + (target_freq - current_freq cam) * 0.1)%Q as H1 by lra.
        specialize (Hdown' H1). lra.
      + intros _. destruct k as [|k]; [|by apply Hact'].
        simpl in Hrun'. by injection Hrun' as <- _. }
  exists cam', w'. split; [done|]. split; [done|]. split; [done|]. split; [|done].
  destruct (Qlt_le_dec target_freq (current_freq cam)) as [Hlt | Hle].
  - assert (target_freq <= current_freq cam)%Q as H1 by lra. specialize (Hdown H1). lra.
  - specialize (Hup Hle). lra.
Qed.

Lemma update_hue_oscillator_bounded_witness :
  ∃ cam' w',
    update_hue_oscillator_times 3 523.25 0.5 0.5 CameraManager_init World_init
      = Return cam' w' ∧
    ((current_freq CameraManager_init <= 523.25)%Q →
     (current_freq CameraManager_init <= current_freq cam' <= 523.25)%Q) ∧
    ((523.25 <= current_freq CameraManager_init)%Q →
     (523.25 <= current_freq cam' <= current_freq CameraManager_init)%Q) ∧
    (220 <= current_freq cam' <= 587.33)%Q ∧
    (3%nat ≠ 0%nat → is_Some (hue_oscillator cam')).
Proof.
  apply (update_hue_oscillator_bounded 3 CameraManager_init 523.25 0.5 0.5 World_init);
    by vm_compute.
Defined.

Lemma count_effects_app (p : effect → bool) (l1 l2 : list effect) :
  count_effects p (l1 ++ l2) = (count_effects p l1 + count_effects p l2)%nat.
Proof. induction l1 as [|e l1 IH]; simpl; [done|]. rewrite IH. lia. Qed.

Lemma process_frame_detected (cam : CameraManager) (osc : obj) (fr : frame)
    (target_hue color_sensitivity : Z) (hue_volume hue_reverb : Q) (w : World) :
  hue_oscillator cam = Some osc → has_contour fr →
  ∃ cam' w' evs,
    process_frame cam fr true target_hue color_sensitivity hue_volume hue_reverb w
      = Return cam' w' ∧
    log w' = log w ++ evs ∧
    hue_oscillator cam' = Some osc ∧
    frame_counter cam' = ((frame_counter cam + 1) mod 5)%Z ∧
    count_effects is_set_freq evs
      = (if ((frame_counter cam + 1) mod 5 =? 0)%Z then 1 else 0)%nat ∧
    count_effects is_set_mul evs = 1%nat.
Proof.
  intros Ho (a & contours & ->). unfold process_frame. simpl negb. cbv iota.
  cbn [py_max].
  set (cam1 := mkCameraManager (hue_oscillator cam) (hue_reverb_effect cam)
                 (current_freq cam) ((frame_counter cam + 1) mod 5)).
  set (target := quantize_to_scale _).
  destruct (update_hue_oscillator_step cam1 target hue_volume hue_reverb w)
    as (cam' & w' & evs & Hrun & Hlog & _ & Hfc & _ & Hact).
  destruct (Hact osc Ho) as (Ho' & _ & Hfreq & Hmul).
  exists cam', w', evs. split; [exact Hrun|]. split; [done|]. split; [done|].
  split; [done|]. split; [|done].
  rewrite Hfreq. simpl. by rewrite Z.mod_mod.
Qed.

(** X6: the pitch throttle.  While the voice is active, over any number of
    consecutive frames with a detection the volume is applied once per
    frame, but the smoothed frequency is applied only on the frames on which
    the frame counter wraps to 0, that is once every five frames: with the
    counter at [c] before, [len] frames apply it
    [(c + len) / 5 - c / 5] times. *)
Theorem process_frames_throttle
    (frs : list frame) (target_hue color_sensitivity : Z) (hue_volume hue_reverb : Q)
    (cam : CameraManager) (osc : obj) (w : World) :
  hue_oscillator cam = Some osc → Forall has_contour frs →
  ∃ cam' w' evs,
    process_frames frs true target_hue color_sensitivity hue_volume hue_reverb cam w
      = Return cam' w' ∧
    log w' = log w ++ evs ∧
    hue_oscillator cam' = Some osc ∧
    (frame_counter cam' mod 5
     = (frame_counter cam + Z.of_nat (length frs)) mod 5)%Z ∧
    count_effects is_set_freq evs
      = Z.to_nat ((frame_counter cam + Z.of_nat (length frs)) / 5
                  - frame_counter cam / 5) ∧
    count_effects is_set_mul evs = length frs.
Proof.
  unfold process_frames. revert cam w.
  induction frs as [|fr frs IH]; intros cam w Ho Hfrs.
  - exists cam, w, []. simpl. rewrite app_nil_r, Z.add_0_r, Z.sub_diag. done.
  - inversion Hfrs as [|? ? Hfr Hrest]; subst.
    destruct (process_frame_detected cam osc fr target_hue color_sensitivity
                hue_volume hue_reverb w Ho Hfr)
      as (cam1 & w1 & evs1 & Hrun1 & Hlog1 & Ho1 & Hfc1 & Hfreq1 & Hmul1).
    destruct (IH cam1 w1 Ho1 Hrest)
      as (cam' & w' & evs & Hrun & Hlog & Ho' & Hfc & Hfreq & Hmul).
    exists cam', w', (evs1 ++ evs). split.
    { cbn [for_each]. unfold bind. by rewrite Hrun1. }
    split; [by rewrite Hlog, Hlog1, app_assoc|]. split; [done|].
    rewrite !count_effects_app, Hfreq, Hfreq1, Hmul, Hmul1, Hfc, Hfc1.
    cbn [length]. rewrite Nat2Z.inj_succ.
    generalize (Z.of_nat (length frs)) (Nat2Z.is_nonneg (length frs)).
    generalize (frame_counter cam). intros c k Hk.
    split; [|split; [|done]].
    + Z.div_mod_to_equations. lia.
    + destruct (Z.eqb_spec ((c + 1) mod 5) 0); Z.div_mod_to_equations; lia.
Qed.

Lemma process_frames_throttle_witness :
  ∃ cam' w' evs,
    process_frames [Some [27%Q]; Some [30%Q]; Some [220%Q; 10%Q]] true 50 5 0.5 0.5
      (camera_mgr session_self) session_world = Return cam' w' ∧
    log w' = log session_world ++ evs ∧
    hue_oscillator cam' = Some 6%nat ∧
    (frame_counter cam' mod 5
     = (frame_counter (camera_mgr session_self)
        + Z.of_nat (length [Some [27%Q]; Some [30%Q]; Some [220%Q; 10%Q]])) mod 5)%Z ∧
    count_effects is_set_freq evs
      = Z.to_nat ((frame_counter (camera_mgr session_self)
                   + Z.of_nat (length [Some [27%Q]; Some [30%Q]; Some [220%Q; 10%Q]])) / 5
                  - frame_counter (camera_mgr session_self) / 5) ∧
    count_effects is_set_mul evs
      = length [Some [27%Q]; Some [30%Q]; Some [220%Q; 10%Q]].
Proof.
  apply (process_frames_throttle [Some [27%Q]; Some [30%Q]; Some [220%Q; 10%Q]]
           50 5 0.5 0.5 (camera_mgr session_self) 6%nat session_world).
  - reflexivity.
  - repeat constructor; by eexists _, _.
Defined.

(** ** More on the instrument factory *)

(** The graph a call of the factory builds. *)
Lemma create_instrument_run {F : Files} (instrument : string) (freq volume : Q)
    (filter_enabled : bool) (filter_frequency : Q) (selected_sample : string)
    (w : World) :
  (instrument = "samples" → readable ("samples/" +:+ selected_sample) = true) →
  ∃ source fader w' evs_osc osc product,
    create_instrument instrument freq volume filter_enabled filter_frequency
      selected_sample w = Return (source, fader) w' ∧
    log w' = log w ++
      [ECreateInstrument instrument freq;
       ENew fader (Fader 0.02 0.1 volume);
       EPlay fader] ++
      evs_osc ++
      [ENew product (Mul osc fader)] ++
      (if filter_enabled then [ENew source (Biquad product filter_frequency 1 0)]
       else []) ∧
    Forall is_build evs_osc ∧
    (filter_enabled = false → source = product).
Proof.
  intros Hok. revert w.
  assert (does (create_instrument instrument freq volume filter_enabled
                  filter_frequency selected_sample)
            (fun inst evs =>
               ∃ evs_osc osc product,
                 evs = [ECreateInstrument instrument freq;
                        ENew (snd inst) (Fader 0.02 0.1 volume);
                        EPlay (snd inst)] ++
                       evs_osc ++
                       [ENew product (Mul osc (snd inst))] ++
                       (if filter_enabled
                        then [ENew (fst inst) (Biquad product filter_frequency 1 0)]
                        else []) ∧
                 Forall is_build evs_osc ∧
                 (filter_enabled = false → fst inst = product))) as Hdoes.
  { unfold create_instrument.
    apply does_emit_then, does_new_then. intros fader. apply does_emit_then.
    eapply does_bind with (R1 := fun _ evs => Forall is_build evs).
    { destruct (String.eqb_spec instrument "samples") as [-> | _].
      { cbn [String.eqb Ascii.eqb Bool.eqb]. rewrite Hok by done. build_straight. }
      repeat (match goal with
              | |- context [String.eqb ?a ?b] =>
                  destruct (String.eqb a b); [build_straight|]
              end).
      destruct (String.eqb instrument "drumkit"); [|build_straight].
      destruct (drumkit_case freq); build_straight. }
    intros osc evs_osc Hosc. apply does_new_then. intros product.
    destruct filter_enabled.
    - apply does_new_then. intros source. apply does_ret.
      by exists evs_osc, osc, product.
    - apply does_ret. by exists evs_osc, osc, product. }
  intros w.
  destruct (Hdoes w) as ([source fader] & w' & evs & Hrun & Hlog
                         & evs_osc & osc & product & -> & Hosc & Hsrc).
  exists source, fader, w', evs_osc, osc, product. by rewrite Hlog.
Qed.

(** The ["samples"] instrument opens the selected file after the fader is
    built: when the file cannot be read the call raises. *)
Lemma create_instrument_unreadable {F : Files} (freq volume : Q)
    (filter_enabled : bool) (filter_frequency : Q) (selected_sample : string)
    (w : World) :
  readable ("samples/" +:+ selected_sample) = false →
  create_instrument "samples" freq volume filter_enabled filter_frequency
    selected_sample w = Raise PyoError.
Proof. intros Hfile. unfold create_instrument, bind. simpl. by rewrite Hfile. Qed.

(** X7: whatever the instrument name, and provided that for ["samples"]
    the selected file can be read, [create_instrument] first builds a fader
    with fade-in 20 ms and fade-out 100 ms scaled by the volume and starts
    it, then builds the oscillator part, multiplies it by that fader, and
    returns the product with the fader; with the filter enabled the returned
    signal is instead a low-pass on the product at the filter frequency.  It
    routes nothing to the output and stops nothing. *)
Theorem create_instrument_graph {F : Files} (instrument : string) (freq volume : Q)
    (filter_enabled : bool) (filter_frequency : Q) (selected_sample : string)
    (w : World) :
  (instrument = "samples" → readable ("samples/" +:+ selected_sample) = true) →
  ∃ source fader w' evs_osc osc product,
    create_instrument instrument freq volume filter_enabled filter_frequency
      selected_sample w = Return (source, fader) w' ∧
    log w' = log w ++
      [ECreateInstrument instrument freq;
       ENew fader (Fader 0.02 0.1 volume);
       EPlay fader] ++
      evs_osc ++
      [ENew product (Mul osc fader)] ++
      (if filter_enabled then [ENew source (Biquad product filter_frequency 1 0)]
       else []) ∧
    Forall is_build evs_osc ∧
    (filter_enabled = false → source = product).
Proof. apply create_instrument_run. Qed.

Lemma create_instrument_graph_witness :
  ∃ source fader w' evs_osc osc product,
    @create_instrument only_bass_synth "samples" 440 0.5 true 1000 "bass_synth.wav"
      World_init = Return (source, fader) w' ∧
    log w' = log World_init ++
      [ECreateInstrument "samples" 440;
       ENew fader (Fader 0.02 0.1 0.5);
       EPlay fader] ++
      evs_osc ++
      [ENew product (Mul osc fader)] ++
      (if true then [ENew source (Biquad product 1000 1 0)] else []) ∧
    Forall is_build evs_osc ∧
    (true = false → source = product).
Proof.
  apply (@create_instrument_graph only_bass_synth "samples" 440 0.5 true 1000
           "bass_synth.wav" World_init).
  reflexivity.
Defined.

(** X8: an instrument name that is not in [INSTRUMENT_NAMES] is not an
    error: the call builds what it builds for ["sine"], a sinusoid at the
    requested frequency. *)
Theorem create_instrument_fallback (instrument : string) (freq volume : Q)
    (filter_enabled : bool) (filter_frequency : Q) (selected_sample : string) :
  instrument ∉ INSTRUMENT_NAMES →
  create_instrument instrument freq volume filter_enabled filter_frequency
    selected_sample
  = (emit (ECreateInstrument instrument freq) ;;
     let! fader := new (Fader 0.02 0.1 volume) in
     emit (EPlay fader) ;;
     let! osc := new (Sine freq 1) in
     let! source := new (Mul osc fader) in
     let! source :=
       if filter_enabled then new (Biquad source filter_frequency 1 0)
       else ret source in
     ret (source, fader)).
Proof.
  intros Hnot. unfold create_instrument.
  assert (∀ name, name ∈ INSTRUMENT_NAMES → String.eqb instrument name = false) as Hne.
  { intros name Hin. apply String.eqb_neq. by intros ->. }
  rewrite (Hne "sine") by (by apply (list_elem_of_lookup_2 _ 0%nat)).
  rewrite (Hne "saw") by (by apply (list_elem_of_lookup_2 _ 1%nat)).
  rewrite (Hne "square") by (by apply (list_elem_of_lookup_2 _ 2%nat)).
  rewrite (Hne "samples") by (by apply (list_elem_of_lookup_2 _ 3%nat)).
  rewrite (Hne "mysynth") by (by apply (list_elem_of_lookup_2 _ 4%nat)).
  rewrite (Hne "fm") by (by apply (list_elem_of_lookup_2 _ 5%nat)).
  rewrite (Hne "drumkit") by (by apply (list_elem_of_lookup_2 _ 6%nat)).
  reflexivity.
Qed.

Lemma create_instrument_fallback_witness :
  create_instrument "piano" 440 0.5 false 1000 "bass_synth.wav"
  = (emit (ECreateInstrument "piano" 440) ;;
     let! fader := new (Fader 0.02 0.1 0.5) in
     emit (EPlay fader) ;;
     let! osc := new (Sine 440 1) in
     let! source := new (Mul osc fader) in
     let! source :=
       if false then new (Biquad source 1000 1 0)
       else ret source in
     ret (source, fader)).
Proof.
  apply (create_instrument_fallback "piano" 440 0.5 false 1000 "bass_synth.wav").
  unfold INSTRUMENT_NAMES. intros Hin.
  repeat (apply elem_of_cons in Hin as [Hin | Hin]; [discriminate|]).
  by apply elem_of_nil in Hin.
Defined.

(** ** Calls of the factory in a log *)

Lemma calls_app (a b : list effect) : calls (a ++ b) = calls a ++ calls b.
Proof. apply omap_app. Qed.

Lemma calls_none (P : effect → Prop) (evs : list effect) :
  (∀ name freq, ¬ P (ECreateInstrument name freq)) →
  Forall P evs → calls evs = [].
Proof.
  intros HP. induction 1 as [|e evs He _ IH]; [done|].
  destruct e; try exact IH. by destruct (HP _ _ He).
Qed.

Lemma calls_build (evs : list effect) : Forall is_build evs → calls evs = [].
Proof. apply (calls_none is_build). intros ?? H. exact H. Qed.



(** ** The hold buttons *)

Lemma switch_keeps_on (o : obj) (l : list effect) :
  Forall (fun e => ∀ o', e ≠ EStop o') l → fold_left (switch o) l true = true.
Proof.
  induction 1 as [|e l He _ IH]; [done|]. simpl.
  destruct e; simpl; try done; try (by destruct (Nat.eqb o _)).
  by destruct (He o0).
Qed.

(** After [EPlay o] or [EOut o] followed by effects none of which is a
    stop, [o] is on. *)
Lemma running_started (l pre post : list effect) (o : obj) (e : effect) :
  e = EPlay o ∨ e = EOut o →
  Forall (fun e => ∀ o', e ≠ EStop o') post →
  running (l ++ pre ++ e :: post) o = true.
Proof.
  intros He Hpost. unfold running. rewrite !fold_left_app. simpl.
  assert (switch o (fold_left (switch o) pre (fold_left (switch o) l false)) e = true)
    as ->; [|by apply switch_keeps_on].
  destruct He as [-> | ->]; simpl; by rewrite Nat.eqb_refl.
Qed.

Lemma is_build_not_stop (l : list effect) :
  Forall is_build l → Forall (fun e => ∀ o', e ≠ EStop o') l.
Proof. intros H. eapply Forall_impl; [exact H|]. by intros []. Qed.

Lemma count_call_build (l : list effect) :
  Forall is_build l → count_effects is_call l = 0%nat.
Proof. induction 1 as [|e l He _ IH]; [done|]. simpl. rewrite IH. by destruct e. Qed.

Lemma set_instrument_loops_same (self : SoundGrid) :
  set_instrument_loops (instrument_loops self) self = self.
Proof. by destruct self. Qed.

Lemma on_instrument_button_down_empty {F : Files} (l : string) (self : SoundGrid)
    (w : World) :
  (l = "samples" → sample_ok self) →
  instrument_loops self !! l = Some None →
  ∃ source fader w' evs evs_build,
    on_instrument_button_down l self w
      = Return (set_instrument_loops
                  (<[l := Some (source, fader)]> (instrument_loops self)) self) w' ∧
    log w' = log w ++ evs ∧
    evs = ECreateInstrument l 220 :: evs_build ++ [EOut source] ∧
    Forall is_build evs_build ∧
    (∀ l0, audible (l0 ++ evs) (source, fader) = true) ∧
    (∀ o, EStop o ∉ evs) ∧
    count_effects is_call evs = 1%nat ∧
    ECreateInstrument l 220 ∈ evs.
Proof.
  intros Hfile Hslot. unfold on_instrument_button_down, create_with_settings.
  rewrite Hslot.
  destruct (create_instrument_run l 220 (volume self) (filter_enabled self)
              (inject_Z (filter_frequency self)) (selected_sample self) w Hfile)
    as (source & fader & w1 & evs_osc & osc & product & Hrun & Hlog & Hosc & Hsrc).
  unfold bind. rewrite Hrun. simpl.
  set (tl := [ENew product (Mul osc fader)] ++
             (if filter_enabled self
              then [ENew source (Biquad product (inject_Z (filter_frequency self)) 1 0)]
              else [])) in *.
  assert (Forall is_build tl) as Htl.
  { unfold tl. destruct (filter_enabled self); by repeat constructor. }
  eexists source, fader, _,
    ([ECreateInstrument l 220; ENew fader (Fader 0.02 0.1 (volume self)); EPlay fader]
     ++ evs_osc ++ tl ++ [EOut source]),
    ([ENew fader (Fader 0.02 0.1 (volume self)); EPlay fader] ++ evs_osc ++ tl).
  split; [reflexivity|]. split.
  { simpl. rewrite Hlog. by rewrite <- !app_assoc. }
  split; [simpl; by rewrite <- !app_assoc|]. split.
  { apply Forall_app. split; [by repeat constructor|]. by apply Forall_app. }
  split; [|split; [|split]].
  - intros l0. unfold audible. simpl fst. simpl snd. apply andb_true_iff. split.
    + rewrite !app_assoc. rewrite <- (app_nil_r [EOut source]).
      rewrite <- !app_assoc.
      rewrite (app_assoc _ evs_osc), (app_assoc _ tl).
      by apply (running_started l0 _ [] source (EOut source)); [right|].
    + apply (running_started l0
               [ECreateInstrument l 220; ENew fader (Fader 0.02 0.1 (volume self))]
               (evs_osc ++ tl ++ [EOut source]) fader (EPlay fader)); [by left|].
      apply Forall_app. split; [by apply is_build_not_stop|].
      apply Forall_app. split; [by apply is_build_not_stop|]. by repeat constructor.
  - intros o Hin. rewrite !elem_of_app, !elem_of_cons in Hin.
    pose proof (is_build_not_stop _ Hosc) as H1. pose proof (is_build_not_stop _ Htl) as H2.
    rewrite Forall_forall in H1, H2.
    destruct Hin as [[?|[?|[?|Hin]]]|[Hin|[Hin|[Hin|Hin]]]]; try done.
    + by apply elem_of_nil in Hin.
    + by eapply H1.
    + by eapply H2.
    + by apply elem_of_nil in Hin.
  - by rewrite !count_effects_app, (count_call_build _ Hosc), (count_call_build _ Htl).
  - rewrite elem_of_app. left. apply elem_of_cons. by left.
Qed.

(** X9: pressing a hold button whose slot is empty (for ["samples"],
    provided the selected file can be read) makes exactly one call of
    [create_instrument], with the button's instrument at 220 Hz; apart from
    what that call builds, the press sends one command, routing the returned
    signal to the output.  The voice is stored in the slot and is audible;
    nothing is stopped and nothing else of the window changes.  Pressing the
    same button again while the voice is held does nothing: at most one hold
    voice per instrument exists. *)
Theorem hold_press {F : Files} (l : string) (self : SoundGrid) (w : World) :
  (l = "samples" → sample_ok self) →
  instrument_loops self !! l = Some None →
  ∃ source fader self' w' evs evs_build,
    on_instrument_button_down l self w = Return self' w' ∧
    self' = set_instrument_loops
              (<[l := Some (source, fader)]> (instrument_loops self)) self ∧
    log w' = log w ++ evs ∧
    evs = ECreateInstrument l 220 :: evs_build ++ [EOut source] ∧
    Forall is_build evs_build ∧
    calls evs = [(l, 220%Q)] ∧
    (∀ o, EOut o ∈ evs → o = source) ∧
    audible (log w') (source, fader) = true ∧
    (∀ o, EStop o ∉ evs) ∧
    on_instrument_button_down l self' w' = Return self' w'.
Proof.
  intros Hfile Hslot.
  destruct (on_instrument_button_down_empty l self w Hfile Hslot)
    as (source & fader & w' & evs & evs_build & Hrun & Hlog & Hevs & Hbuild
        & Haud & Hstop & _ & _).
  eexists source, fader, _, w', evs, evs_build. split; [exact Hrun|]. split; [done|].
  split; [done|]. split; [done|]. split; [done|]. split.
  { rewrite Hevs.
    change (calls (ECreateInstrument l 220 :: evs_build ++ [EOut source]))
      with ((l, 220%Q) :: calls (evs_build ++ [EOut source])).
    by rewrite calls_app, (calls_build _ Hbuild). }
  split.
  { intros o Hin. rewrite Hevs in Hin.
    apply elem_of_cons in Hin as [Hin | Hin]; [done|].
    apply elem_of_app in Hin as [Hin | Hin].
    - by destruct (proj1 (Forall_forall _ _) Hbuild _ Hin).
    - apply elem_of_cons in Hin as [[= ->] | Hin]; [done|]. by apply elem_of_nil in Hin. }
  split; [by rewrite Hlog|]. split; [done|].
  unfold on_instrument_button_down. simpl. by rewrite lookup_insert_eq.
Qed.

Lemma hold_press_witness :
  ∃ source fader self' w' evs evs_build,
    @on_instrument_button_down only_bass_synth "samples" session_self session_world
      = Return self' w' ∧
    self' = set_instrument_loops
              (<["samples" := Some (source, fader)]> (instrument_loops session_self))
              session_self ∧
    log w' = log session_world ++ evs ∧
    evs = ECreateInstrument "samples" 220 :: evs_build ++ [EOut source] ∧
    Forall is_build evs_build ∧
    calls evs = [("samples", 220%Q)] ∧
    (∀ o, EOut o ∈ evs → o = source) ∧
    audible (log w') (source, fader) = true ∧
    (∀ o, EStop o ∉ evs) ∧
    @on_instrument_button_down only_bass_synth "samples" self' w' = Return self' w'.
Proof.
  apply (@hold_press only_bass_synth "samples" session_self session_world);
    reflexivity.
Defined.

(** X10: press then release.  From an empty slot (for ["samples"], provided
    the selected file can be read), pressing a hold button and releasing it
    leaves the window exactly as it was.  The press makes one call of
    [create_instrument] and routes the returned signal, and nothing else, to
    the output; the release stops the fader, then that signal, so that the
    voice, audible after the press, is not audible after the release. *)
Theorem hold_press_release {F : Files} (l : string) (self : SoundGrid) (w : World) :
  (l = "samples" → sample_ok self) →
  instrument_loops self !! l = Some None →
  ∃ source fader w' evs evs_build,
    (let! self1 := on_instrument_button_down l self in
     on_instrument_button_up l self1) w = Return self w' ∧
    log w' = log w ++ evs ++ [EStop fader; EStop source] ∧
    evs = ECreateInstrument l 220 :: evs_build ++ [EOut source] ∧
    Forall is_build evs_build ∧
    (∀ o, EOut o ∈ evs → o = source) ∧
    (∀ o, EStop o ∉ evs) ∧
    audible (log w ++ evs) (source, fader) = true ∧
    audible (log w') (source, fader) = false ∧
    running (log w') source = false ∧
    running (log w') fader = false.
Proof.
  intros Hfile Hslot.
  destruct (on_instrument_button_down_empty l self w Hfile Hslot)
    as (source & fader & w1 & evs & evs_build & Hrun & Hlog & Hevs & Hbuild
        & Haud & Hstop & _ & _).
  eexists source, fader, _, evs, evs_build. unfold bind. rewrite Hrun.
  unfold on_instrument_button_up. simpl. rewrite lookup_insert_eq. simpl.
  change (set_instrument_loops ?a (set_instrument_loops ?b self))
    with (set_instrument_loops a self).
  rewrite insert_insert_eq, (insert_id _ _ _ Hslot), set_instrument_loops_same.
  split; [reflexivity|]. simpl. rewrite Hlog.
  split; [by rewrite <- !app_assoc|]. split; [done|]. split; [done|]. split.
  { intros o Hin. rewrite Hevs in Hin.
    apply elem_of_cons in Hin as [Hin | Hin]; [done|].
    apply elem_of_app in Hin as [Hin | Hin].
    - by destruct (proj1 (Forall_forall _ _) Hbuild _ Hin).
    - apply elem_of_cons in Hin as [[= ->] | Hin]; [done|]. by apply elem_of_nil in Hin. }
  split; [done|]. split; [done|].
  assert (running (((log w ++ evs) ++ [EStop fader]) ++ [EStop source]) source = false)
    as Hsource.
  { replace (((log w ++ evs) ++ [EStop fader]) ++ [EStop source])
      with ((log w ++ evs ++ [EStop fader]) ++ [EStop source])
      by (by rewrite <- !app_assoc).
    apply (running_stopped _ [EStop source] source); [by repeat constructor|].
    apply elem_of_cons. by left. }
  assert (running (((log w ++ evs) ++ [EStop fader]) ++ [EStop source]) fader = false)
    as Hfader.
  { rewrite <- app_assoc.
    apply (running_stopped _ [EStop fader; EStop source] fader);
      [by repeat constructor|].
    apply elem_of_cons. by left. }
  split; [|done]. unfold audible. simpl fst. simpl snd. by rewrite Hsource.
Qed.

Lemma hold_press_release_witness :
  ∃ source fader w' evs evs_build,
    (let! self1 := @on_instrument_button_down only_bass_synth "samples" session_self in
     on_instrument_button_up "samples" self1) session_world = Return session_self w' ∧
    log w' = log session_world ++ evs ++ [EStop fader; EStop source] ∧
    evs = ECreateInstrument "samples" 220 :: evs_build ++ [EOut source] ∧
    Forall is_build evs_build ∧
    (∀ o, EOut o ∈ evs → o = source) ∧
    (∀ o, EStop o ∉ evs) ∧
    audible (log session_world ++ evs) (source, fader) = true ∧
    audible (log w') (source, fader) = false ∧
    running (log w') source = false ∧
    running (log w') fader = false.
Proof.
  apply (@hold_press_release only_bass_synth "samples" session_self session_world);
    reflexivity.
Defined.

(** ** Play, pause and volume *)

Lemma stop_hue_oscillator_full (cam : CameraManager) (w : World) :
  ∃ w', stop_hue_oscillator cam w = Return (torn_down cam) w' ∧
        log w' = log w ++ hue_stop_effects cam.
Proof.
  unfold stop_hue_oscillator, torn_down, hue_stop_effects.
  destruct (hue_oscillator cam) as [osc|].
  - destruct (hue_reverb_effect cam) as [rev|]; eexists; (split; [reflexivity|]);
      simpl; by rewrite <- ?app_assoc.
  - eexists. split; [reflexivity|]. by rewrite app_nil_r.
Qed.

Lemma set_playing_same (self : SoundGrid) : set_playing (playing self) self = self.
Proof. by destruct self. Qed.

(** Both branches of [on_play_pause], with all they send. *)
Lemma on_play_pause_run (self : SoundGrid) (w : World) :
  length (column_mixers self) = 10%nat →
  ∃ self' w',
    on_play_pause self w = Return self' w' ∧
    if playing self then
      self' = set_column_mixers (replicate 10 None)
                (set_camera_mgr (torn_down (camera_mgr self))
                   (set_playing false self)) ∧
      log w' = log w ++
        hue_stop_effects (camera_mgr self) ++ [ETimerStop] ++
        concat (map stop_effects (column_mixers self)) ++
        concat (map stop_effects (concat (oscillators self)))
    else
      self' = set_playing true self ∧
      log w' = log w ++ [ETimerStart (speed self)].
Proof.
  intros Hcols. unfold on_play_pause.
  destruct (playing self) eqn:Hp; simpl; [|by eexists _, _].
  destruct (stop_hue_oscillator_full (camera_mgr self) w) as (w1 & Hrun1 & Hlog1).
  unfold bind at 1. simpl. rewrite Hrun1.
  unfold bind at 1. simpl.
  set (self1 := set_camera_mgr _ _). set (w2 := mkWorld _ _).
  destruct (stop_columns_does self1 Hcols w2) as (self2 & w3 & evs2 & Hrun2 & Hlog2 & -> & ->).
  unfold bind at 1. rewrite Hrun2.
  destruct (stop_oscillators_does (set_column_mixers (replicate 10 None) self1) w3)
    as ([] & w4 & evs3 & Hrun3 & Hlog3 & ->).
  unfold bind. rewrite Hrun3. simpl.
  eexists _, w4. split; [reflexivity|]. split; [done|].
  rewrite Hlog3, Hlog2. unfold w2. simpl. rewrite Hlog1. by rewrite <- !app_assoc.
Qed.

(** X12: play/pause.  On a paused window it only sets [playing] and starts
    the timer with the current interval.  On a playing window it tears down
    the hue voice, stops the timer, stops and releases every column voice,
    and stops every cell graph without releasing it; the grid, the cell
    graphs, the hold loops, the step position and the settings stay as they
    are, so that play resumes from the same step. *)
Theorem on_play_pause_effect (self : SoundGrid) (w : World) :
  length (column_mixers self) = 10%nat →
  ∃ self' w',
    on_play_pause self w = Return self' w' ∧
    if playing self then
      self' = set_column_mixers (replicate 10 None)
                (set_camera_mgr (torn_down (camera_mgr self))
                   (set_playing false self)) ∧
      log w' = log w ++
        hue_stop_effects (camera_mgr self) ++ [ETimerStop] ++
        concat (map stop_effects (column_mixers self)) ++
        concat (map stop_effects (concat (oscillators self)))
    else
      self' = set_playing true self ∧
      log w' = log w ++ [ETimerStart (speed self)].
Proof. apply on_play_pause_run. Qed.

Lemma on_play_pause_effect_witness :
  ∃ self' w',
    on_play_pause session_self session_world = Return self' w' ∧
    if playing session_self then
      self' = set_column_mixers (replicate 10 None)
                (set_camera_mgr (torn_down (camera_mgr session_self))
                   (set_playing false session_self)) ∧
      log w' = log session_world ++
        hue_stop_effects (camera_mgr session_self) ++ [ETimerStop] ++
        concat (map stop_effects (column_mixers session_self)) ++
        concat (map stop_effects (concat (oscillators session_self)))
    else
      self' = set_playing true session_self ∧
      log w' = log session_world ++ [ETimerStart (speed session_self)].
Proof. apply (on_play_pause_effect session_self session_world). reflexivity. Defined.

Lemma torn_down_inactive (cam : CameraManager) :
  hue_oscillator cam = None → torn_down cam = cam.
Proof. intros H. unfold torn_down. by rewrite H. Qed.

(** X13: play then pause.  On a paused well-formed window, pressing
    play/pause twice (with no tick in between) gives back the window exactly
    as it was; what is sent is the start and the stop of the timer and one
    more stop to each cell graph. *)
Theorem play_then_pause (self : SoundGrid) (w : World) :
  wf self → playing self = false →
  ∃ w',
    (let! self1 := on_play_pause self in on_play_pause self1) w = Return self w' ∧
    log w' = log w ++ [ETimerStart (speed self); ETimerStop] ++
             concat (map stop_effects (concat (oscillators self))).
Proof.
  intros Hwf Hp.
  destruct (on_play_pause_run self w (wf_columns _ Hwf)) as (self1 & w1 & Hrun1 & H1).
  rewrite Hp in H1. destruct H1 as [-> Hlog1].
  destruct (on_play_pause_run (set_playing true self) w1 (wf_columns _ Hwf))
    as (self2 & w2 & Hrun2 & H2).
  simpl in H2. destruct H2 as [-> Hlog2].
  destruct (wf_idle _ Hwf Hp) as [Hcols Hhue].
  exists w2. unfold bind. rewrite Hrun1, Hrun2. split.
  - f_equal. rewrite torn_down_inactive by done.
    clear -Hcols Hp. destruct self; simpl in *. by subst.
  - rewrite Hlog2, Hlog1, Hcols. unfold hue_stop_effects. rewrite Hhue.
    simpl. by rewrite <- !app_assoc.
Qed.

Lemma play_then_pause_witness :
  ∃ w',
    (let! self1 := on_play_pause SoundGrid_init in on_play_pause self1) World_init
      = Return SoundGrid_init w' ∧
    log w' = log World_init
             ++ [ETimerStart (speed SoundGrid_init); ETimerStop] ++
             concat (map stop_effects (concat (oscillators SoundGrid_init))).
Proof.
  apply (play_then_pause SoundGrid_init World_init SoundGrid_init_wf). reflexivity.
Defined.

(** X14: the volume slider.  [on_volume_change] sets the volume to
    [value / 10] and sends [setMul] with it to the fader of every cell graph,
    row by row, and then to the fader of every live hold voice, in the order
    of the instrument names; it sends nothing else (the column voices and the
    hue voice are not told) and changes nothing else of the window. *)
Theorem on_volume_change_effect (value : Z) (self : SoundGrid) (w : World) :
  ∃ w',
    on_volume_change value self w
      = Return (set_volume (inject_Z value / 10.0)%Q self) w' ∧
    log w' = log w ++
      concat (map (set_mul_effects (inject_Z value / 10.0)%Q)
                (concat (oscillators self))) ++
      concat (map (set_mul_effects (inject_Z value / 10.0)%Q) (hold_slots self)).
Proof.
  unfold on_volume_change. set (v := (inject_Z value / 10.0)%Q).
  assert (∀ slot, does (set_pair_mul v slot) (fun _ evs => evs = set_mul_effects v slot))
    as Hslot.
  { intros [[source fader]|]; [by apply does_emit | by apply does_ret]. }
  assert (does (for_each (oscillators self)
                  (fun row _ => for_each row (fun osc _ => set_pair_mul v osc) tt) tt)
            (fun _ evs => evs = concat (map (set_mul_effects v)
                                          (concat (oscillators self))))) as H1.
  { eapply does_weaken.
    - apply (does_for_each_emit
               (fun row => for_each row (fun osc _ => set_pair_mul v osc) tt)
               (fun row => concat (map (set_mul_effects v) row))).
      intros row _. apply (does_for_each_emit (set_pair_mul v) (set_mul_effects v)).
      intros osc _. apply Hslot.
    - intros _ evs ->. induction (oscillators self) as [|row g IH]; [done|].
      simpl. by rewrite map_app, concat_app, IH. }
  assert (does (for_each INSTRUMENT_NAMES
                  (fun name _ =>
                     match instrument_loops self !! name with
                     | Some inst => set_pair_mul v inst
                     | None => ret tt
                     end) tt)
            (fun _ evs => evs = concat (map (set_mul_effects v) (hold_slots self))))
    as H2.
  { eapply does_weaken.
    - apply (does_for_each_emit
               (fun name => match instrument_loops self !! name with
                            | Some inst => set_pair_mul v inst
                            | None => ret tt
                            end)
               (fun name => set_mul_effects v
                              (default None (instrument_loops self !! name)))).
      intros name _. destruct (instrument_loops self !! name); simpl;
        [apply Hslot | by apply does_ret].
    - intros _ evs ->. unfold hold_slots. by rewrite map_map. }
  destruct (H1 w) as ([] & w1 & evs1 & Hrun1 & Hlog1 & ->).
  destruct (H2 w1) as ([] & w2 & evs2 & Hrun2 & Hlog2 & ->).
  exists w2. cbn [volume set_volume oscillators instrument_loops].
  unfold bind. rewrite Hrun1, Hrun2. split; [done|].
  by rewrite Hlog2, Hlog1, <- app_assoc.
Qed.

(** ** The step clock *)






(** ** The voices of a tick *)






(** ** The frame of a toggle *)

Lemma cell_insert_ne {A} (g : list (list A)) (y x y' x' : nat) (row : list A) (v : A) :
  g !! y = Some row → (y', x') ≠ (y, x) →
  cell (<[y := <[x := v]> row]> g) y' x' = cell g y' x'.
Proof.
  intros Hrow Hne. unfold cell. destruct (decide (y' = y)) as [-> | Hy].
  - rewrite list_lookup_insert_eq by (by eapply lookup_lt_Some). rewrite Hrow. simpl.
    apply list_lookup_insert_ne. congruence.
  - by rewrite list_lookup_insert_ne.
Qed.

(** One toggle, with everything it sends. *)
Lemma on_toggle_full {F : Files} (self : SoundGrid) (y x : nat)
    (row : list Z) (orow : list (option (obj * obj))) (c : Z) (o : option (obj * obj)) :
  sample_ok self →
  current_instruments self !! y = Some row → row !! x = Some c →
  oscillators self !! y = Some orow → orow !! x = Some o →
  (y < 10)%nat → (-1 <= c < 7)%Z →
  does (on_toggle (Z.of_nat y) (Z.of_nat x) self)
    (fun self' evs => ∃ osc' evs_new,
       self' = set_current_instruments
                 (<[y := <[x := toggle_next c]> row]> (current_instruments self))
                 (set_oscillators
                    (<[y := <[x := osc']> orow]> (oscillators self)) self) ∧
       evs = stop_effects o ++ evs_new ∧
       match osc' with
       | None => toggle_next c = (-1)%Z ∧ evs_new = []
       | Some _ =>
           toggle_next c ≠ (-1)%Z ∧
           ∃ name freq evs_build,
             INSTRUMENT_NAMES !! Z.to_nat (toggle_next c) = Some name ∧
             scale_frequencies !! y = Some freq ∧
             evs_new = ECreateInstrument name freq :: evs_build ∧
             Forall is_build evs_build
       end).
Proof.
  intros Hfile Hrow Hc Horow Ho Hy Hcr.
  pose proof (lookup_lt_Some _ _ _ Hc) as Hxrow.
  pose proof (lookup_lt_Some _ _ _ Ho) as Hxorow.
  unfold on_toggle, toggle_next. change (Z.of_nat (length INSTRUMENT_NAMES)) with 7%Z.
  step_pure c ltac:(by eapply getitem2_in_range).
  set (next := if (c =? -1)%Z then 0%Z else ((c + 1) mod (7 + 1))%Z).
  assert (-1 <= toggle_next c < 7)%Z as Hnext by by apply toggle_next_range.
  unfold toggle_next in Hnext.
  change (Z.of_nat (length INSTRUMENT_NAMES)) with 7%Z in Hnext. fold next in Hnext.
  destruct (next =? 7)%Z eqn:E.
  - step_pure o ltac:(by eapply getitem2_in_range).
    eapply does_bind with
      (R1 := fun r evs => r = <[y := <[x := None]> orow]> (oscillators self) ∧
                          evs = stop_effects o).
    { destruct o as [p|].
      - eapply does_bind; [apply stop_pair_does|]. intros ? evs0 ->.
        apply (does_pure _ (<[y := <[x := None]> orow]> (oscillators self))).
        + intros. by apply setitem2_in_range.
        + split; [done|]. by rewrite app_nil_r.
      - apply does_ret. split; [|done].
        by rewrite (list_insert_id orow), list_insert_id. }
    intros oscs evs [-> ->]. simpl.
    step_pure (<[y := <[x := (-1)%Z]> row]> (current_instruments self))
      ltac:(by apply setitem2_in_range).
    apply does_ret. exists None, []. by rewrite !app_nil_r.
  - apply Z.eqb_neq in E.
    assert (0 <= next < 7)%Z as Hn.
    { subst next. destruct (c =? -1)%Z; [lia|].
      pose proof (Z.mod_pos_bound (c + 1) (7 + 1)). lia. }
    destruct (getitem_Z_in_range INSTRUMENT_NAMES next) as (name & Hnm & Hname);
      [simpl; lia|].
    step_pure name ltac:(apply Hname).
    step_pure o ltac:(by eapply getitem2_in_range).
    eapply does_bind; [apply stop_pair_does|]. intros ? evs1 ->.
    destruct (lookup_lt_is_Some_2 scale_frequencies y) as [freq Hfreq]; [simpl; lia|].
    step_pure freq ltac:(by apply getitem_in_range).
    eapply does_bind; [by apply create_with_settings_does|].
    intros inst evs2 (evs2' & -> & Hbuild).
    step_pure (<[y := <[x := Some inst]> orow]> (oscillators self))
      ltac:(by apply setitem2_in_range).
    step_pure (<[y := <[x := next]> row]> (current_instruments self))
      ltac:(by apply setitem2_in_range).
    apply does_ret. exists (Some inst), (ECreateInstrument name freq :: evs2').
    split; [done|]. split.
    { rewrite !app_nil_r. by destruct o as [[??]|]. }
    split; [lia|]. by exists name, freq, evs2'.
Qed.

(** X17: a toggle touches one cell.  Provided the selected sample file can
    be read, toggling cell [(y, x)] of a well-formed window first stops the
    graph the cell held (fader, then signal), then, unless the cell goes
    off, calls [create_instrument] once with the cell's new instrument and
    the scale frequency of row [y].  The cell's graph is empty afterwards
    exactly when the cell is off.  No other cell of the grid or of the graphs
    changes, no other attribute of the window changes, and nothing is routed
    to the output: the graph of a cell is built but not played. *)
Theorem on_toggle_frame {F : Files} (self : SoundGrid) (w : World) (y x : nat)
    (c : Z) (o : option (obj * obj)) :
  wf self → sample_ok self → (y < 10)%nat → (x < 10)%nat →
  cell (current_instruments self) y x = Some c →
  cell (oscillators self) y x = Some o →
  ∃ self' w' evs_new,
    on_toggle (Z.of_nat y) (Z.of_nat x) self w = Return self' w' ∧
    log w' = log w ++ stop_effects o ++ evs_new ∧
    self' = set_current_instruments (current_instruments self')
              (set_oscillators (oscillators self') self) ∧
    (∀ y' x', (y', x') ≠ (y, x) →
       cell (current_instruments self') y' x' = cell (current_instruments self) y' x' ∧
       cell (oscillators self') y' x' = cell (oscillators self) y' x') ∧
    cell (current_instruments self') y x = Some (toggle_next c) ∧
    (cell (oscillators self') y x = Some None ↔ toggle_next c = (-1)%Z) ∧
    (toggle_next c = (-1)%Z → evs_new = []) ∧
    (toggle_next c ≠ (-1)%Z →
       ∃ name freq,
         INSTRUMENT_NAMES !! Z.to_nat (toggle_next c) = Some name ∧
         scale_frequencies !! y = Some freq ∧
         calls evs_new = [(name, freq)]) ∧
    (∀ ob, EOut ob ∉ stop_effects o ++ evs_new).
Proof.
  intros Hwf Hfile Hy Hx Hc Ho.
  destruct (grid_shape_row _ y (wf_current _ Hwf) Hy) as (row & Hrow & Hrlen).
  destruct (grid_shape_row _ y (wf_oscillators _ Hwf) Hy) as (orow & Horow & Holen).
  unfold cell in Hc, Ho. rewrite Hrow in Hc. rewrite Horow in Ho. simpl in Hc, Ho.
  assert (-1 <= c < 7)%Z as Hcr.
  { pose proof (Forall_lookup_1 _ _ _ _ (wf_cells _ Hwf) Hrow) as Hr.
    by apply (Forall_lookup_1 _ _ _ _ Hr Hc). }
  destruct (on_toggle_full self y x row orow c o Hfile Hrow Hc Horow Ho Hy Hcr w)
    as (self' & w' & evs & Hrun & Hlog & osc' & evs_new & -> & -> & Hnew).
  exists (set_current_instruments
            (<[y := <[x := toggle_next c]> row]> (current_instruments self))
            (set_oscillators (<[y := <[x := osc']> orow]> (oscillators self)) self)),
    w', evs_new.
  split; [exact Hrun|]. split; [exact Hlog|]. split; [done|]. simpl. split.
  { intros y' x' Hne. by rewrite !cell_insert_ne. }
  split; [apply cell_insert; [done|lia]|].
  rewrite cell_insert by (done || lia).
  assert (Forall (fun e => ∀ ob, e ≠ EOut ob) (stop_effects o)) as Hstop.
  { destruct o as [[??]|]; by repeat constructor. }
  assert (∀ evs_build, Forall is_build evs_build →
            Forall (fun e => ∀ ob, e ≠ EOut ob) evs_build) as Hb.
  { intros evs_build H. eapply Forall_impl; [exact H|]. by intros []. }
  destruct osc' as [inst|].
  - destruct Hnew as (Hne & name & freq & evs_build & Hname & Hfreq & -> & Hbuild).
    split; [split; [done | intros; done]|]. split; [done|]. split.
    + intros _. exists name, freq. split; [done|]. split; [done|].
      change (calls (ECreateInstrument name freq :: evs_build))
        with ((name, freq) :: calls evs_build).
      by rewrite (calls_build _ Hbuild).
    + intros ob Hin. apply elem_of_app in Hin as [Hin | Hin].
      * by apply (proj1 (Forall_forall _ _) Hstop _ Hin ob).
      * apply elem_of_cons in Hin as [Hin | Hin]; [done|].
        by apply (proj1 (Forall_forall _ _) (Hb _ Hbuild) _ Hin ob).
  - destruct Hnew as [Hoff ->].
    split; [done|]. split; [done|]. split; [done|].
    intros ob Hin. rewrite app_nil_r in Hin.
    by apply (proj1 (Forall_forall _ _) Hstop _ Hin ob).
Qed.

Lemma on_toggle_frame_witness :
  ∃ self' w' evs_new,
    @on_toggle only_bass_synth (Z.of_nat 0) (Z.of_nat 1)
      (set_current_instruments
         (<[0%nat := <[1%nat := 2%Z]> (replicate 10 (-1)%Z)]>
            (replicate 10 (replicate 10 (-1)%Z))) session_self)
      session_world = Return self' w' ∧
    log w' = log session_world ++ stop_effects (Some (2, 0)%nat) ++ evs_new ∧
    self' = set_current_instruments (current_instruments self')
              (set_oscillators (oscillators self')
                 (set_current_instruments
                    (<[0%nat := <[1%nat := 2%Z]> (replicate 10 (-1)%Z)]>
                       (replicate 10 (replicate 10 (-1)%Z))) session_self)) ∧
    (∀ y' x', (y', x') ≠ (0, 1)%nat →
       cell (current_instruments self') y' x'
         = cell (<[0%nat := <[1%nat := 2%Z]> (replicate 10 (-1)%Z)]>
                   (replicate 10 (replicate 10 (-1)%Z))) y' x' ∧
       cell (oscillators self') y' x' = cell (oscillators session_self) y' x') ∧
    cell (current_instruments self') 0 1 = Some (toggle_next 2) ∧
    (cell (oscillators self') 0 1 = Some None ↔ toggle_next 2 = (-1)%Z) ∧
    (toggle_next 2 = (-1)%Z → evs_new = []) ∧
    (toggle_next 2 ≠ (-1)%Z →
       ∃ name freq,
         INSTRUMENT_NAMES !! Z.to_nat (toggle_next 2) = Some name ∧
         scale_frequencies !! 0%nat = Some freq ∧
         calls evs_new = [(name, freq)]) ∧
    (∀ ob, EOut ob ∉ stop_effects (Some (2, 0)%nat) ++ evs_new).
Proof.
  apply (@on_toggle_frame only_bass_synth
           (set_current_instruments
              (<[0%nat := <[1%nat := 2%Z]> (replicate 10 (-1)%Z)]>
                 (replicate 10 (replicate 10 (-1)%Z))) session_self)
           session_world 0 1 2 (Some (2, 0)%nat));
    [ | reflexivity | lia | lia | reflexivity | reflexivity].
  destruct session_self_wf. constructor; try done.
  - split; [done|]. by repeat constructor.
  - repeat constructor; lia.
Defined.

(** ** Cells and their graphs over a run *)

Lemma grid_inv_grids (self self' : SoundGrid) :
  oscillators self' = oscillators self →
  current_instruments self' = current_instruments self →
  grid_inv self → grid_inv self'.
Proof. unfold grid_inv. by intros -> ->. Qed.

Lemma grid_inv_cleared (self : SoundGrid) :
  oscillators self = replicate 10 (replicate 10 None) →
  current_instruments self = replicate 10 (replicate 10 (-1)%Z) →
  grid_inv self.
Proof.
  intros Ho Hc y x Hy Hx. rewrite Ho, Hc. unfold cell.
  rewrite !(lookup_replicate_2 _ _ y) by done. cbn [mbind option_bind].
  by rewrite !lookup_replicate_2.
Qed.

Lemma on_toggle_grid_inv {F : Files} (y x : Z) (self : SoundGrid) :
  sample_ok self →
  wf self → grid_inv self → (0 <= y < 10)%Z → (0 <= x < 10)%Z →
  does (on_toggle y x self) (fun self' _ => grid_inv self').
Proof.
  intros Hfile Hwf Hinv Hy Hx.
  destruct (grid_shape_cell _ (Z.to_nat y) (Z.to_nat x) (wf_current _ Hwf))
    as (row & c & Hrow & Hrlen & Hc); [lia|lia|].
  destruct (grid_shape_cell _ (Z.to_nat y) (Z.to_nat x) (wf_oscillators _ Hwf))
    as (orow & o & Horow & Holen & Ho); [lia|lia|].
  assert (-1 <= c < 7)%Z as Hcr.
  { pose proof (Forall_lookup_1 _ _ _ _ (wf_cells _ Hwf) Hrow) as Hr.
    by apply (Forall_lookup_1 _ _ _ _ Hr Hc). }
  rewrite <- (Z2Nat.id y), <- (Z2Nat.id x) by lia.
  eapply does_weaken.
  { apply (on_toggle_full self _ _ row orow c o Hfile Hrow Hc Horow Ho); [lia | done]. }
  intros self' evs (osc' & evs_new & -> & _ & Hnew) y' x' Hy' Hx'. simpl.
  destruct (decide ((y', x') = (Z.to_nat y, Z.to_nat x))) as [[= -> ->] | Hne].
  - rewrite !cell_insert by (done || lia).
    destruct osc' as [inst|].
    + destruct Hnew as [Hon _]. split; [done | intros [=]; done].
    + destruct Hnew as [-> _]. done.
  - rewrite !cell_insert_ne by done. by apply Hinv.
Qed.

Lemma handle_grid_inv {F : Files} (ev : event) (self : SoundGrid) :
  sample_ok self →
  wf self → grid_inv self → valid_event ev →
  does (handle ev self) (fun self' _ => grid_inv self').
Proof.
  intros Hfile Hwf Hinv Hev. destruct ev; simpl in *.
  - unfold on_instrument_button_down.
    destruct (wf_loops _ Hwf _ Hev) as [[inst|] Hslot]; rewrite Hslot.
    + by apply does_ret.
    + eapply does_bind; [by apply create_with_settings_does|].
      intros inst evs _. apply does_emit_then, does_ret. exact Hinv.
  - unfold on_instrument_button_up.
    destruct (instrument_loops self !! instrument_label) as [[[source fader]|]|];
      try by apply does_ret.
    apply does_emit_then, does_emit_then, does_ret. exact Hinv.
  - destruct Hev. by apply on_toggle_grid_inv.
  - unfold on_play_pause. destruct (playing self); simpl.
    + eapply does_bind; [apply stop_hue_oscillator_does|].
      intros cam evs1 _. apply does_emit_then.
      eapply does_bind; [apply stop_columns_does; apply Hwf|].
      intros s evs2 [-> _].
      eapply does_bind; [apply stop_oscillators_does|].
      intros [] evs3 _. apply does_ret. exact Hinv.
    + apply does_emit_then, does_ret. exact Hinv.
  - eapply does_weaken; [by apply on_clear_all_does|].
    intros self' evs (_ & Hc & Ho & _). by apply grid_inv_cleared.
  - unfold on_volume_change.
    eapply does_bind.
    { apply (does_for_each_quiet call_ok
               (fun row => for_each row
                  (fun osc _ => set_pair_mul (volume (set_volume _ self)) osc) tt)).
      intros row. apply (does_for_each_quiet call_ok). apply set_pair_mul_does. }
    intros [] evs1 _.
    eapply does_bind.
    { apply (does_for_each_quiet call_ok
               (fun name => match instrument_loops (set_volume _ self) !! name with
                            | Some inst => set_pair_mul (volume (set_volume _ self)) inst
                            | None => ret tt
                            end)).
      intros name. destruct (_ !! name); [apply set_pair_mul_does | by apply does_ret]. }
    intros [] evs2 _. apply does_ret. exact Hinv.
  - unfold on_speed_change.
    eapply does_bind with (R1 := fun _ _ => True).
    { apply does_when; [|done]. intros _. by apply does_emit. }
    intros [] evs _. apply does_ret. exact Hinv.
  - unfold on_sample_choice.
    destruct (getitem_Z_in_range samples_list idx) as (sample & _ & Hsample);
      [simpl; lia|].
    step_pure sample ltac:(apply Hsample).
    apply does_ret. exact Hinv.
  - apply does_ret. exact Hinv.
  - apply does_ret. exact Hinv.
  - apply does_ret. exact Hinv.
  - apply does_ret. exact Hinv.
  - apply does_ret. exact Hinv.
  - apply does_ret. exact Hinv.
  - apply does_ret. exact Hinv.
  - destruct (playing self) eqn:Hplay.
    + eapply does_weaken; [by apply on_timer_does|].
      intros self' evs (cam' & evs_hue & srcs & evs_voices & evs_mix & slot
                        & _ & -> & _). exact Hinv.
    + intros w. exists self, w, []. rewrite on_timer_paused by done.
      by rewrite app_nil_r.
  - unfold on_close, release.
    eapply does_bind with (R1 := fun _ _ => True).
    { by apply does_emit_then, does_ret. }
    intros ? evs1 _.
    eapply does_bind; [apply stop_hue_oscillator_does|].
    intros cam evs2 _. apply does_ret. exact Hinv.
Qed.

Lemma SoundGrid_init_grid_inv : grid_inv SoundGrid_init.
Proof. by apply grid_inv_cleared. Qed.

Lemma shipped_samples_present : @samples_present shipped_samples.
Proof. unfold samples_present, samples_list. by repeat constructor. Qed.

(** When a sample the window offers is missing, a valid run can raise:
    three toggles bring a cell to ["square"], the fourth opens the file. *)
Lemma run_raises_without_sample :
  @run no_files (replicate 4 (Toggle 0 0)) SoundGrid_init World_init = Raise PyoError.
Proof. reflexivity. Qed.

(** X18: over every run.  Provided the eight samples the window offers can
    be read, from the initial window and over any events the widgets can
    deliver, no handler raises (no index out of range, no missing key, no
    division by zero, no sample that fails to open), the selected sample
    stays one of the eight, the window stays well-formed (both grids 10x10,
    cells between -1 and 6, ten column voices, the step in 0..9, every
    instrument name a key of the hold loops, and no column voice or hue
    voice while paused), and a cell holds a graph exactly when it is not
    off. *)
Theorem run_invariant {F : Files} (evs : list event) :
  samples_present →
  Forall valid_event evs →
  ∃ self w,
    run evs SoundGrid_init World_init = Return self w ∧
    wf self ∧ grid_inv self ∧ selected_sample self ∈ samples_list.
Proof.
  intros Hall Hevs.
  assert (does (run evs SoundGrid_init)
            (fun self _ => wf self ∧ grid_inv self ∧
                           selected_sample self ∈ samples_list)) as H.
  { unfold run. eapply does_weaken.
    - apply (does_for_each handle
               (fun _ s _ => wf s ∧ grid_inv s ∧ selected_sample s ∈ samples_list)).
      + split; [apply SoundGrid_init_wf|].
        split; [apply SoundGrid_init_grid_inv | apply SoundGrid_init_sample].
      + intros i ev s effs Hi (Hwf & Hinv & Hsel).
        pose proof (Forall_lookup_1 _ _ _ _ Hevs Hi) as Hev.
        pose proof (sample_ok_present s Hall Hsel) as Hfile.
        eapply does_weaken.
        * apply does_and; [apply does_and|];
            [by apply handle_does | by apply handle_grid_inv | by apply handle_sample].
        * by intros s' effs' [[[? ?] ?] ?].
    - by intros s effs (? & ? & ?). }
  destruct (H World_init) as (self & w & _ & Hrun & _ & Hwf & Hinv & Hsel).
  by exists self, w.
Qed.

Lemma run_invariant_witness :
  ∃ self w,
    @run shipped_samples
      [Toggle 0 1; Toggle 0 1; Toggle 0 1; Toggle 0 1; SampleChoice 2;
       InstrumentButtonDown "samples"; PlayPause; Timer (Some [27%Q])]
      SoundGrid_init World_init = Return self w ∧
    wf self ∧ grid_inv self ∧ selected_sample self ∈ samples_list.
Proof.
  apply (@run_invariant shipped_samples
           [Toggle 0 1; Toggle 0 1; Toggle 0 1; Toggle 0 1; SampleChoice 2;
            InstrumentButtonDown "samples"; PlayPause; Timer (Some [27%Q])]
           shipped_samples_present).
  repeat constructor; simpl; lia.
Defined.

(** ** Clearing twice, closing, colours *)

(** X19: clearing is idempotent.  After [on_clear_all] on a well-formed
    window, a second [on_clear_all] returns the same window and sends
    nothing to the server. *)
Theorem on_clear_all_twice (self : SoundGrid) (w : World) :
  wf self →
  ∃ self1 w1 w2,
    on_clear_all self w = Return self1 w1 ∧
    on_clear_all self1 w1 = Return self1 w2 ∧
    log w2 = log w1.
Proof.
  intros Hwf.
  destruct (on_clear_all_does self Hwf w)
    as (self1 & w1 & evs & Hrun & _ & Hwf1 & Hci & Hosc & _ & _ & Hp & _).
  destruct (clear_grid_does self1 (wf_current _ Hwf1) (wf_oscillators _ Hwf1) w1)
    as (self2 & w2 & evs2 & Hrun2 & Hlog2 & -> & ->).
  exists self1, w1, w2. split; [exact Hrun|].
  assert (set_oscillators (replicate 10 (replicate 10 None))
            (set_current_instruments (replicate 10 (replicate 10 (-1)%Z)) self1)
          = self1) as Hsame.
  { clear -Hci Hosc. destruct self1; simpl in *. by subst. }
  rewrite Hsame in Hrun2. split.
  - unfold on_clear_all. rewrite Hp. exact Hrun2.
  - rewrite Hlog2, Hosc. by rewrite app_nil_r.
Qed.

Lemma on_clear_all_twice_witness :
  ∃ self1 w1 w2,
    on_clear_all session_self session_world = Return self1 w1 ∧
    on_clear_all self1 w1 = Return self1 w2 ∧
    log w2 = log w1.
Proof. apply (on_clear_all_twice session_self session_world session_self_wf). Defined.

(** X20: closing the window.  [on_close] releases the capture and tears
    down the hue voice (reverb, then oscillator) if there is one; it returns
    the window with only the camera manager changed.  It does not stop the
    timer, the column voices, the cell graphs or the hold loops.  Closing
    again sends the release only. *)
Theorem on_close_effect (self : SoundGrid) (w : World) :
  ∃ self' w' w'',
    on_close self w = Return self' w' ∧
    self' = set_camera_mgr (torn_down (camera_mgr self)) self ∧
    log w' = log w ++ [ECaptureRelease] ++ hue_stop_effects (camera_mgr self) ∧
    on_close self' w' = Return self' w'' ∧
    log w'' = log w' ++ [ECaptureRelease].
Proof.
  assert (∀ s w0, ∃ w1,
            on_close s w0 = Return (set_camera_mgr (torn_down (camera_mgr s)) s) w1 ∧
            log w1 = log w0 ++ [ECaptureRelease] ++ hue_stop_effects (camera_mgr s))
    as Hclose.
  { intros s w0. unfold on_close, release.
    destruct (stop_hue_oscillator_full (camera_mgr s)
                (mkWorld (next_obj w0) (log w0 ++ [ECaptureRelease])))
      as (w1 & Hrun1 & Hlog1).
    exists w1. unfold bind. simpl. rewrite Hrun1. split; [done|].
    rewrite Hlog1. simpl. by rewrite <- app_assoc. }
  destruct (Hclose self w) as (w' & Hrun & Hlog).
  destruct (Hclose (set_camera_mgr (torn_down (camera_mgr self)) self) w')
    as (w'' & Hrun' & Hlog').
  exists (set_camera_mgr (torn_down (camera_mgr self)) self), w', w''.
  split; [exact Hrun|]. split; [done|]. split; [exact Hlog|].
  assert (torn_down (torn_down (camera_mgr self)) = torn_down (camera_mgr self)) as Hidem.
  { unfold torn_down. destruct (hue_oscillator (camera_mgr self)) eqn:E; [done|].
    by rewrite E. }
  assert (hue_stop_effects (torn_down (camera_mgr self)) = []) as Hnone.
  { unfold hue_stop_effects, torn_down.
    destruct (hue_oscillator (camera_mgr self)) eqn:E; [done|]. by rewrite E. }
  cbn [camera_mgr set_camera_mgr] in Hrun', Hlog'. rewrite Hidem in Hrun'.
  rewrite Hnone in Hlog'. split; [|exact Hlog'].
  by rewrite Hrun'.
Qed.

(** X21: the colours of the instruments.  For every instrument index
    (0 to 6) [get_instrument_color] returns a colour, and two different
    instruments never get the same colour.  The index less 7 is a valid
    negative Python index and returns the same colour rather than raising:
    the cell value -1 would be painted as the last instrument, and the
    callers test for -1 first. *)
Theorem get_instrument_color_distinct (i j : Z) (w : World) :
  (0 <= i < Z.of_nat (length INSTRUMENT_NAMES))%Z →
  (0 <= j < Z.of_nat (length INSTRUMENT_NAMES))%Z →
  ∃ ci cj,
    get_instrument_color i w = Return ci w ∧
    get_instrument_color j w = Return cj w ∧
    (ci = cj → i = j) ∧
    get_instrument_color (i - 7) w = Return ci w.
Proof.
  change (Z.of_nat (length INSTRUMENT_NAMES)) with 7%Z. intros Hi Hj.
  assert (i = 0 ∨ i = 1 ∨ i = 2 ∨ i = 3 ∨ i = 4 ∨ i = 5 ∨ i = 6)%Z as Hi' by lia.
  assert (j = 0 ∨ j = 1 ∨ j = 2 ∨ j = 3 ∨ j = 4 ∨ j = 5 ∨ j = 6)%Z as Hj' by lia.
  clear Hi Hj.
  destruct Hi' as [-> | [-> | [-> | [-> | [-> | [-> | ->]]]]]];
    destruct Hj' as [-> | [-> | [-> | [-> | [-> | [-> | ->]]]]]];
    eexists _, _; (split; [reflexivity|]); (split; [reflexivity|]);
    (split; [intros [=]; reflexivity | reflexivity]).
Qed.

Lemma get_instrument_color_distinct_witness :
  ∃ ci cj,
    get_instrument_color 3 World_init = Return ci World_init ∧
    get_instrument_color 6 World_init = Return cj World_init ∧
    (ci = cj → 3%Z = 6%Z) ∧
    get_instrument_color (3 - 7) World_init = Return ci World_init.
Proof. apply (get_instrument_color_distinct 3 6 World_init); simpl; lia. Defined.
